(** * AEWS water-quality notebooks (07b / 07d): a shallow embedding

    The notebooks are a linear pipeline over numpy arrays:
    duplicate-date removal, land/water mask construction
    ([expand_mask]), the per-date reprojection + masking loop with its
    validity filter, and the netCDF export guard.

    Conventions of the embedding:
    - a float pixel is an [option V]: [None] is NaN, [Some v] a number;
      the pipeline only copies pixel values and tests [np.isnan];
    - a 2-D numpy array is a list of rows; a 3-D stack is a list of
      rasters; a 1-D array is a list;
    - numbers that are compared with a threshold (buffer distance,
      percentages) are exact rationals [Q]; the tests whose outcome
      depends on the rounding of float64 arithmetic (the distance test
      of [expand_mask], the validity filter) are given a second time
      on binary64 floats, in [Binary64];
    - Python exceptions (IndexError, ValueError) are [None]. *)

From stdpp Require Import list strings sorting.
From Stdlib Require Import QArith Qround ZArith Lia Lqa Floats.
From Stdlib Require Uint63.

Open Scope nat_scope.

(** ** Rasters *)

Module Raster.

(** Abbreviations, so that the list lemmas see through them. *)
Abbreviation pixel V := (option V) (only parsing).
Abbreviation raster V := (list (list (option V))) (only parsing).
Abbreviation mask := (list (list bool)) (only parsing).

Section raster_ops.
Context {V : Type}.

(** [np.isnan] on one pixel. *)
Definition isnan (p : pixel V) : bool :=
  match p with None => true | Some _ => false end.

(** [np.sum(np.isnan(r))] *)
Definition n_nans (r : raster V) : nat :=
  sum_list (map (λ row, length (filter (λ p, isnan p = true) row)) r).

(** [tmp = np.where(np.isnan(base)); base[tmp] = other[tmp]]:
    the NaN pixels of [base] take the value [other] has there. *)
Definition fill_nans (base other : raster V) : raster V :=
  zip_with (zip_with (λ b o, if isnan b then o else b)) base other.

(** [a[i, j]]; [None] outside the array. *)
Definition pix {A} (a : list (list A)) (i j : nat) : option A :=
  a !! i ≫= (.!! j).

(** An array of [h] rows and [w] columns. *)
Definition rect {A} (h w : nat) (a : list (list A)) : Prop :=
  length a = h ∧ Forall (λ row, length row = w) a.

(** Two arrays have the same numpy shape. *)
Definition same_shape {A B} (r1 : list (list A)) (r2 : list (list B)) : Prop :=
  Forall2 (λ x y, length x = length y) r1 r2.

#[global] Instance same_shape_dec {A B} (r1 : list (list A)) (r2 : list (list B))
  : Decision (same_shape r1 r2).
Proof. unfold same_shape. apply _. Defined.

Definition all_missing (r : raster V) : Prop :=
  Forall (Forall (λ p, p = None)) r.

Definition fully_valid (r : raster V) : Prop :=
  Forall (Forall (λ p, is_Some p)) r.
End raster_ops.

End Raster.
Import Raster.

(** ** Python and numpy idioms *)

Module Py.

(** A [for] loop over a list of indices whose body may raise. *)
Definition for_each {S} (body : nat → S → option S) (idx : list nat) (s : S)
  : option S :=
  foldl (λ acc i, acc ≫= body i) (Some s) idx.

(** [a[m]] for a boolean array [m]: numpy raises IndexError unless the
    two lengths agree. *)
Fixpoint bool_index {A} (a : list A) (m : list bool) : option (list A) :=
  match a, m with
  | [], [] => Some []
  | x :: a, b :: m =>
      r ← bool_index a m; Some (if b then x :: r else r)
  | _, _ => None
  end.

(** [np.sum(m)] for a boolean array. *)
Definition count_true (m : list bool) : nat :=
  length (filter (λ b, b = true) m).

End Py.
Import Py.

(** ** Duplicate-date removal (cell In[6] of 07b and of 07d) *)

Module Dedup.

Section dedup.
Context {V : Type}.

(** The loop state: the stack [WQ_TS_arr], mutated in place, and the
    flags [rem_ind]. *)
Record state := State {
  WQ_TS_arr : list (raster V);
  rem_ind : list bool
}.

(** [np.where(dates[:ind] == dates[ind])[0]], then its element [0]
    when it is not empty. *)
Definition first_dup (dates : list string) (ind : nat) : option nat :=
  d ← dates !! ind;
  fst <$> list_find (λ x, x = d) (take ind dates).

(** One iteration of [for ind in range(1, n_dates)]. *)
Definition dedup_body (dates : list string) (ind : nat) (st : state)
  : option state :=
  match first_dup dates ind with
  | None => Some st
  | Some dup_ind =>
      let rem := <[ind := true]> (rem_ind st) in
      cur ← WQ_TS_arr st !! ind;
      dup ← WQ_TS_arr st !! dup_ind;
      let ind_n_nans := n_nans cur in
      let dup_n_nans := n_nans dup in
      if ind_n_nans =? 0 then
        Some (State (<[dup_ind := cur]> (WQ_TS_arr st)) rem)
      else if negb (dup_n_nans =? 0) then
        if dup_n_nans <? ind_n_nans then
          Some (State (<[dup_ind := fill_nans dup cur]> (WQ_TS_arr st)) rem)
        else
          let cur' := fill_nans cur dup in
          Some (State (<[dup_ind := cur']> (<[ind := cur']> (WQ_TS_arr st)))
                      rem)
      else Some (State (WQ_TS_arr st) rem)
  end.

(** The state after the iterations [ind = 1 .. k]. *)
Definition dedup_loop (dates : list string) (arr : list (raster V)) (k : nat)
  : option state :=
  for_each (dedup_body dates) (seq 1 k)
           (State arr (replicate (length dates) false)).

(** The whole cell, with [n_dates = len(dates)] as cell In[4] sets it:
    the loop, then [WQ_TS_arr[~rem_ind]] and [dates[~rem_ind]]. *)
Definition dedup (dates : list string) (arr : list (raster V))
  : option (list string * list (raster V)) :=
  let n_dates := length dates in
  st ← dedup_loop dates arr (n_dates - 1);
  arr' ← bool_index (WQ_TS_arr st) (map negb (rem_ind st));
  dates' ← bool_index dates (map negb (rem_ind st));
  Some (dates', arr').

(** *** The specification's algorithm

    The definitions below follow the words of the specification, not
    the code; the facts further down compare them with [dedup].

    [resolve earlier later] is the raster the four-way rule leaves at
    the earlier position, with the tie of the missing-pixel counts
    settled the way the code settles it: the later raster is the base
    when it has fewer missing pixels or as many. *)
Definition resolve (earlier later : raster V) : raster V :=
  if n_nans later =? 0 then later
  else if n_nans earlier =? 0 then earlier
  else if n_nans later <=? n_nans earlier then fill_nans later earlier
  else fill_nans earlier later.

(** The four-way rule exactly as the specification words it: only a
    strictly smaller count makes the later raster the base; on a tie
    the earlier raster is filled from the later one. *)
Definition resolve_tie_earlier (earlier later : raster V) : raster V :=
  if n_nans later =? 0 then later
  else if n_nans earlier =? 0 then earlier
  else if n_nans later <? n_nans earlier then fill_nans later earlier
  else fill_nans earlier later.

(** The scan of the specification: pairs are taken in their order;
    the output holds one entry per date, at the position of its first
    occurrence; a repeated date is resolved by [rule] against the entry
    already there, and the repeated entry is dropped. *)
Fixpoint merge_into (rule : raster V → raster V → raster V)
    (out : list (string * raster V)) (d : string) (r : raster V)
  : list (string * raster V) :=
  match out with
  | [] => [(d, r)]
  | (d', r') :: out' =>
      if decide (d' = d) then (d', rule r' r) :: out'
      else (d', r') :: merge_into rule out' d r
  end.

Definition dedup_spec (rule : raster V → raster V → raster V)
    (l : list (string * raster V)) : list (string * raster V) :=
  foldl (λ out e, merge_into rule out e.1 e.2) [] l.

(** Entries whose flag is unset (total version of [a[~rem_ind]]). *)
Fixpoint unflagged {A} (rem : list bool) (l : list A) : list A :=
  match rem, l with
  | b :: rem, x :: l => if b then unflagged rem l else x :: unflagged rem l
  | _, _ => []
  end.

(** The loop invariant once the indices below [k] are processed: the
    entries from [k] on are untouched and unflagged, the first
    occurrences are unflagged, and the unflagged entries below [k] are
    the scan of the first [k] input pairs. *)
Definition dedup_inv (dates : list string) (arr : list (raster V)) (k : nat)
    (st : state) : Prop :=
  length (WQ_TS_arr st) = length dates ∧
  length (rem_ind st) = length dates ∧
  drop k (WQ_TS_arr st) = drop k arr ∧
  drop k (rem_ind st) = replicate (length dates - k) false ∧
  (∀ i, i < k → first_dup dates i = None → rem_ind st !! i = Some false) ∧
  unflagged (take k (rem_ind st)) (zip (take k dates) (take k (WQ_TS_arr st)))
  = dedup_spec resolve (zip (take k dates) (take k arr)).
End dedup.

Arguments state : clear implicits.

End Dedup.

(** ** Water-mask construction *)

Module WaterMask.

(** [struc[i,j] = x] *)
Definition set2 {A} (i j : nat) (x : A) (a : list (list A)) : list (list A) :=
  alter (<[j := x]>) i a.

(** Squared Euclidean distance between two index pairs. *)
Definition dist2 (p q : Z * Z) : Z :=
  ((p.1 - q.1) * (p.1 - q.1) + (p.2 - q.2) * (p.2 - q.2))%Z.

(** [pdist([p, q]) <= npix]. The distance is a square root, so the
    test is decided on squares: it holds when [npix] is not negative
    and the squared distance is at most [npix * npix]. *)
Definition pdist_le (p q : Z * Z) (npix : Q) : bool :=
  Qle_bool 0 npix && Qle_bool (inject_Z (dist2 p q)) (npix * npix).

(** [pdist([[nmid, nmid], [ii, jj]]) <= npix] *)
Definition struc_test (npix : Q) (nmid : Z) (ii jj : nat) : bool :=
  pdist_le (nmid, nmid) (Z.of_nat ii, Z.of_nat jj) npix.

(** The inner loop [for jj in range(ii, nmax)]. *)
Definition struc_row (npix : Q) (nmid : Z) (nmax ii : nat) (struc : mask)
  : mask :=
  foldl (λ s jj,
           if struc_test npix nmid ii jj
           then set2 jj ii true (set2 ii jj true s)
           else s)
        struc (seq ii (nmax - ii)).

(** The structuring element of [expand_mask]; [np.zeros] raises
    ValueError on a negative dimension. *)
Definition build_struc (npix : Q) : option mask :=
  let nmid := Qfloor npix in
  let nmax := (nmid * 2 + 1)%Z in
  if (nmax <? 0)%Z then None
  else
    let n := Z.to_nat nmax in
    Some (foldl (λ s ii, struc_row npix nmid n ii s)
                (replicate n (replicate n false)) (seq 0 n)).

(** Cell read with [border_value = 0]: false outside the array. *)
Definition cell (m : mask) (i j : Z) : bool :=
  if ((0 <=? i) && (0 <=? j))%Z
  then default false (m !! Z.to_nat i ≫= (.!! Z.to_nat j))
  else false.

(** Some cell of [a], with its indices, satisfies [f]. *)
Definition any2 {A} (f : nat → nat → A → bool) (a : list (list A)) : bool :=
  existsb id (imap (λ i row, existsb id (imap (f i) row)) a).

(** Modelled from the spec: [scipy.ndimage.binary_dilation] is a
    library routine outside the repository. With its defaults (one
    iteration, origin 0, border value 0) it is the standard dilation:
    an output cell is set when the structuring element, centred on some
    set input cell, covers it. The centre of an odd-sized element is
    its middle cell. *)
Definition binary_dilation (input struc : mask) : mask :=
  let cr := Z.of_nat (length struc / 2) in
  let cc := Z.of_nat (length (default [] (head struc)) / 2) in
  imap (λ i row,
          imap (λ j (_ : bool),
                  any2 (λ a b (s : bool),
                          s && cell input (Z.of_nat i - (Z.of_nat a - cr))
                                          (Z.of_nat j - (Z.of_nat b - cc)))
                       struc)
               row)
       input.

Definition expand_mask (mask_arr : mask) (npix : Q) : option mask :=
  struc ← build_struc npix;
  Some (binary_dilation mask_arr struc).

(** Cell In[10]: [land_mask = (WOFS_array <= water_mask_thr)], then
    [land_mask = expand_mask(land_mask, water_mask_buffer)]. *)
Definition land_mask_init (WOFS_array : list (list Q)) (water_mask_thr : Q)
  : mask :=
  map (map (λ v, Qle_bool v water_mask_thr)) WOFS_array.

Definition land_mask (WOFS_array : list (list Q))
    (water_mask_thr water_mask_buffer : Q) : option mask :=
  expand_mask (land_mask_init WOFS_array water_mask_thr) water_mask_buffer.

End WaterMask.

(** ** Reprojection, masking, validity filter and export *)

Module Pipeline.

Section pipeline.
Context {V : Type}.

(** Modelled from the spec: [gdal.ReprojectImage] is a library routine
    outside the repository. It receives the source band and the
    current contents of the destination band and returns the new
    contents of the destination band; which destination pixels it
    writes is the library's business, so it is a parameter here. *)
Variable ReprojectImage : raster V → raster V → raster V.

(** [np.nanmin], [np.nanmax], [np.nanmean], [np.nanmedian]. *)
Variables nanmin nanmax nanmean nanmedian : raster V → pixel V.

(** [np.ones((dx, dy)) * np.nan] *)
Definition all_nan (dx dy : nat) : raster V :=
  replicate dx (replicate dy None).

(** [band.WriteArray(arr, 0, 0)]: the cells of the band under [arr]
    take its values; GDAL refuses an array that sticks out of the
    band. *)
Definition WriteArray (arr band : raster V) : option (raster V) :=
  if decide (length arr ≤ length band ∧
             Forall2 (λ a b, length a ≤ length b) arr (take (length arr) band))
  then Some (imap (λ i row, imap (λ j old, default old (pix arr i j)) row)
                  band)
  else None.

(** [a[land_mask] = np.nan]; numpy raises IndexError unless the mask
    has the shape of [a]. *)
Definition mask_out (land : mask) (a : raster V) : option (raster V) :=
  if decide (same_shape land a)
  then Some (zip_with (zip_with (λ (b : bool) p, if b then None else p))
                      land a)
  else None.

(** The two in-memory GDAL datasets (one band each). *)
Record gdal := Gdal {
  gdal_WQ_data : raster V;
  gdalgeo_WQ_data : raster V
}.

(** The two [WriteArray] calls that open an iteration: the date's
    raster into the source band, an all-NaN array into the
    destination band. *)
Definition prepare (WOFS_dx WOFS_dy : nat) (wq : raster V) (g : gdal)
  : option gdal :=
  src ← WriteArray wq (gdal_WQ_data g);
  dst ← WriteArray (all_nan WOFS_dx WOFS_dy) (gdalgeo_WQ_data g);
  Some (Gdal src dst).

Definition resample (g : gdal) : gdal :=
  Gdal (gdal_WQ_data g)
       (ReprojectImage (gdal_WQ_data g) (gdalgeo_WQ_data g)).

(** Lines shared by the two loops: write, reset, resample, read back,
    mask the land pixels out. *)
Definition reproject_and_mask (land : mask) (WOFS_dx WOFS_dy : nat)
    (wq : raster V) (g : gdal) : option (gdal * raster V) :=
  g1 ← prepare WOFS_dx WOFS_dy wq g;
  let g2 := resample g1 in
  WQ_array ← mask_out land (gdalgeo_WQ_data g2);
  Some (g2, WQ_array).

(** [np.sum(~land_mask)] *)
Definition n_water_pix (land : mask) : nat :=
  sum_list (map (λ row, count_true (map negb row)) land).

(** [np.sum(~np.isnan(WQ_array))] *)
Definition n_valid_pix (WQ_array : raster V) : nat :=
  sum_list (map (λ row, count_true (map (λ p, negb (isnan p)) row)) WQ_array).

Definition Qnat (n : nat) : Q := inject_Z (Z.of_nat n).

(** The number of pixels that the mask marks as water and that hold a
    number in [a]. *)
Definition valid_water_count (land : mask) (a : raster V) : nat :=
  sum_list (zip_with (λ lrow arow,
                        count_true (zip_with (λ (b : bool) p,
                                                negb b && negb (isnan p))
                                             lrow arow))
                     land a).

(** 07b: [(100.0*n_valid_pix/n_water_pix) >= min_valid_pix_thr].
    A float division by zero does not raise in numpy: it gives [inf]
    for a positive numerator (and the test holds) and [nan] for a
    zero one (and the test fails). *)
Definition keep_07b (land : mask) (WQ_array : raster V)
    (min_valid_pix_thr : Q) : bool :=
  let n_water := n_water_pix land in
  let n_valid := n_valid_pix WQ_array in
  if n_water =? 0 then 0 <? n_valid
  else Qle_bool min_valid_pix_thr (100 * Qnat n_valid / Qnat n_water).

(** 07d: [pix_thr = np.sum(~land_mask) * min_valid_pix_thr / 100.0] *)
Definition pix_thr (land : mask) (min_valid_pix_thr : Q) : Q :=
  Qnat (n_water_pix land) * min_valid_pix_thr / 100.

(** 07d: [np.sum(~np.isnan(WQ_array)) >= pix_thr] *)
Definition keep_07d (land : mask) (WQ_array : raster V)
    (min_valid_pix_thr : Q) : bool :=
  Qle_bool (pix_thr land min_valid_pix_thr) (Qnat (n_valid_pix WQ_array)).

(** The per-date loop, [for dateind in range(k)]: [consume] is what
    the notebook does with the masked raster of a date. *)
Definition date_loop {S} (consume : nat → raster V → S → option S)
    (land : mask) (WOFS_dx WOFS_dy : nat) (WQ_TS_arr : list (raster V))
    (k : nat) (g : gdal) (s : S) : option (gdal * S) :=
  for_each (λ dateind st,
              wq ← WQ_TS_arr !! dateind;
              r ← reproject_and_mask land WOFS_dx WOFS_dy wq st.1;
              s' ← consume dateind r.2 st.2;
              Some (r.1, s'))
           (seq 0 k) (g, s).

(** *** 07b: one image and one metadata record per retained date *)

Inductive file :=
| Png (image : raster V)
| Json (date image : string) (minValue maxValue meanValue medianValue : pixel V)
| Contents (records : list (string * string * string))
| NetCDF (time : list string) (data : list (raster V))
         (minValues maxValues meanValues medianValues : list (pixel V))
         (flags : list (option string)) (DateCreated : string).

Record out07b := Out07b {
  files_07b : list (string * file);
  contents_json_list : list (string * string * string)
}.

Definition consume_07b (land : mask) (min_valid_pix_thr : Q)
    (save_basedir lake_str : string) (dates : list string)
    (dateind : nat) (WQ_array : raster V) (o : out07b) : option out07b :=
  if keep_07b land WQ_array min_valid_pix_thr then
    date ← dates !! dateind;
    let f_basename :=
      (save_basedir +:+ lake_str +:+ "/WQ_" +:+ lake_str +:+ "_" +:+ date)%string in
    let png_fname := (f_basename +:+ ".png")%string in
    let json_fname := (f_basename +:+ ".json")%string in
    Some (Out07b
            (files_07b o ++
               [(png_fname, Png WQ_array);
                (json_fname, Json date png_fname (nanmin WQ_array)
                                  (nanmax WQ_array) (nanmean WQ_array)
                                  (nanmedian WQ_array))])
            (contents_json_list o ++ [(date, png_fname, json_fname)]))
  else Some o.

(** Cells In[15] and In[16] of 07b, from an empty output directory: the
    loop, then the manifest [contents.json], written unconditionally. *)
Definition per_date_export (land : mask) (WOFS_dx WOFS_dy : nat)
    (min_valid_pix_thr : Q) (save_basedir lake_str : string)
    (dates : list string) (WQ_TS_arr : list (raster V)) (g : gdal)
  : option (list (string * file)) :=
  st ← date_loop (consume_07b land min_valid_pix_thr save_basedir lake_str dates)
                 land WOFS_dx WOFS_dy WQ_TS_arr (length dates) g
                 (Out07b [] []);
  Some (files_07b st.2 ++
          [((save_basedir +:+ lake_str +:+ "/contents.json")%string,
            Contents (contents_json_list st.2))]).

(** *** 07d: the retained dates are stacked and saved as one dataset *)

Record export := Export {
  WQ_res : list (raster V);
  valid_dates : list bool;
  min_vals : list (pixel V);
  max_vals : list (pixel V);
  mean_vals : list (pixel V);
  med_vals : list (pixel V);
  flags_list : list (option string);
  LS_dates : list string;
  files : list (string * file)
}.


(** The arrays cell In[15] allocates before its loop. *)
Definition export_init (WOFS_dx WOFS_dy : nat) (dates : list string)
    (fs : list (string * file)) : export :=
  let n_dates := length dates in
  Export (replicate n_dates (all_nan WOFS_dx WOFS_dy))
         (replicate n_dates false)
         (replicate n_dates None) (replicate n_dates None)
         (replicate n_dates None) (replicate n_dates None)
         (replicate n_dates None) dates fs.

Definition consume_07d (land : mask) (min_valid_pix_thr : Q)
    (dateind : nat) (WQ_array : raster V) (e : export) : option export :=
  if keep_07d land WQ_array min_valid_pix_thr then
    Some (Export (<[dateind := WQ_array]> (WQ_res e))
                 (<[dateind := true]> (valid_dates e))
                 (<[dateind := nanmin WQ_array]> (min_vals e))
                 (<[dateind := nanmax WQ_array]> (max_vals e))
                 (<[dateind := nanmean WQ_array]> (mean_vals e))
                 (<[dateind := nanmedian WQ_array]> (med_vals e))
                 (<[dateind := Some "undefined"%string]> (flags_list e))
                 (LS_dates e) (files e))
  else Some e.

(** Cell In[16]: the guarded write. [now] is [datetime.now()]. *)
Definition save_results (save_basedir lake_str now : string) (e : export)
  : option export :=
  if 0 <? count_true (valid_dates e) then
    WQ_res' ← bool_index (WQ_res e) (valid_dates e);
    min_vals' ← bool_index (min_vals e) (valid_dates e);
    max_vals' ← bool_index (max_vals e) (valid_dates e);
    med_vals' ← bool_index (med_vals e) (valid_dates e);
    mean_vals' ← bool_index (mean_vals e) (valid_dates e);
    flags_list' ← bool_index (flags_list e) (valid_dates e);
    LS_dates' ← bool_index (LS_dates e) (valid_dates e);
    let f_name := (save_basedir +:+ "WQ_" +:+ lake_str +:+ ".nc")%string in
    Some (Export WQ_res' (valid_dates e) min_vals' max_vals' mean_vals'
                 med_vals' flags_list' LS_dates'
                 (files e ++
                    [(f_name, NetCDF LS_dates' WQ_res' min_vals' max_vals'
                                     mean_vals' med_vals' flags_list' now)]))
  else Some e.

(** Cells In[15] and In[16] of 07d, from an empty output directory. *)
Definition archive_export (land : mask) (WOFS_dx WOFS_dy : nat)
    (min_valid_pix_thr : Q) (save_basedir lake_str now : string)
    (dates : list string) (WQ_TS_arr : list (raster V)) (g : gdal)
  : option export :=
  st ← date_loop (consume_07d land min_valid_pix_thr) land WOFS_dx WOFS_dy
                 WQ_TS_arr (length dates) g
                 (export_init WOFS_dx WOFS_dy dates []);
  save_results save_basedir lake_str now st.2.
End pipeline.

End Pipeline.

(** * The tests that depend on rounding, on binary64 floats

    [float] is the IEEE 754 binary64 type of the kernel, with the
    operations rounded to nearest as numpy and scipy compute them.
    The kernel of [expand_mask] and the two validity tests are
    embedded again with the arithmetic of the notebooks; the dilation,
    the counts and the records are those of [WaterMask] and
    [Pipeline]. *)

Module Binary64.
Import WaterMask Pipeline.

(** An integer as a float64, as numpy converts it: exact below
    [2^53] in absolute value. *)
Definition of_Z (z : Z) : float :=
  if (z <? 0)%Z then PrimFloat.opp (PrimFloat.of_uint63 (Uint63.of_Z (- z)))
  else PrimFloat.of_uint63 (Uint63.of_Z z).

Definition of_nat (n : nat) : float := of_Z (Z.of_nat n).


(** [np.floor(x)]: the largest integer not above [x], as a float; a
    zero, an infinity and NaN are returned as they are. *)
Definition floor (x : float) : float :=
  match Prim2SF x with
  | S754_finite s m e =>
      if (0 <=? e)%Z then x
      else of_Z ((if s then Z.neg m else Z.pos m) / 2 ^ (- e))
  | _ => x
  end.

(** [int(x)]: truncation towards zero; ValueError on NaN,
    OverflowError on an infinity. *)
Definition int (x : float) : option Z :=
  match Prim2SF x with
  | S754_zero _ => Some 0%Z
  | S754_finite s m e =>
      let a := if (0 <=? e)%Z then (Z.pos m * 2 ^ e)%Z
               else (Z.pos m / 2 ^ (- e))%Z in
      Some (if s then (- a)%Z else a)
  | _ => None
  end.

(** scipy's [pdist] on two points of the plane, in the Euclidean
    metric: the differences, their squares and the sum are float64
    operations, accumulated from [0.0] in the order of the
    coordinates, and the result is the float64 square root. *)
Definition pdist (u v : float * float) : float :=
  let d0 := (u.1 - v.1)%float in
  let d1 := (u.2 - v.2)%float in
  PrimFloat.sqrt (0 + d0 * d0 + d1 * d1)%float.

(** [pdist([[nmid, nmid], [ii, jj]]) <= npix] *)
Definition struc_test (npix nmid : float) (ii jj : nat) : bool :=
  (pdist (nmid, nmid) (of_nat ii, of_nat jj) <=? npix)%float.

(** The inner loop [for jj in range(ii, nmax)]. *)
Definition struc_row (npix nmid : float) (nmax ii : nat) (struc : mask)
  : mask :=
  foldl (λ s jj,
           if struc_test npix nmid ii jj
           then set2 jj ii true (set2 ii jj true s)
           else s)
        struc (seq ii (nmax - ii)).

(** The structuring element of [expand_mask]: [nmid = np.floor(npix)],
    [nmax = int(nmid*2 + 1)]; [np.zeros] raises ValueError on a
    negative dimension. *)
Definition build_struc (npix : float) : option mask :=
  let nmid := floor npix in
  nmax ← int (nmid * 2 + 1)%float;
  if (nmax <? 0)%Z then None
  else
    let n := Z.to_nat nmax in
    Some (foldl (λ s ii, struc_row npix nmid n ii s)
                (replicate n (replicate n false)) (seq 0 n)).

Definition expand_mask (mask_arr : mask) (npix : float) : option mask :=
  struc ← build_struc npix;
  Some (binary_dilation mask_arr struc).

Section filter.
Context {V : Type}.
Variables nanmin nanmax nanmean nanmedian : raster V → pixel V.

(** 07b: [(100.0*n_valid_pix/n_water_pix) >= min_valid_pix_thr]; the
    two counts are converted to float64, the product and the quotient
    are rounded. *)
Definition keep_07b (land : mask) (WQ_array : raster V)
    (min_valid_pix_thr : float) : bool :=
  let n_water_pix := of_nat (n_water_pix land) in
  let n_valid_pix := of_nat (n_valid_pix WQ_array) in
  (min_valid_pix_thr <=? 100 * n_valid_pix / n_water_pix)%float.

(** 07d: [pix_thr = np.sum(~land_mask) * min_valid_pix_thr / 100.0] *)
Definition pix_thr (land : mask) (min_valid_pix_thr : float) : float :=
  (of_nat (n_water_pix land) * min_valid_pix_thr / 100)%float.

(** 07d: [np.sum(~np.isnan(WQ_array)) >= pix_thr] *)
Definition keep_07d (land : mask) (WQ_array : raster V)
    (min_valid_pix_thr : float) : bool :=
  (pix_thr land min_valid_pix_thr <=? of_nat (n_valid_pix WQ_array))%float.

(** The body of the loop of 07b after the masking. *)
Definition consume_07b (land : mask) (min_valid_pix_thr : float)
    (save_basedir lake_str : string) (dates : list string)
    (dateind : nat) (WQ_array : raster V) (o : out07b) : option out07b :=
  if keep_07b land WQ_array min_valid_pix_thr then
    date ← dates !! dateind;
    let f_basename :=
      (save_basedir +:+ lake_str +:+ "/WQ_" +:+ lake_str +:+ "_" +:+ date)%string in
    let png_fname := (f_basename +:+ ".png")%string in
    let json_fname := (f_basename +:+ ".json")%string in
    Some (Out07b
            (files_07b o ++
               [(png_fname, Png WQ_array);
                (json_fname, Json date png_fname (nanmin WQ_array)
                                  (nanmax WQ_array) (nanmean WQ_array)
                                  (nanmedian WQ_array))])
            (contents_json_list o ++ [(date, png_fname, json_fname)]))
  else Some o.

(** The body of the loop of 07d after the masking. *)
Definition consume_07d (land : mask) (min_valid_pix_thr : float)
    (dateind : nat) (WQ_array : raster V) (e : export) : option export :=
  if keep_07d land WQ_array min_valid_pix_thr then
    Some (Export (<[dateind := WQ_array]> (WQ_res e))
                 (<[dateind := true]> (valid_dates e))
                 (<[dateind := nanmin WQ_array]> (min_vals e))
                 (<[dateind := nanmax WQ_array]> (max_vals e))
                 (<[dateind := nanmean WQ_array]> (mean_vals e))
                 (<[dateind := nanmedian WQ_array]> (med_vals e))
                 (<[dateind := Some "undefined"%string]> (flags_list e))
                 (LS_dates e) (files e))
  else Some e.
End filter.

End Binary64.

(** ** Dates in order of first occurrence *)

Module Dates.

(** The distinct dates of a sequence, each at the rank of its first
    occurrence. *)
Definition first_seen (dates : list string) : list string :=
  foldl (λ seen d, if decide (d ∈ seen) then seen else seen ++ [d]) [] dates.

End Dates.

(** ** The datasets of cells In[12] and In[13], and the run of 07d *)

Module Datasets.
Import WaterMask Pipeline.

Section datasets.
Context {V : Type}.
Variable ReprojectImage : raster V → raster V → raster V.
Variables nanmin nanmax nanmean nanmedian : raster V → pixel V.

(** The value GDAL fills a new in-memory band with. *)
Variable zero : V.

(** [a.shape] of a 2-D array; the width is read off the first row. *)
Definition shape {A} (a : list (list A)) : nat * nat :=
  (length a, length (default [] (head a))).

(** [gdal.GetDriverByName('MEM').Create('', xsize, ysize, 1, GDT_Float32)]:
    one band of [ysize] rows and [xsize] columns. GDAL refuses a
    size of zero and returns no dataset; the call on the next line of
    the cell ([SetGeoTransform]) then raises AttributeError. *)
Definition Create (xsize ysize : nat) : option (raster V) :=
  if (xsize =? 0) || (ysize =? 0) then None
  else Some (replicate ysize (replicate xsize (Some zero))).

(** Cell In[12]: [WQ_dx, WQ_dy = WQ_TS_arr[0].shape] (IndexError on an
    empty stack), then the source dataset; cell In[13]: the destination
    dataset on the grid of the water-occurrence array. *)
Definition make_datasets (WQ_TS_arr : list (raster V))
    (WOFS_array : list (list Q)) : option gdal :=
  first ← WQ_TS_arr !! 0;
  let WQ_dx := (shape first).1 in
  let WQ_dy := (shape first).2 in
  gdal_WQ_data ← Create WQ_dy WQ_dx;
  let WOFS_dx := (shape WOFS_array).1 in
  let WOFS_dy := (shape WOFS_array).2 in
  gdalgeo_WQ_data ← Create WOFS_dy WOFS_dx;
  Some (Gdal gdal_WQ_data gdalgeo_WQ_data).

(** Cells In[10] to In[16] of 07d in sequence: the land mask, the two
    datasets, the per-date loop and the guarded write. The arrays the
    loop hands to [np.nanmin] and the like have the size of the
    destination dataset, which is not zero; the coordinates of the
    saved array and the file system are left out. *)
Definition run_07d (water_mask_thr water_mask_buffer min_valid_pix_thr : Q)
    (save_basedir lake_str now : string) (dates : list string)
    (WQ_TS_arr : list (raster V)) (WOFS_array : list (list Q))
  : option export :=
  land ← land_mask WOFS_array water_mask_thr water_mask_buffer;
  g ← make_datasets WQ_TS_arr WOFS_array;
  archive_export ReprojectImage nanmin nanmax nanmean nanmedian land
                 (shape WOFS_array).1 (shape WOFS_array).2 min_valid_pix_thr
                 save_basedir lake_str now dates WQ_TS_arr g.

(** *** What 07b writes for one retained date *)

Definition f_basename (save_basedir lake_str date : string) : string :=
  (save_basedir +:+ lake_str +:+ "/WQ_" +:+ lake_str +:+ "_" +:+ date)%string.

Definition png_fname (save_basedir lake_str date : string) : string :=
  (f_basename save_basedir lake_str date +:+ ".png")%string.

Definition json_fname (save_basedir lake_str date : string) : string :=
  (f_basename save_basedir lake_str date +:+ ".json")%string.

Definition files_of_date (save_basedir lake_str : string)
    (e : string * raster V) : list (string * file) :=
  [(png_fname save_basedir lake_str e.1, Png e.2);
   (json_fname save_basedir lake_str e.1,
    Json e.1 (png_fname save_basedir lake_str e.1)
         (nanmin e.2) (nanmax e.2) (nanmean e.2) (nanmedian e.2))].

Definition record_of_date (save_basedir lake_str : string)
    (e : string * raster V) : string * string * string :=
  (e.1, png_fname save_basedir lake_str e.1,
   json_fname save_basedir lake_str e.1).
End datasets.

End Datasets.

(** ** The window on the water-occurrence tile (cells In[8] and In[9])

    A finite float64 is a rational, and the comparisons, the index
    searches and the slices of cell In[9] are exact on the values they
    are given; the arithmetic of [coord_vec] and of the new origins is
    idealised (the notebook rounds each product and each sum). *)

Module Tile.
Import Pipeline.

(** [np.arange(n) * step + origin] *)
Definition coord_vec (n : nat) (step origin : Q) : list Q :=
  (λ i, Qnat i * step + origin)%Q <$> seq 0 n.

(** [np.where(cond)[0]]: the indices at which the test holds, in
    increasing order. *)
Definition where_ (P : Q → bool) (v : list Q) : list nat :=
  (filter (λ e, P e.2 = true) (imap pair v)).*1.

(** [l[lo:hi]] for two indices that are not negative. *)
Definition slice {A} (lo hi : nat) (l : list A) : list A :=
  take (hi - lo) (drop lo l).

Record window := Window {
  WOFS_lonvec : list Q;
  WOFS_latvec : list Q;
  WOFS_array : list (list Q);
  WOFS_geotx : list Q
}.

(** Cell In[8] after the read: the two coordinate vectors. Longitudes
    are laid out along [shape[0]] and latitudes along [shape[1]], as
    the notebook has it. *)
Definition coordinate_vectors (arr : list (list Q)) (geotx : list Q)
  : option (list Q * list Q) :=
  g0 ← geotx !! 0; g1 ← geotx !! 1; g3 ← geotx !! 3; g5 ← geotx !! 5;
  Some (coord_vec (length arr) g1 g0,
        coord_vec (length (default [] (head arr))) g5 g3).

(** Cell In[9] on the two coordinate vectors it finds, whatever cell
    In[8] left in them. [head] and [last] of an empty index array
    stand for the IndexError of [[0][0]] and [[0][-1]]. *)
Definition crop (lonvec latvec : list Q) (arr : list (list Q))
    (geotx : list Q) (lon_range lat_range : Q * Q) : option window :=
  yind_min ← head (where_ (λ x, Qle_bool lon_range.1 x) lonvec);
  yind_max ← last (where_ (λ x, Qle_bool x lon_range.2) lonvec);
  xind_min ← last (where_ (λ x, Qle_bool lat_range.2 x) latvec);
  xind_max ← head (where_ (λ x, Qle_bool x lat_range.1) latvec);
  g0 ← geotx !! 0; g1 ← geotx !! 1; g3 ← geotx !! 3; g5 ← geotx !! 5;
  Some (Window
          (slice yind_min (yind_max + 1) lonvec)
          (slice xind_min (xind_max + 1) latvec)
          (slice yind_min (yind_max + 1)
             <$> slice xind_min (xind_max + 1) arr)
          (<[3 := (g3 + Qnat xind_min * g5)%Q]>
             (<[0 := (g0 + Qnat yind_min * g1)%Q]> geotx))).

(** Cells In[8] and In[9] in sequence. *)
Definition extract (arr : list (list Q)) (geotx : list Q)
    (lon_range lat_range : Q * Q) : option window :=
  vecs ← coordinate_vectors arr geotx;
  crop vecs.1 vecs.2 arr geotx lon_range lat_range.

End Tile.

(** ** The listing of lake extents (notebook 08a, last cell) *)

Module Lakes.

Record feature := Feature {
  HYDRONAME : string;
  HYDRONAMET : string;
  HYDRONAMEO : string;
  (** [ftr_json['geometry']['coordinates']]: rings of (lon, lat) *)
  coordinates : list (list (Q * Q))
}.

Inductive line :=
| Ellipsis
| Extent (kk : nat) (lake_type lake_name lake_nr : string)
         (min_lat max_lat min_lon max_lon : Q).

(** Python's [min]: the first least element; ValueError on an empty
    sequence. *)
Definition py_min (l : list Q) : option Q :=
  match l with
  | [] => None
  | x :: l => Some (foldl (λ m y, if Qle_bool m y then m else y) x l)
  end.

(** Python's [max]: the first greatest element. *)
Definition py_max (l : list Q) : option Q :=
  match l with
  | [] => None
  | x :: l => Some (foldl (λ m y, if Qle_bool y m then m else y) x l)
  end.

(** The body of the [elif] branch for one feature. *)
Definition extent_line (kk : nat) (ftr : feature) : option line :=
  coords ← coordinates ftr !! 0;
  min_lat ← py_min (snd <$> coords);
  max_lat ← py_max (snd <$> coords);
  min_lon ← py_min (fst <$> coords);
  max_lon ← py_max (fst <$> coords);
  Some (Extent kk (HYDRONAMET ftr) (HYDRONAME ftr) (HYDRONAMEO ftr)
               min_lat max_lat min_lon max_lon).

(** One turn of [for kk in range(n_ftr)]: the lines printed so far. *)
Definition listing_body (features : list feature) (kk_lim : nat)
    (kk : nat) (printed : list line) : option (list line) :=
  let n_ftr := length features in
  if kk =? kk_lim then Some (printed ++ [Ellipsis])
  else if (kk <? kk_lim) || (Z.of_nat n_ftr - Z.of_nat kk_lim <? Z.of_nat kk)%Z
  then
    ftr ← features !! kk;
    ln ← extent_line kk ftr;
    Some (printed ++ [ln])
  else Some printed.

Definition listing (features : list feature) (kk_lim : nat)
  : option (list line) :=
  for_each (listing_body features kk_lim) (seq 0 (length features)) [].

End Lakes.

Import Dedup WaterMask Pipeline.

(** * Facts *)

(** ** Loops, boolean indexing and the first-seen-wins scan *)

Section py_facts.
Context {S : Type}.

Lemma for_each_snoc (body : nat → S → option S) idx i s :
  for_each body (idx ++ [i]) s = for_each body idx s ≫= body i.
Proof. unfold for_each. by rewrite foldl_snoc. Qed.

Lemma bool_index_unflagged {A} (a : list A) (rem : list bool) :
  length a = length rem →
  bool_index a (map negb rem) = Some (unflagged rem a).
Proof.
  revert rem. induction a as [|x a IH]; intros [|b rem] Hlen; simplify_eq/=; [done|].
  rewrite IH by done. by destruct b.
Qed.
End py_facts.

Section unflagged_facts.
Context {A B : Type}.

Lemma unflagged_app (r1 r2 : list bool) (l1 l2 : list A) :
  length r1 = length l1 →
  unflagged (r1 ++ r2) (l1 ++ l2) = unflagged r1 l1 ++ unflagged r2 l2.
Proof.
  revert l1. induction r1 as [|b r1 IH]; intros [|x l1] Hlen; simplify_eq/=; [done|].
  rewrite IH by done. by destruct b.
Qed.

Lemma unflagged_zip (rem : list bool) (l : list A) (k : list B) :
  unflagged rem (zip l k) = zip (unflagged rem l) (unflagged rem k).
Proof.
  revert l k. induction rem as [|b rem IH]; intros [|x l] [|y k]; simpl; try done.
  - by destruct b, (unflagged rem l).
  - destruct b; by rewrite ?IH.
Qed.

Lemma unflagged_length (rem : list bool) (l : list A) (k : list B) :
  length l = length k → length (unflagged rem l) = length (unflagged rem k).
Proof.
  revert l k. induction rem as [|b rem IH]; intros [|x l] [|y k] Hlen; simplify_eq/=; try done.
  destruct b; simpl; auto.
Qed.

Lemma unflagged_elem_of (rem : list bool) (l : list A) x :
  x ∈ unflagged rem l → x ∈ l.
Proof.
  revert l. induction rem as [|b rem IH]; intros [|y l]; simpl;
    try (intros Hx; by apply elem_of_nil in Hx).
  destruct b; rewrite ?elem_of_cons; intuition auto.
Qed.
End unflagged_facts.

Section dedup_facts.
Context {V : Type}.
Implicit Types (dates : list string) (arr : list (raster V)).
Implicit Types (out : list (string * raster V)) (rule : raster V → raster V → raster V).

Lemma dedup_loop_S dates arr k :
  dedup_loop dates arr (S k) = dedup_loop dates arr k ≫= dedup_body dates (S k).
Proof. unfold dedup_loop. by rewrite seq_S, for_each_snoc. Qed.

Lemma dedup_spec_snoc rule l d r :
  dedup_spec rule (l ++ [(d, r)]) = merge_into rule (dedup_spec rule l) d r.
Proof. unfold dedup_spec. by rewrite foldl_snoc. Qed.

Lemma merge_into_fresh rule out d r :
  d ∉ out.*1 → merge_into rule out d r = out ++ [(d, r)].
Proof.
  induction out as [|[d' r'] out IH]; simpl; [done|].
  rewrite not_elem_of_cons. intros [Hne Hout].
  rewrite decide_False by done. by rewrite IH.
Qed.

Lemma merge_into_fst rule out d r :
  (merge_into rule out d r).*1 = if decide (d ∈ out.*1) then out.*1 else out.*1 ++ [d].
Proof.
  induction out as [|[d' r'] out IH]; cbn [merge_into].
  - case_decide as H; [by apply elem_of_nil in H|done].
  - destruct (decide (d' = d)) as [->|Hne]; rewrite !fmap_cons; cbn [fst].
    + rewrite decide_True; [done|]. apply elem_of_cons; auto.
    + rewrite IH. destruct (decide (d ∈ out.*1)) as [Hin|Hnin].
      * rewrite decide_True; [done|]. apply elem_of_cons; auto.
      * rewrite decide_False; [done|]. rewrite elem_of_cons. intros [->|?]; done.
Qed.

(** Resolving at the first occurrence of a date in the stack is what
    the scan does to the entries that are still unflagged. *)
Lemma merge_into_insert rule (rem : list bool) dates arr dup_ind d e r :
  dates !! dup_ind = Some d →
  (∀ j d', dates !! j = Some d' → j < dup_ind → d' ≠ d) →
  arr !! dup_ind = Some e →
  rem !! dup_ind = Some false →
  merge_into rule (unflagged rem (zip dates arr)) d r
  = unflagged rem (zip dates (<[dup_ind := rule e r]> arr)).
Proof.
  revert rem dates arr.
  induction dup_ind as [|i IH]; intros [|b rem] [|d0 dates] [|a arr] Hd Hmin He Hb;
    simplify_eq/=.
  - by rewrite decide_True.
  - assert (d0 ≠ d) as Hne by (apply (Hmin 0); [done|lia]).
    assert (merge_into rule (unflagged rem (zip dates arr)) d r
            = unflagged rem (zip dates (<[i := rule e r]> arr))) as Hrec.
    { apply IH; try done. intros j d' Hj Hlt. apply (Hmin (S j)); [done|lia]. }
    destruct b; simpl; [done|]. rewrite decide_False by done. by rewrite Hrec.
Qed.

(** What the four branches of [dedup_body] leave in the stack. *)
Lemma dedup_body_resolve dates ind dup_ind cur e (st : state V) :
  first_dup dates ind = Some dup_ind →
  dup_ind < ind →
  WQ_TS_arr st !! ind = Some cur →
  WQ_TS_arr st !! dup_ind = Some e →
  ∃ arr',
    dedup_body dates ind st = Some (State arr' (<[ind := true]> (rem_ind st))) ∧
    length arr' = length (WQ_TS_arr st) ∧
    take ind arr' = <[dup_ind := resolve e cur]> (take ind (WQ_TS_arr st)) ∧
    drop (S ind) arr' = drop (S ind) (WQ_TS_arr st).
Proof.
  intros Hdup Hlt Hcur He. unfold dedup_body, resolve.
  rewrite Hdup, Hcur, He. simpl.
  destruct (n_nans cur =? 0) eqn:Hc.
  { eexists. split; [done|]. rewrite length_insert, take_insert_lt, drop_insert_lt by lia.
    done. }
  destruct (n_nans e =? 0) eqn:Hz; simpl.
  { eexists. split; [done|]. split; [done|]. split; [|done].
    symmetry. apply list_insert_id. by rewrite lookup_take_lt. }
  apply Nat.eqb_neq in Hc, Hz.
  destruct (n_nans e <? n_nans cur) eqn:Hlt'.
  - apply Nat.ltb_lt in Hlt'.
    replace (n_nans cur <=? n_nans e) with false
      by (symmetry; apply Nat.leb_gt; lia).
    eexists. split; [done|].
    rewrite length_insert, take_insert_lt, drop_insert_lt by lia. done.
  - apply Nat.ltb_ge in Hlt'.
    replace (n_nans cur <=? n_nans e) with true
      by (symmetry; apply Nat.leb_le; lia).
    eexists. split; [done|].
    rewrite !length_insert, take_insert_lt, take_insert_ge by lia.
    rewrite !drop_insert_lt by lia. done.
Qed.

Lemma dedup_spec_fst_elem_of rule (l : list (string * raster V)) d :
  d ∈ (dedup_spec rule l).*1 → d ∈ l.*1.
Proof.
  induction l as [|[d' r'] l IH] using rev_ind.
  - done.
  - rewrite dedup_spec_snoc, merge_into_fst, fmap_app, elem_of_app. simpl.
    case_decide; rewrite ?elem_of_app; intuition auto.
Qed.

Lemma dedup_inv_step dates arr k st :
  length arr = length dates →
  0 < k < length dates →
  dedup_inv dates arr k st →
  ∃ st', dedup_body dates k st = Some st' ∧ dedup_inv dates arr (S k) st'.
Proof.
  intros Hlen [Hk0 Hk] (Hla & Hlr & Hda & Hdr & Hfirst & Hout).
  destruct (lookup_lt_is_Some_2 dates k) as [d Hd]; [done|].
  destruct (lookup_lt_is_Some_2 arr k) as [cur Hcur]; [lia|].
  assert (WQ_TS_arr st !! k = Some cur) as Hcur'.
  { rewrite <-(Nat.add_0_r k), <-lookup_drop, Hda, lookup_drop, Nat.add_0_r. done. }
  assert (rem_ind st !! k = Some false) as Hremk.
  { rewrite <-(Nat.add_0_r k), <-lookup_drop, Hdr. apply lookup_replicate_2. lia. }
  assert (drop (S k) (rem_ind st) = replicate (length dates - S k) false) as Hdr'.
  { change (S k) with (1 + k). rewrite Nat.add_comm, <-drop_drop, Hdr, drop_replicate.
    f_equal. lia. }
  assert (zip (take (S k) dates) (take (S k) arr)
          = zip (take k dates) (take k arr) ++ [(d, cur)]) as Hzip.
  { rewrite (take_S_r dates k d), (take_S_r arr k cur) by done.
    rewrite zip_with_app; [done|]. rewrite !length_take. lia. }
  destruct (list_find (λ x, x = d) (take k dates)) as [[dup_ind x]|] eqn:Hfind.
  - (* an earlier entry has the date *)
    apply list_find_Some in Hfind as (Hx & -> & Hmin).
    assert (dup_ind < k) as Hlt.
    { apply lookup_lt_Some in Hx. rewrite length_take in Hx. lia. }
    assert (first_dup dates k = Some dup_ind) as Hfd.
    { unfold first_dup. rewrite Hd. simpl.
      assert (list_find (λ x, x = d) (take k dates) = Some (dup_ind, d)) as ->; [|done].
      apply list_find_Some. done. }
    destruct (lookup_lt_is_Some_2 (WQ_TS_arr st) dup_ind) as [e He]; [lia|].
    destruct (dedup_body_resolve dates k dup_ind cur e st) as (arr' & Hbody & Hl' & Ht' & Hd');
      [done..|].
    eexists. split; [exact Hbody|].
    unfold dedup_inv. simpl. rewrite length_insert.
    split_and!; [lia|done| | | |].
    + rewrite Hd'. change (S k) with (1 + k).
      rewrite Nat.add_comm, <-!drop_drop. by rewrite Hda.
    + rewrite drop_insert_lt by lia. done.
    + intros i Hi Hnone. assert (i ≠ k) by (intros ->; congruence).
      rewrite list_lookup_insert_ne by done. apply Hfirst; [lia|done].
    + destruct (lookup_lt_is_Some_2 arr' k) as [y Hy]; [lia|].
      rewrite Hzip, dedup_spec_snoc, <-Hout.
      rewrite (take_S_r _ k true), (take_S_r dates k d), (take_S_r arr' k y);
        [|done|done|by apply list_lookup_insert_eq; lia].
      rewrite take_insert_ge by lia.
      rewrite zip_with_app by (rewrite !length_take; lia).
      rewrite unflagged_app by (rewrite length_zip_with, !length_take; lia).
      simpl. rewrite app_nil_r, Ht'.
      symmetry. apply merge_into_insert.
      * done.
      * intros j d' Hj Hjlt. apply (Hmin j d'); [|done].
        rewrite lookup_take_lt in Hx by done.
        rewrite lookup_take_lt, <-Hj by lia.
        assert (dup_ind < length dates) by (by eapply lookup_lt_Some).
        symmetry. apply lookup_take_lt. lia.
      * by rewrite lookup_take_lt.
      * rewrite lookup_take_lt by done. apply Hfirst; [done|].
        unfold first_dup. rewrite lookup_take_lt in Hx by done. rewrite Hx. simpl.
        assert (list_find (λ x, x = d) (take dup_ind dates) = None) as ->; [|done].
        apply list_find_None, Forall_lookup. intros j z Hj.
        apply lookup_take_Some in Hj as [Hj Hjlt].
        apply (Hmin j z); [|done]. rewrite lookup_take_lt by lia. done.
  - (* the date is new *)
    assert (first_dup dates k = None) as Hfd.
    { unfold first_dup. rewrite Hd. simpl. by rewrite Hfind. }
    exists st. split; [unfold dedup_body; by rewrite Hfd|].
    unfold dedup_inv. split_and!; [done|done| |done| |].
    + change (S k) with (1 + k). rewrite Nat.add_comm, <-!drop_drop. by rewrite Hda.
    + intros i Hi Hnone. destruct (decide (i = k)) as [->|]; [done|].
      apply Hfirst; [lia|done].
    + rewrite Hzip, dedup_spec_snoc, <-Hout.
      rewrite (take_S_r _ k false), (take_S_r dates k d), (take_S_r (WQ_TS_arr st) k cur)
        by done.
      rewrite zip_with_app by (rewrite !length_take; lia).
      rewrite unflagged_app by (rewrite length_zip_with, !length_take; lia).
      simpl. symmetry. apply merge_into_fresh. rewrite Hout.
      intros Hin%dedup_spec_fst_elem_of.
      rewrite fst_zip in Hin by (rewrite !length_take; lia).
      apply list_find_None in Hfind. rewrite Forall_forall in Hfind.
      by apply (Hfind d).
Qed.

Lemma dedup_loop_inv dates arr m :
  length arr = length dates →
  m < length dates →
  ∃ st, dedup_loop dates arr m = Some st ∧ dedup_inv dates arr (S m) st.
Proof.
  intros Hlen. induction m as [|m IH]; intros Hm.
  - eexists. split; [done|]. unfold dedup_inv. simpl.
    rewrite length_replicate. split_and!; [done..| | |].
    + rewrite drop_replicate. done.
    + intros i Hi _. apply lookup_replicate_2. lia.
    + destruct dates as [|d dates]; [simpl in Hm; lia|].
      destruct arr as [|a arr]; [done|]. simpl. by rewrite ?take_0.
  - destruct IH as (st & Hloop & Hinv); [lia|].
    destruct (dedup_inv_step dates arr (S m) st) as (st' & Hbody & Hinv');
      [done|lia|done|].
    exists st'. split; [|done]. rewrite dedup_loop_S, Hloop. done.
Qed.

(** The cell computes the first-seen-wins scan of its input. *)
Lemma dedup_refines dates arr :
  length arr = length dates →
  dedup dates arr
  = Some ((dedup_spec resolve (zip dates arr)).*1,
          (dedup_spec resolve (zip dates arr)).*2).
Proof.
  intros Hlen. destruct (decide (length dates = 0)) as [Hz|Hnz].
  { destruct dates; [|done]. destruct arr; done. }
  destruct (dedup_loop_inv dates arr (length dates - 1)) as (st & Hloop & Hinv);
    [done|lia|].
  unfold dedup. rewrite Hloop. simpl.
  destruct Hinv as (Hla & Hlr & _ & _ & _ & Hout).
  replace (S (length dates - 1)) with (length dates) in Hout by lia.
  rewrite !take_ge in Hout by lia.
  rewrite !bool_index_unflagged by lia. simpl.
  rewrite <-Hout, unflagged_zip.
  rewrite fst_zip, snd_zip; [done|..];
    rewrite (unflagged_length _ dates (WQ_TS_arr st)); (done || lia).
Qed.

Lemma merge_into_seen rule out1 out2 d e r :
  d ∉ out1.*1 →
  merge_into rule (out1 ++ (d, e) :: out2) d r = out1 ++ (d, rule e r) :: out2.
Proof.
  induction out1 as [|[d' r'] out1 IH]; simpl.
  - intros _. by rewrite decide_True.
  - rewrite not_elem_of_cons. intros [Hne Hnin].
    rewrite decide_False by done. by rewrite IH.
Qed.

Lemma scan_fresh rule out (l : list (string * raster V)) :
  NoDup (out ++ l).*1 →
  foldl (λ out e, merge_into rule out e.1 e.2) out l = out ++ l.
Proof.
  revert out. induction l as [|[d r] l IH]; intros out Hnd; simpl.
  - by rewrite app_nil_r.
  - rewrite merge_into_fresh.
    + rewrite IH; rewrite <-app_assoc; done.
    + rewrite fmap_app in Hnd. apply NoDup_app in Hnd as (_ & Hdisj & _).
      intros Hin. apply (Hdisj d Hin). simpl. apply elem_of_cons; auto.
Qed.

Lemma dedup_spec_NoDup_id rule (l : list (string * raster V)) :
  NoDup l.*1 → dedup_spec rule l = l.
Proof. intros Hnd. unfold dedup_spec. by rewrite scan_fresh. Qed.

Lemma dedup_spec_NoDup rule (l : list (string * raster V)) :
  NoDup (dedup_spec rule l).*1.
Proof.
  induction l as [|[d r] l IH] using rev_ind.
  - apply NoDup_nil_2.
  - rewrite dedup_spec_snoc, merge_into_fst. case_decide; [done|].
    apply NoDup_app. split_and!; [done| |apply NoDup_singleton].
    intros x Hx ->%list_elem_of_singleton. done.
Qed.

Lemma dedup_spec_one_pair rule l1 l2 l3 d e r :
  NoDup (l1 ++ (d, e) :: l2 ++ l3).*1 →
  dedup_spec rule (l1 ++ (d, e) :: l2 ++ (d, r) :: l3)
  = l1 ++ (d, rule e r) :: l2 ++ l3.
Proof.
  intros Hnd. unfold dedup_spec.
  replace (l1 ++ (d, e) :: l2 ++ (d, r) :: l3)
    with ((l1 ++ (d, e) :: l2) ++ (d, r) :: l3) by (by rewrite <-app_assoc).
  rewrite foldl_app. simpl.
  assert (NoDup (l1 ++ (d, e) :: l2).*1) as Hnd1.
  { replace (l1 ++ (d, e) :: l2 ++ l3) with ((l1 ++ (d, e) :: l2) ++ l3) in Hnd
      by (by rewrite <-app_assoc).
    rewrite fmap_app in Hnd. by apply NoDup_app in Hnd as (? & _ & _). }
  rewrite (scan_fresh rule []) by done. simpl.
  rewrite merge_into_seen.
  - rewrite scan_fresh; [by rewrite <-app_assoc|].
    rewrite <-app_assoc. simpl. revert Hnd. by rewrite !fmap_app, !fmap_cons, !fmap_app.
  - rewrite fmap_app in Hnd1. apply NoDup_app in Hnd1 as (_ & Hdisj & _).
    intros Hin. apply (Hdisj d Hin). simpl. apply elem_of_cons; auto.
Qed.
End dedup_facts.

Section raster_facts.
Context {V : Type}.
Implicit Types (r e l : raster V).

Lemma pix_fill_nans (base other : raster V) i j pb po :
  pix base i j = Some pb → pix other i j = Some po →
  pix (fill_nans base other) i j = Some (if isnan pb then po else pb).
Proof.
  unfold pix, fill_nans. intros Hb Ho.
  rewrite lookup_zip_with.
  destruct (base !! i) as [rb|]; [|done].
  destruct (other !! i) as [ro|]; [|done]. simpl in *.
  rewrite lookup_zip_with, Hb, Ho. done.
Qed.

Lemma n_nans_row_0 (row : list (pixel V)) :
  length (filter (λ p, isnan p = true) row) = 0 ↔ Forall (λ p, is_Some p) row.
Proof.
  induction row as [|p row IH]; simpl.
  - split; [constructor|done].
  - rewrite filter_cons, Forall_cons. case_decide as Hp.
    + destruct p; [done|]. simpl. split; [done|]. intros [[? ?] _]. done.
    + destruct p; [|done]. rewrite IH. split; [by eauto|by intros []].
Qed.

Lemma n_nans_0 r : n_nans r = 0 ↔ fully_valid r.
Proof.
  unfold n_nans, fully_valid. induction r as [|row r IH]; simpl.
  - split; [constructor|done].
  - rewrite Forall_cons, <-IH, <-n_nans_row_0. lia.
Qed.

Lemma missing_and_valid_row (row : list (pixel V)) :
  Forall (λ p, p = None) row → Forall (λ p, is_Some p) row → row = [].
Proof.
  destruct row as [|p row]; [done|].
  intros [-> _]%Forall_cons [[? ?] _]%Forall_cons. done.
Qed.

(** A raster that is both all-missing and fully valid has no pixel, and
    equals any raster of its shape. *)
Lemma missing_and_valid e l :
  same_shape e l → all_missing l → fully_valid l → e = l.
Proof.
  unfold same_shape, all_missing, fully_valid.
  induction 1 as [|x y e l Hxy _ IH]; [done|].
  intros [Hm1 Hm2]%Forall_cons [Hv1 Hv2]%Forall_cons.
  rewrite IH by done. f_equal.
  assert (y = []) as -> by (by apply missing_and_valid_row).
  by destruct x.
Qed.
End raster_facts.

Section dedup_claims.
Context {V : Type}.
Implicit Types (dates : list string) (arr : list (raster V)).

(** C1 (amended): the cell is the first-seen-wins scan with the four-way
    rule [resolve]: a later raster without missing pixels replaces the
    earlier one; else an earlier raster without missing pixels is kept;
    else, when the later raster has fewer missing pixels or as many, the
    later raster filled from the earlier one is stored at the earlier
    position; else the earlier raster filled from the later one is. The
    later entry is removed, and the cell does not raise. *)
Theorem dedup_four_way_rule dates arr :
  length arr = length dates →
  dedup dates arr
  = Some ((dedup_spec resolve (zip dates arr)).*1,
          (dedup_spec resolve (zip dates arr)).*2).
Proof. apply dedup_refines. Qed.

(** C2 (amended): in an iteration that merges two rasters which both
    have missing pixels, a pixel that is valid in both keeps the earlier
    raster's value when the earlier raster has strictly fewer missing
    pixels, and takes the later raster's value otherwise. *)
Theorem merge_priority dates ind dup_ind (st : state V) e l i j v w :
  first_dup dates ind = Some dup_ind →
  WQ_TS_arr st !! dup_ind = Some e →
  WQ_TS_arr st !! ind = Some l →
  0 < n_nans e → 0 < n_nans l →
  pix e i j = Some (Some v) →
  pix l i j = Some (Some w) →
  ∃ st' merged,
    dedup_body dates ind st = Some st' ∧
    WQ_TS_arr st' !! dup_ind = Some merged ∧
    pix merged i j = Some (Some (if n_nans e <? n_nans l then v else w)).
Proof.
  intros Hdup He Hl Hne Hnl Hpe Hpl.
  assert (dup_ind < length (WQ_TS_arr st)) as Hlt by (by eapply lookup_lt_Some).
  unfold dedup_body. rewrite Hdup, Hl, He. simpl.
  replace (n_nans l =? 0) with false by (symmetry; apply Nat.eqb_neq; lia).
  replace (n_nans e =? 0) with false by (symmetry; apply Nat.eqb_neq; lia).
  simpl. destruct (n_nans e <? n_nans l).
  - eexists _, _. split; [done|]. simpl. split.
    + by apply list_lookup_insert_eq.
    + by rewrite (pix_fill_nans e l i j (Some v) (Some w)).
  - eexists _, _. split; [done|]. simpl. split.
    + apply list_lookup_insert_eq. by rewrite length_insert.
    + by rewrite (pix_fill_nans l e i j (Some w) (Some v)).
Qed.

Lemma zip_pair_split {A B} (a1 a2 a3 : list A) (b1 b2 b3 : list B) x1 x2 y1 y2 :
  length b1 = length a1 → length b2 = length a2 →
  zip (a1 ++ x1 :: a2 ++ x2 :: a3) (b1 ++ y1 :: b2 ++ y2 :: b3)
  = zip a1 b1 ++ (x1, y1) :: zip a2 b2 ++ (x2, y2) :: zip a3 b3.
Proof.
  intros H1 H2. rewrite zip_with_app by done. simpl.
  by rewrite zip_with_app.
Qed.

Lemma resolve_valid (e l v : raster V) :
  fully_valid e ∧ ¬ fully_valid l ∧ v = e ∨
  fully_valid l ∧ ¬ fully_valid e ∧ v = l →
  resolve e l = v.
Proof.
  unfold resolve. rewrite <-!n_nans_0.
  intros [(He & Hl & ->)|(Hl & He & ->)].
  - apply Nat.eqb_neq in Hl. rewrite Hl, He. done.
  - rewrite Hl. done.
Qed.

(** C3: when exactly two entries share a date and exactly one of their
    rasters is fully valid, the cell puts that raster at the earlier
    position and removes the later entry; and a two-entry stack with one
    date, one raster all-missing and the other fully valid, becomes the
    single entry of the fully valid raster under that date. *)
Theorem dedup_keeps_valid :
  (∀ (ds1 ds2 ds3 : list string) (d : string)
     (as1 as2 as3 : list (raster V)) (e l v : raster V),
     length as1 = length ds1 → length as2 = length ds2 →
     length as3 = length ds3 →
     NoDup (ds1 ++ d :: ds2 ++ ds3) →
     fully_valid e ∧ ¬ fully_valid l ∧ v = e ∨
     fully_valid l ∧ ¬ fully_valid e ∧ v = l →
     dedup (ds1 ++ d :: ds2 ++ d :: ds3) (as1 ++ e :: as2 ++ l :: as3)
     = Some (ds1 ++ d :: ds2 ++ ds3, as1 ++ v :: as2 ++ as3)) ∧
  (∀ (d : string) (e l v : raster V),
     same_shape e l →
     all_missing e ∧ fully_valid l ∧ v = l ∨
     all_missing l ∧ fully_valid e ∧ v = e →
     dedup [d; d] [e; l] = Some ([d], [v])).
Proof.
  split.
  - intros ds1 ds2 ds3 d as1 as2 as3 e l v H1 H2 H3 Hnd Hv.
    rewrite dedup_refines by (rewrite !length_app; simpl; rewrite !length_app; simpl; lia).
    rewrite zip_pair_split by done.
    rewrite dedup_spec_one_pair.
    + rewrite (resolve_valid e l v) by done.
      rewrite !fmap_app, !fmap_cons, !fmap_app. simpl.
      rewrite !fst_zip, !snd_zip by lia. done.
    + rewrite !fmap_app, !fmap_cons, !fmap_app. simpl.
      rewrite !fst_zip by lia. done.
  - intros d e l v Hshape Hv.
    rewrite dedup_refines by done.
    unfold dedup_spec. simpl. rewrite decide_True by done. simpl.
    do 3 f_equal. unfold resolve.
    destruct Hv as [(Hm & Hl & ->)|(Hm & He & ->)].
    + apply n_nans_0 in Hl. by rewrite Hl.
    + destruct (n_nans l =? 0) eqn:Hz.
      * apply Nat.eqb_eq, n_nans_0 in Hz. symmetry. by apply missing_and_valid.
      * apply n_nans_0 in He. by rewrite He.
Qed.

(** C4: the cell is idempotent: it does not raise on a stack that has a
    raster per date, and run on its own output it returns that output. *)
Theorem dedup_idempotent dates arr :
  length arr = length dates →
  ∃ out, dedup dates arr = Some out ∧ dedup out.1 out.2 = Some out.
Proof.
  intros Hlen. eexists. split; [by apply dedup_refines|]. simpl.
  rewrite dedup_refines by (by rewrite !length_fmap).
  rewrite zip_fst_snd.
  rewrite dedup_spec_NoDup_id by apply dedup_spec_NoDup. done.
Qed.
End dedup_claims.

Lemma dedup_four_way_rule_witness :
  dedup ["2013-05-01"; "2013-05-17"; "2013-05-01"]%string
        [[[Some 1%Z; None]]; [[Some 7%Z; Some 8%Z]]; [[Some 2%Z; None]]]
  = Some (["2013-05-01"; "2013-05-17"]%string,
          [[[Some 2%Z; None]]; [[Some 7%Z; Some 8%Z]]]).
Proof.
  exact (dedup_four_way_rule
           ["2013-05-01"; "2013-05-17"; "2013-05-01"]%string
           [[[Some 1%Z; None]]; [[Some 7%Z; Some 8%Z]]; [[Some 2%Z; None]]]
           eq_refl).
Defined.

(** C1 as worded fails on a tie: with one missing pixel each, the cell
    stores the later raster (filled from the earlier one), not the
    earlier raster filled from the later one. *)
Lemma dedup_tie_counterexample :
  let dates := ["2013-05-01"; "2013-05-01"]%string in
  let arr := [[[Some 1%Z; None]]; [[Some 2%Z; None]]] in
  length arr = length dates ∧
  dedup dates arr = Some (["2013-05-01"%string], [[[Some 2%Z; None]]]) ∧
  ((dedup_spec resolve_tie_earlier (zip dates arr)).*1,
   (dedup_spec resolve_tie_earlier (zip dates arr)).*2)
  = (["2013-05-01"%string], [[[Some 1%Z; None]]]) ∧
  dedup dates arr
  ≠ Some ((dedup_spec resolve_tie_earlier (zip dates arr)).*1,
          (dedup_spec resolve_tie_earlier (zip dates arr)).*2).
Proof. vm_compute. split_and!; [done..|]. intros [=]. Qed.

Lemma merge_priority_witness :
  ∃ st' merged,
    dedup_body ["2013-05-01"; "2013-05-01"]%string 1
      (State [[[Some 1%Z; Some 5%Z; None]]; [[Some 2%Z; None; None]]]
             [false; false]) = Some st' ∧
    WQ_TS_arr st' !! 0 = Some merged ∧
    pix merged 0 0 = Some (Some 1%Z).
Proof.
  exact (merge_priority ["2013-05-01"; "2013-05-01"]%string 1 0
           (State [[[Some 1%Z; Some 5%Z; None]]; [[Some 2%Z; None; None]]]
                  [false; false])
           [[Some 1%Z; Some 5%Z; None]] [[Some 2%Z; None; None]] 0 0 1%Z 2%Z
           eq_refl eq_refl eq_refl
           (Nat.lt_0_succ 0) (Nat.lt_0_succ 1) eq_refl eq_refl).
Defined.

(** C2 as worded fails: both rasters have one missing pixel, pixel
    (0, 0) is valid in both, and the stored raster holds the later
    raster's value there. *)
Lemma merge_later_wins_counterexample :
  let e := [[Some 1%Z; None]] in
  let l := [[Some 2%Z; None]] in
  0 < n_nans e ∧ 0 < n_nans l ∧
  pix e 0 0 = Some (Some 1%Z) ∧ pix l 0 0 = Some (Some 2%Z) ∧
  ∃ merged,
    dedup ["2013-05-01"; "2013-05-01"]%string [e; l]
    = Some (["2013-05-01"%string], [merged]) ∧
    pix merged 0 0 ≠ Some (Some 1%Z).
Proof.
  split_and!; [vm_compute; lia|vm_compute; lia|done|done|].
  eexists. split; [vm_compute; reflexivity|]. intros [=].
Qed.

Lemma dedup_keeps_valid_witness :
  dedup (["2013-04-15"%string] ++ "2013-05-01"%string
           :: ["2013-05-17"%string] ++ "2013-05-01"%string :: [])
        ([[[Some 3%Z; None]]] ++ [[Some 1%Z; None]] :: [[[None; None]]]
           ++ [[Some 2%Z; Some 4%Z]] :: [])
  = Some (["2013-04-15"%string] ++ "2013-05-01"%string
            :: ["2013-05-17"%string] ++ [],
          [[[Some 3%Z; None]]] ++ [[Some 2%Z; Some 4%Z]] :: [[[None; None]]] ++ []) ∧
  dedup ["2013-05-01"; "2013-05-01"]%string [[[None; None]]; [[Some 2%Z; Some 4%Z]]]
  = Some (["2013-05-01"%string], [[[Some 2%Z; Some 4%Z]]]).
Proof.
  split.
  - apply (proj1 dedup_keeps_valid ["2013-04-15"%string] ["2013-05-17"%string] []
             "2013-05-01"%string [[[Some 3%Z; None]]] [[[None; None]]] []
             [[Some 1%Z; None]] [[Some 2%Z; Some 4%Z]] [[Some 2%Z; Some 4%Z]]);
      [reflexivity..| |].
    + apply (bool_decide_unpack _). vm_compute. exact I.
    + right. split_and!; [|rewrite <-n_nans_0; vm_compute; lia|reflexivity].
      repeat constructor; eauto.
  - apply (proj2 dedup_keeps_valid "2013-05-01"%string
             [[None; None]] [[Some 2%Z; Some 4%Z]] [[Some 2%Z; Some 4%Z]]).
    + repeat constructor.
    + left. split_and!; [repeat constructor| |reflexivity].
      repeat constructor; eauto.
Defined.

Lemma dedup_idempotent_witness :
  ∃ out,
    dedup ["2013-05-01"; "2013-05-17"; "2013-05-01"]%string
          [[[Some 1%Z; None]]; [[Some 7%Z; Some 8%Z]]; [[Some 2%Z; None]]]
    = Some out ∧
    dedup out.1 out.2 = Some out.
Proof.
  exact (dedup_idempotent
           ["2013-05-01"; "2013-05-17"; "2013-05-01"]%string
           [[[Some 1%Z; None]]; [[Some 7%Z; Some 8%Z]]; [[Some 2%Z; None]]]
           eq_refl).
Defined.

(** ** The structuring element and the dilation *)

Section grid_facts.
Context {A : Type}.
Implicit Types (a : list (list A)).

Lemma pix_Some_lt h w a i j x :
  rect h w a → pix a i j = Some x → i < h ∧ j < w.
Proof.
  intros [Hh Hw]. unfold pix. destruct (a !! i) as [row|] eqn:Hrow; [|done].
  simpl. intros Hj. split.
  - rewrite <-Hh. by eapply lookup_lt_Some.
  - rewrite Forall_lookup in Hw. rewrite <-(Hw i row Hrow). by eapply lookup_lt_Some.
Qed.

Lemma pix_is_Some h w a i j :
  rect h w a → i < h → j < w → is_Some (pix a i j).
Proof.
  intros [Hh Hw] Hi Hj. unfold pix.
  destruct (lookup_lt_is_Some_2 a i) as [row Hrow]; [lia|].
  rewrite Hrow. simpl. apply lookup_lt_is_Some_2.
  rewrite Forall_lookup in Hw. by rewrite (Hw i row Hrow).
Qed.

Lemma set2_rect h w a i j x : rect h w a → rect h w (set2 i j x a).
Proof.
  intros [Hh Hw]. unfold set2. split; [by rewrite length_alter|].
  rewrite Forall_lookup in Hw. apply Forall_lookup. intros p row.
  destruct (decide (p = i)) as [->|Hne].
  - rewrite list_lookup_alter_eq. destruct (a !! i) as [row'|] eqn:Hrow; [|done].
    simpl. intros [= <-]. rewrite length_insert. eauto.
  - rewrite list_lookup_alter_ne by done. eauto.
Qed.

Lemma pix_set2 h w a i j x p q :
  rect h w a → i < h → j < w →
  pix (set2 i j x a) p q = if decide (p = i ∧ q = j) then Some x else pix a p q.
Proof.
  intros [Hh Hw] Hi Hj. unfold pix, set2.
  rewrite Forall_lookup in Hw.
  destruct (decide (p = i)) as [->|Hne].
  - rewrite list_lookup_alter_eq.
    destruct (lookup_lt_is_Some_2 a i) as [row Hrow]; [lia|].
    rewrite Hrow. simpl. rewrite list_lookup_insert, (Hw i row Hrow).
    destruct (decide (q = j)) as [->|Hq].
    + rewrite !decide_True; [done|by split..].
    + rewrite !decide_False; [done|by intros [_ ?]|by intros [? _]].
  - rewrite list_lookup_alter_ne by done. rewrite decide_False; [done|].
    by intros [? _].
Qed.

Lemma replicate_rect h w (x : A) : rect h w (replicate h (replicate w x)).
Proof.
  split; [by rewrite length_replicate|].
  apply Forall_replicate. by rewrite length_replicate.
Qed.

Lemma pix_replicate h w (x : A) i j :
  pix (replicate h (replicate w x)) i j
  = if decide (i < h ∧ j < w) then Some x else None.
Proof.
  unfold pix. case_decide as Hd.
  - destruct Hd. rewrite lookup_replicate_2 by done. simpl.
    by rewrite lookup_replicate_2.
  - destruct (decide (i < h)).
    + rewrite lookup_replicate_2 by done. simpl.
      apply lookup_replicate_None. lia.
    + assert (replicate h (replicate w x) !! i = None) as ->; [|done].
      apply lookup_replicate_None. lia.
Qed.

Lemma existsb_imap_true {B} (g : nat → B → bool) (l : list B) :
  existsb id (imap g l) = true ↔ ∃ i x, l !! i = Some x ∧ g i x = true.
Proof.
  rewrite existsb_exists. split.
  - intros (b & Hin & Hb). apply list_elem_of_In, list_elem_of_lookup in Hin as [i Hi].
    rewrite list_lookup_imap in Hi.
    destruct (l !! i) as [x|] eqn:Hx; simplify_eq/=. eauto.
  - intros (i & x & Hx & Hg). exists true. split; [|done].
    apply list_elem_of_In, list_elem_of_lookup. exists i.
    by rewrite list_lookup_imap, Hx, <-Hg.
Qed.

Lemma any2_true (f : nat → nat → A → bool) a :
  any2 f a = true ↔ ∃ i j x, pix a i j = Some x ∧ f i j x = true.
Proof.
  unfold any2, pix. rewrite existsb_imap_true. split.
  - intros (i & row & Hrow & (j & x & Hx & Hf)%existsb_imap_true).
    exists i, j, x. by rewrite Hrow.
  - intros (i & j & x & Hx & Hf).
    destruct (a !! i) as [row|] eqn:Hrow; [|done].
    exists i, row. split; [done|]. apply existsb_imap_true. eauto.
Qed.
End grid_facts.

Section kernel_facts.
Variables (test : nat → nat → bool) (n : nat).

Lemma kernel_fold_pix ii (l : list nat) (s : mask) p q :
  rect n n s → ii < n → Forall (λ jj, jj < n) l →
  rect n n (foldl (λ s jj, if test ii jj then set2 jj ii true (set2 ii jj true s) else s) s l) ∧
  (pix (foldl (λ s jj, if test ii jj then set2 jj ii true (set2 ii jj true s) else s) s l) p q
     = Some true ↔
   pix s p q = Some true ∨
   ∃ jj, jj ∈ l ∧ test ii jj = true ∧ (p = ii ∧ q = jj ∨ p = jj ∧ q = ii)).
Proof.
  intros Hs Hii Hl. revert s Hs.
  induction Hl as [|jj l Hjj Hl IH]; intros s Hs; simpl.
  - split; [done|]. split; [auto|]. intros [?|(jj & []%elem_of_nil & _)]; done.
  - set (s' := if test ii jj then set2 jj ii true (set2 ii jj true s) else s).
    assert (rect n n s') as Hs'.
    { unfold s'. destruct (test ii jj); [|done]. by do 2 apply set2_rect. }
    destruct (IH s' Hs') as [Hrect Hpix]. split; [done|].
    rewrite Hpix. clear Hpix IH.
    assert (pix s' p q = Some true ↔
            pix s p q = Some true ∨
            test ii jj = true ∧ (p = ii ∧ q = jj ∨ p = jj ∧ q = ii)) as ->.
    { unfold s'. destruct (test ii jj) eqn:Hhit.
      - rewrite (pix_set2 n n), (pix_set2 n n); [|by try apply set2_rect..].
        destruct (decide (p = jj ∧ q = ii)) as [[-> ->]|Hn1];
          [split; [intros _; right; auto|done]|].
        destruct (decide (p = ii ∧ q = jj)) as [[-> ->]|Hn2];
          [split; [intros _; right; auto|done]|].
        split; [by auto|]. intros [?|[_ [?|?]]]; done.
      - split; [auto|]. intros [?|[? _]]; done. }
    split.
    + intros [[?|(? & ?)]|(jj' & ? & ? & ?)].
      * by left.
      * right. exists jj. split; [apply elem_of_cons; by left|done].
      * right. exists jj'. split; [apply elem_of_cons; by right|done].
    + intros [?|(jj' & [->|?]%elem_of_cons & ? & ?)].
      * by left; left.
      * by left; right.
      * right. by exists jj'.
Qed.

Lemma kernel_row_pix ii (s : mask) p q :
  rect n n s → ii < n →
  rect n n (foldl (λ s jj, if test ii jj then set2 jj ii true (set2 ii jj true s) else s)
                  s (seq ii (n - ii))) ∧
  (pix (foldl (λ s jj, if test ii jj then set2 jj ii true (set2 ii jj true s) else s)
              s (seq ii (n - ii))) p q = Some true ↔
   pix s p q = Some true ∨
   ∃ jj, ii ≤ jj < n ∧ test ii jj = true ∧ (p = ii ∧ q = jj ∨ p = jj ∧ q = ii)).
Proof.
  intros Hs Hii.
  destruct (kernel_fold_pix ii (seq ii (n - ii)) s p q) as [Hrect Hpix]; [done..| |].
  { apply Forall_forall. intros jj Hjj%elem_of_seq. lia. }
  split; [done|]. rewrite Hpix.
  split; (intros [?|(jj & Hjj & ?)]; [by left|right; exists jj; split; [|done]]).
  - apply elem_of_seq in Hjj. lia.
  - apply elem_of_seq. lia.
Qed.

Lemma kernel_loop_pix (l : list nat) (s : mask) p q :
  rect n n s → Forall (λ ii, ii < n) l →
  rect n n (foldl (λ s ii,
                     foldl (λ s jj, if test ii jj then set2 jj ii true (set2 ii jj true s) else s)
                           s (seq ii (n - ii)))
                  s l) ∧
  (pix (foldl (λ s ii,
                 foldl (λ s jj, if test ii jj then set2 jj ii true (set2 ii jj true s) else s)
                       s (seq ii (n - ii)))
              s l) p q = Some true ↔
   pix s p q = Some true ∨
   ∃ ii jj, ii ∈ l ∧ ii ≤ jj < n ∧ test ii jj = true ∧
            (p = ii ∧ q = jj ∨ p = jj ∧ q = ii)).
Proof.
  intros Hs Hl. revert s Hs.
  induction Hl as [|ii l Hii Hl IH]; intros s Hs; simpl.
  - split; [done|]. split; [auto|]. intros [?|(ii & jj & []%elem_of_nil & _)]; done.
  - destruct (kernel_row_pix ii s p q Hs Hii) as [Hrect Hrow].
    destruct (IH _ Hrect) as [Hrect' Hpix]. split; [done|].
    rewrite Hpix, Hrow. split.
    + intros [[?|(jj & ? & ?)]|(ii' & jj & ? & ?)].
      * by left.
      * right. exists ii, jj. split; [apply elem_of_cons; by left|done].
      * right. exists ii', jj. split; [apply elem_of_cons; by right|done].
    + intros [?|(ii' & jj & [->|?]%elem_of_cons & ?)].
      * by left; left.
      * left; right. by exists jj.
      * right. by exists ii', jj.
Qed.

(** The kernel the two nested loops build from an all-false square:
    entry [(p, q)] is set exactly when the test holds at the pair
    taken with its smaller index first, as the loops visit it. *)
Lemma kernel_pix p q :
  let struc :=
    foldl (λ s ii,
             foldl (λ s jj, if test ii jj then set2 jj ii true (set2 ii jj true s) else s)
                   s (seq ii (n - ii)))
          (replicate n (replicate n false)) (seq 0 n) in
  rect n n struc ∧
  (pix struc p q = Some true ↔
   p < n ∧ q < n ∧ test (p `min` q) (p `max` q) = true).
Proof.
  intros struc.
  assert (Forall (λ ii, ii < n) (seq 0 n)) as Hseq.
  { apply Forall_forall. intros ii Hii%elem_of_seq. lia. }
  destruct (kernel_loop_pix (seq 0 n) _ p q (replicate_rect n n false) Hseq)
    as [Hrect Hpix].
  split; [done|]. unfold struc. rewrite Hpix, pix_replicate. split.
  - intros [Hp|(ii & jj & Hii%elem_of_seq & Hjj & Hhit & [[-> ->]|[-> ->]])].
    + by case_decide.
    + split_and!; [lia|lia|]. by rewrite Nat.min_l, Nat.max_r by lia.
    + split_and!; [lia|lia|]. by rewrite Nat.min_r, Nat.max_l by lia.
  - intros (Hp & Hq & Hhit). right.
    destruct (decide (p ≤ q)).
    + rewrite Nat.min_l, Nat.max_r in Hhit by lia.
      exists p, q. split_and!; [apply elem_of_seq; lia|lia|lia|done|by left].
    + rewrite Nat.min_r, Nat.max_l in Hhit by lia.
      exists q, p. split_and!; [apply elem_of_seq; lia|lia|lia|done|by right].
Qed.
End kernel_facts.

Lemma struc_test_sym (npix : Q) (nmid : Z) ii jj :
  struc_test npix nmid ii jj = struc_test npix nmid jj ii.
Proof.
  unfold struc_test, pdist_le, dist2. simpl. do 3 f_equal. lia.
Qed.

Section disk_facts.
Open Scope Z_scope.

Lemma pdist_le_true p q npix :
  pdist_le p q npix = true ↔
  (0 <= npix)%Q ∧ (inject_Z (dist2 p q) <= npix * npix)%Q.
Proof.
  unfold pdist_le. by rewrite andb_true_iff, !Qle_bool_iff.
Qed.

Lemma Qfloor_nonneg (x : Q) : (0 <= x)%Q → 0 ≤ Qfloor x.
Proof.
  intros Hx. change 0 with (Qfloor 0). by apply Qfloor_resp_le.
Qed.

(** An integer whose square is at most [x * x] lies within
    [floor x] of zero: the box of half-width [floor x] loses no point
    of the disk of radius [x]. *)
Lemma square_le_floor (x : Q) (d : Z) :
  (0 <= x)%Q → (inject_Z (d * d) <= x * x)%Q → Z.abs d ≤ Qfloor x.
Proof.
  intros Hx Hd.
  destruct (Z_le_gt_dec (Z.abs d) (Qfloor x)) as [|Hgt]; [done|exfalso].
  assert (x < inject_Z (Z.abs d))%Q as Hlt.
  { eapply Qlt_le_trans; [apply (Qlt_floor x)|].
    rewrite <-Zle_Qle. lia. }
  assert (inject_Z (d * d) == inject_Z (Z.abs d) * inject_Z (Z.abs d))%Q as Heq.
  { rewrite <-inject_Z_mult. f_equiv. lia. }
  rewrite Heq in Hd. nra.
Qed.

Lemma disk_in_box (x : Q) (da db : Z) :
  (0 <= x)%Q → (inject_Z (da * da + db * db) <= x * x)%Q →
  Z.abs da ≤ Qfloor x ∧ Z.abs db ≤ Qfloor x.
Proof.
  intros Hx Hd. split; apply square_le_floor; try done.
  - eapply Qle_trans; [|exact Hd]. rewrite <-Zle_Qle. nia.
  - eapply Qle_trans; [|exact Hd]. rewrite <-Zle_Qle. nia.
Qed.
End disk_facts.

Lemma build_struc_spec (npix : Q) :
  (0 <= npix)%Q →
  let nmid := Qfloor npix in
  let n := Z.to_nat (nmid * 2 + 1) in
  ∃ struc,
    build_struc npix = Some struc ∧ rect n n struc ∧
    ∀ p q, pix struc p q = Some true ↔
           p < n ∧ q < n ∧ struc_test npix nmid p q = true.
Proof.
  intros Hpos nmid n. pose proof (Qfloor_nonneg npix Hpos) as Hmid.
  unfold build_struc. fold nmid.
  replace (nmid * 2 + 1 <? 0)%Z with false by (symmetry; apply Z.ltb_ge; lia).
  fold n. eexists. split; [done|].
  split; [exact (proj1 (kernel_pix (struc_test npix nmid) n 0 0))|].
  intros p q.
  rewrite (proj2 (kernel_pix (struc_test npix nmid) n p q)).
  destruct (decide (p ≤ q)).
  - by rewrite Nat.min_l, Nat.max_r by lia.
  - rewrite Nat.min_r, Nat.max_l by lia. by rewrite struc_test_sym.
Qed.

Lemma cell_true (m : mask) (i j : Z) :
  cell m i j = true ↔
  ∃ p q : nat, i = Z.of_nat p ∧ j = Z.of_nat q ∧ pix m p q = Some true.
Proof.
  unfold cell. destruct ((0 <=? i)%Z && (0 <=? j)%Z) eqn:Hij.
  - apply andb_true_iff in Hij as [Hi%Z.leb_le Hj%Z.leb_le].
    fold (pix m (Z.to_nat i) (Z.to_nat j)). split.
    + intros Hc. exists (Z.to_nat i), (Z.to_nat j). split_and!; [lia|lia|].
      by destruct (pix m (Z.to_nat i) (Z.to_nat j)) as [[]|].
    + intros (p & q & -> & -> & Hp). by rewrite !Nat2Z.id, Hp.
  - split; [done|]. intros (p & q & -> & -> & _).
    apply andb_false_iff in Hij as [Hi%Z.leb_gt|Hj%Z.leb_gt]; lia.
Qed.

Lemma pix_binary_dilation (input struc : mask) i j :
  pix (binary_dilation input struc) i j
  = (λ _ : bool,
       any2 (λ a b (s : bool),
               s && cell input
                      (Z.of_nat i - (Z.of_nat a - Z.of_nat (length struc / 2)))
                      (Z.of_nat j - (Z.of_nat b
                                     - Z.of_nat (length (default [] (head struc)) / 2))))
            struc) <$> pix input i j.
Proof.
  unfold pix, binary_dilation. rewrite list_lookup_imap.
  destruct (input !! i) as [row|]; [|done]. simpl.
  by rewrite list_lookup_imap.
Qed.

Lemma binary_dilation_shape (input struc : mask) :
  same_shape input (binary_dilation input struc).
Proof.
  unfold same_shape, binary_dilation.
  apply Forall2_same_length_lookup. split; [by rewrite length_imap|].
  intros i x y Hx. rewrite list_lookup_imap, Hx. simpl. intros [= <-].
  by rewrite length_imap.
Qed.

Lemma same_shape_pix {A B} (a : list (list A)) (b : list (list B)) i j :
  same_shape a b → is_Some (pix a i j) ↔ is_Some (pix b i j).
Proof.
  unfold same_shape, pix. intros Hs.
  destruct (a !! i) as [x|] eqn:Hx.
  - destruct (Forall2_lookup_l _ _ _ _ _ Hs Hx) as (y & Hy & Hxy).
    rewrite Hy. simpl. rewrite !lookup_lt_is_Some. lia.
  - assert (b !! i = None) as ->.
    { apply lookup_ge_None. rewrite <-(Forall2_length _ _ _ Hs).
      by apply lookup_ge_None. }
    simpl. split; intros [? ?]; done.
Qed.

Lemma struc_centre (npix : Q) (struc : mask) :
  (0 <= npix)%Q →
  rect (Z.to_nat (Qfloor npix * 2 + 1)) (Z.to_nat (Qfloor npix * 2 + 1)) struc →
  Z.of_nat (length struc / 2) = Qfloor npix ∧
  Z.of_nat (length (default [] (head struc)) / 2) = Qfloor npix.
Proof.
  intros Hpos [Hlen Hrows]. pose proof (Qfloor_nonneg npix Hpos) as Hmid.
  assert (Z.of_nat (Z.to_nat (Qfloor npix * 2 + 1) / 2) = Qfloor npix) as Hhalf.
  { rewrite Nat2Z.inj_div, Z2Nat.id by lia. change (Z.of_nat 2) with 2%Z.
    symmetry. apply (Z.div_unique _ _ _ 1); lia. }
  split; [by rewrite Hlen|].
  destruct struc as [|row struc]; [simpl in Hlen; lia|].
  apply Forall_cons in Hrows as [Hrow _]. simpl. by rewrite Hrow.
Qed.

(** What [expand_mask] computes: the output has the input's shape, and
    a pixel is set exactly when a set input pixel lies within distance
    [npix] of it. *)
Lemma expand_mask_spec (m : mask) (npix : Q) :
  (0 <= npix)%Q →
  ∃ out,
    expand_mask m npix = Some out ∧ same_shape m out ∧
    ∀ i j,
      pix out i j = Some true ↔
      is_Some (pix m i j) ∧
      ∃ p q, pix m p q = Some true ∧
             (inject_Z (dist2 (Z.of_nat i, Z.of_nat j) (Z.of_nat p, Z.of_nat q))
              <= npix * npix)%Q.
Proof.
  intros Hpos.
  destruct (build_struc_spec npix Hpos) as (struc & Hb & Hrect & Hstruc).
  destruct (struc_centre npix struc Hpos Hrect) as [Hcr Hcc].
  pose proof (Qfloor_nonneg npix Hpos) as Hmid.
  unfold expand_mask. rewrite Hb. simpl. eexists. split; [done|].
  split; [apply binary_dilation_shape|].
  intros i j. rewrite pix_binary_dilation, Hcr, Hcc.
  destruct (pix m i j) as [x|]; simpl; [|split; [done|by intros [[] _]]].
  split.
  - intros [= (a & b & s & Hs & Hc)%any2_true]. split; [done|].
    apply andb_true_iff in Hc as [-> (p & q & Hp & Hq & Hm)%cell_true].
    apply Hstruc in Hs as (_ & _ & [_ Hd]%pdist_le_true).
    exists p, q. split; [done|]. revert Hd. unfold dist2. simpl.
    intros Hd. eapply Qle_trans; [|exact Hd]. rewrite <-Zle_Qle. nia.
  - intros [_ (p & q & Hm & Hd)]. f_equal. apply any2_true.
    destruct (disk_in_box npix (Z.of_nat i - Z.of_nat p) (Z.of_nat j - Z.of_nat q))
      as [Ha Hb']; [done|exact Hd|].
    exists (Z.to_nat (Z.of_nat i - Z.of_nat p + Qfloor npix)),
           (Z.to_nat (Z.of_nat j - Z.of_nat q + Qfloor npix)), true.
    split.
    + apply Hstruc. split_and!; [lia|lia|].
      apply pdist_le_true. split; [done|].
      eapply Qle_trans; [|exact Hd]. rewrite <-Zle_Qle.
      unfold dist2. simpl. rewrite !Z2Nat.id by lia. nia.
    + simpl. apply cell_true. exists p, q. rewrite !Z2Nat.id by lia.
      split_and!; [lia|lia|done].
Qed.

(** C5: mask expansion is monotonic in the buffer distance: for
    [0 <= b <= b'] both calls return, and every pixel set to land with
    buffer [b] is set to land with buffer [b']. *)
Theorem expand_mask_monotonic (mask_arr : mask) (b b' : Q) :
  (0 <= b)%Q → (b <= b')%Q →
  ∃ out out',
    expand_mask mask_arr b = Some out ∧
    expand_mask mask_arr b' = Some out' ∧
    ∀ i j, pix out i j = Some true → pix out' i j = Some true.
Proof.
  intros Hb Hbb'.
  destruct (expand_mask_spec mask_arr b Hb) as (out & Hout & _ & Hspec).
  destruct (expand_mask_spec mask_arr b') as (out' & Hout' & _ & Hspec');
    [by eapply Qle_trans|].
  exists out, out'. split_and!; [done..|].
  intros i j (Hin & p & q & Hm & Hd)%Hspec. apply Hspec'.
  split; [done|]. exists p, q. split; [done|].
  eapply Qle_trans; [exact Hd|]. nra.
Qed.

Lemma expand_mask_monotonic_witness :
  ∃ out out',
    expand_mask [[false; false; false; false];
                 [false; false; false; false];
                 [false; false; false; true]] 1 = Some out ∧
    expand_mask [[false; false; false; false];
                 [false; false; false; false];
                 [false; false; false; true]] (3 # 2) = Some out' ∧
    ∀ i j, pix out i j = Some true → pix out' i j = Some true.
Proof.
  apply (expand_mask_monotonic
           [[false; false; false; false];
            [false; false; false; false];
            [false; false; false; true]] 1 (3 # 2)).
  - vm_compute. discriminate.
  - vm_compute. discriminate.
Defined.






Example expand_mask_example :
  expand_mask [[false; false; false; false];
               [false; false; false; false];
               [false; false; false; true]] (3 # 2)
  = Some [[false; false; false; false];
          [false; false; true; true];
          [false; false; true; true]].
Proof. vm_compute. reflexivity. Qed.

(** ** The per-date loop, the validity filter and the export *)

Section py_more.
Lemma count_true_cons (b : bool) (m : list bool) :
  count_true (b :: m) = (if b then 1 else 0) + count_true m.
Proof.
  unfold count_true. rewrite filter_cons. by destruct b.
Qed.


End py_more.

Section pipeline_facts.
Context {V : Type}.
Implicit Types (land : mask) (a WQ_array : raster V).

Lemma rect_same_shape {A B} h w (a : list (list A)) (b : list (list B)) :
  rect h w a → rect h w b → same_shape a b.
Proof.
  intros [Ha Hra] [Hb Hrb]. apply Forall2_same_length_lookup.
  split; [lia|]. intros i x y Hx Hy.
  rewrite Forall_lookup in Hra. rewrite Forall_lookup in Hrb. by rewrite (Hra i x), (Hrb i y).
Qed.

Lemma all_nan_rect dx dy : rect dx dy (@all_nan V dx dy).
Proof. apply replicate_rect. Qed.

Lemma WriteArray_full h w (arr band : raster V) :
  rect h w arr → rect h w band → WriteArray arr band = Some arr.
Proof.
  intros [Ha Hra] [Hb Hrb]. unfold WriteArray.
  rewrite Forall_lookup in Hra. rewrite Forall_lookup in Hrb.
  rewrite decide_True.
  - f_equal. apply list_eq. intros i. rewrite list_lookup_imap.
    destruct (band !! i) as [row|] eqn:Hrow; simpl.
    + destruct (lookup_lt_is_Some_2 arr i) as [arow Harow].
      { rewrite Ha, <-Hb. by eapply lookup_lt_Some. }
      rewrite Harow. f_equal. apply list_eq. intros j.
      rewrite list_lookup_imap. unfold pix. rewrite Harow. simpl.
      destruct (row !! j) as [old|] eqn:Hold; simpl.
      * destruct (lookup_lt_is_Some_2 arow j) as [x Hx].
        { rewrite (Hra i arow), <-(Hrb i row) by done. by eapply lookup_lt_Some. }
        by rewrite Hx.
      * symmetry. apply lookup_ge_None. apply lookup_ge_None in Hold.
        rewrite (Hra i arow), <-(Hrb i row) by done. done.
    + symmetry. apply lookup_ge_None. apply lookup_ge_None in Hrow. lia.
  - split; [lia|]. rewrite take_ge by lia.
    apply Forall2_same_length_lookup. split; [lia|]. intros i x y Hx Hy.
    by rewrite (Hra i x), (Hrb i y).
Qed.

Lemma pix_mask_out land a r i j :
  mask_out land a = Some r →
  pix r i j
  = pix land i j ≫= λ b : bool,
      pix a i j ≫= λ p, Some (if b then None else p).
Proof.
  unfold mask_out. case_decide as Hs; [|done]. intros [= <-].
  unfold pix. rewrite lookup_zip_with.
  destruct (land !! i) as [lrow|]; [|done]. simpl.
  destruct (a !! i) as [arow|]; simpl.
  - rewrite lookup_zip_with. done.
  - by destruct (lrow !! j).
Qed.
End pipeline_facts.

Section filter_facts.
Context {V : Type}.
Implicit Types (land : mask) (a WQ_array : raster V).

Lemma row_valid_masked (lrow : list bool) (arow : list (pixel V)) :
  count_true (map (λ p, negb (isnan p))
                  (zip_with (λ (b : bool) p, if b then None else p) lrow arow))
  = count_true (zip_with (λ (b : bool) p, negb b && negb (isnan p)) lrow
                  (zip_with (λ (b : bool) p, if b then None else p) lrow arow)).
Proof.
  revert arow. induction lrow as [|b lrow IH]; intros [|p arow]; simpl; try done.
  rewrite !count_true_cons, IH. by destruct b, p.
Qed.

(** After masking, the valid pixels are the valid water pixels. *)
Lemma n_valid_masked land a WQ_array :
  mask_out land a = Some WQ_array →
  n_valid_pix WQ_array = valid_water_count land WQ_array.
Proof.
  unfold mask_out. case_decide as Hs; [|done]. intros [= <-].
  unfold n_valid_pix, valid_water_count. clear Hs. revert a.
  induction land as [|lrow land IH]; intros [|arow a]; simpl; try done.
  by rewrite row_valid_masked, IH.
Qed.

Lemma Qnat_pos n : 0 < n → (0 < Qnat n)%Q.
Proof. intros Hn. unfold Qnat. change 0%Q with (inject_Z 0). rewrite <-Zlt_Qlt. lia. Qed.

Lemma percent_threshold (v w thr : Q) :
  (0 < w)%Q → (w * thr / 100 <= v)%Q ↔ (thr <= 100 * v / w)%Q.
Proof.
  intros Hw.
  assert (w * thr / 100 == w * thr * (1 # 100))%Q as -> by field.
  split; intros H.
  - apply Qle_shift_div_l; [done|]. lra.
  - assert (100 * v / w * w == 100 * v)%Q as Heq.
    { field. intros Hz. rewrite Hz in Hw. by apply Qlt_irrefl in Hw. }
    assert (thr * w <= 100 * v / w * w)%Q as H'
      by (by apply Qmult_le_compat_r; [|apply Qlt_le_weak]).
    rewrite Heq in H'. lra.
Qed.

Lemma keep_07b_iff land WQ_array thr :
  0 < n_water_pix land →
  keep_07b land WQ_array thr = true ↔
  (thr <= 100 * Qnat (n_valid_pix WQ_array) / Qnat (n_water_pix land))%Q.
Proof.
  intros Hw. unfold keep_07b.
  replace (n_water_pix land =? 0) with false by (symmetry; apply Nat.eqb_neq; lia).
  apply Qle_bool_iff.
Qed.

Lemma keep_07d_iff land WQ_array thr :
  0 < n_water_pix land →
  keep_07d land WQ_array thr = true ↔
  (thr <= 100 * Qnat (n_valid_pix WQ_array) / Qnat (n_water_pix land))%Q.
Proof.
  intros Hw. unfold keep_07d, pix_thr. rewrite Qle_bool_iff.
  apply percent_threshold. by apply Qnat_pos.
Qed.

End filter_facts.

Section loop_facts.
Context {V St : Type}.
Variable ReprojectImage : raster V → raster V → raster V.
Variable consume : nat → raster V → St → option St.
Variables (land : mask) (dx dy hs ws : nat).
Variable stack : list (raster V).

Hypothesis ReprojectImage_shape :
  ∀ src dst, rect dx dy dst → rect dx dy (ReprojectImage src dst).
Hypothesis consume_total :
  ∀ i a s, i < length stack → is_Some (consume i a s).
Hypothesis land_shape : rect dx dy land.

Lemma date_loop_S k g s :
  date_loop ReprojectImage consume land dx dy stack (S k) g s
  = date_loop ReprojectImage consume land dx dy stack k g s ≫= λ st,
      stack !! k ≫= λ wq,
        reproject_and_mask ReprojectImage land dx dy wq st.1 ≫= λ r,
          consume k r.2 st.2 ≫= λ s', Some (r.1, s').
Proof. unfold date_loop. by rewrite seq_S, for_each_snoc. Qed.

(** One pass through the shared lines, from any state of the two
    datasets: the destination handed to the resampler is blank, and the
    masked result does not depend on the state. *)
Lemma reproject_and_mask_fresh (wq : raster V) (g : gdal) :
  rect hs ws (gdal_WQ_data g) → rect dx dy (gdalgeo_WQ_data g) →
  rect hs ws wq →
  prepare dx dy wq g = Some (Gdal wq (all_nan dx dy)) ∧
  ∃ WQ_array,
    mask_out land (ReprojectImage wq (all_nan dx dy)) = Some WQ_array ∧
    reproject_and_mask ReprojectImage land dx dy wq g
    = Some (Gdal wq (ReprojectImage wq (all_nan dx dy)), WQ_array).
Proof.
  intros Hsrc Hdst Hwq.
  assert (prepare dx dy wq g = Some (Gdal wq (all_nan dx dy))) as Hprep.
  { unfold prepare. rewrite (WriteArray_full hs ws wq) by done. simpl.
    rewrite (WriteArray_full dx dy); [done|apply all_nan_rect|done]. }
  split; [done|].
  assert (same_shape land (ReprojectImage wq (all_nan dx dy))) as Hshape.
  { apply (rect_same_shape dx dy); [done|].
    apply ReprojectImage_shape, all_nan_rect. }
  unfold reproject_and_mask, mask_out. rewrite Hprep. simpl.
  rewrite decide_True by done. eauto.
Qed.

(** The loop rule: the shapes of the two datasets are kept, and so is
    any invariant of the consumer's state that each iteration
    re-establishes from the masked raster of its date. *)
Lemma date_loop_inv (Inv : nat → St → Prop) k g s :
  rect hs ws (gdal_WQ_data g) → rect dx dy (gdalgeo_WQ_data g) →
  Forall (rect hs ws) stack →
  Inv 0 s →
  (∀ i wq r si,
     Inv i si → stack !! i = Some wq →
     mask_out land (ReprojectImage wq (all_nan dx dy)) = Some r →
     ∃ s', consume i r si = Some s' ∧ Inv (S i) s') →
  k ≤ length stack →
  ∃ gk sk,
    date_loop ReprojectImage consume land dx dy stack k g s = Some (gk, sk) ∧
    rect hs ws (gdal_WQ_data gk) ∧ rect dx dy (gdalgeo_WQ_data gk) ∧
    Inv k sk.
Proof.
  intros Hsrc Hdst Hstack H0 Hstep. induction k as [|k IH]; intros Hk.
  - exists g, s. done.
  - destruct IH as (gk & sk & Hloop & Hsrck & Hdstk & Hinv); [lia|].
    destruct (lookup_lt_is_Some_2 stack k) as [wq Hwq]; [lia|].
    assert (rect hs ws wq) as Hrect.
    { rewrite Forall_lookup in Hstack. by apply (Hstack k). }
    destruct (reproject_and_mask_fresh wq gk) as (_ & WQ_array & Hmask & Hbody);
      [done..|].
    destruct (Hstep k wq WQ_array sk) as (s' & Hs' & Hinv'); [done..|].
    rewrite date_loop_S, Hloop. simpl. rewrite Hwq. simpl.
    rewrite Hbody. simpl. rewrite Hs'. simpl.
    eexists _, _. split; [done|]. simpl. split_and!; [done| |done].
    apply ReprojectImage_shape, all_nan_rect.
Qed.

Lemma date_loop_shapes k g s :
  rect hs ws (gdal_WQ_data g) → rect dx dy (gdalgeo_WQ_data g) →
  Forall (rect hs ws) stack →
  k ≤ length stack →
  ∃ gk sk,
    date_loop ReprojectImage consume land dx dy stack k g s = Some (gk, sk) ∧
    rect hs ws (gdal_WQ_data gk) ∧ rect dx dy (gdalgeo_WQ_data gk).
Proof.
  intros Hsrc Hdst Hstack Hk.
  destruct (date_loop_inv (λ _ _, True) k g s) as (gk & sk & ? & ? & ? & _);
    [done..| |done|by eauto].
  intros i wq r si _ Hwq%lookup_lt_Some _.
  destruct (consume_total i r si Hwq) as [s' ->]. eauto.
Qed.

(** The masked raster of each date when the resampler starts from a
    blank destination. *)
Lemma fresh_exists :
  ∃ masked,
    Forall2 (λ wq r, mask_out land (ReprojectImage wq (all_nan dx dy)) = Some r)
            stack masked.
Proof.
  clear consume_total. induction stack as [|wq stack' [masked IH]]; [by exists []|].
  assert (same_shape land (ReprojectImage wq (all_nan dx dy))) as Hshape.
  { apply (rect_same_shape dx dy); [done|].
    apply ReprojectImage_shape, all_nan_rect. }
  eexists (_ :: masked). constructor; [|done].
  unfold mask_out. by rewrite decide_True.
Qed.

(** The loop against the fold of the consumer over the rasters of
    [masked]: they succeed together, with the same state of the
    consumer, and the datasets then hold the last date and its
    resampling over a blank destination. *)
Lemma date_loop_fresh (masked : list (raster V)) k g s :
  rect hs ws (gdal_WQ_data g) → rect dx dy (gdalgeo_WQ_data g) →
  Forall (rect hs ws) stack →
  Forall2 (λ wq r, mask_out land (ReprojectImage wq (all_nan dx dy)) = Some r)
          stack masked →
  k ≤ length stack →
  match date_loop ReprojectImage consume land dx dy stack k g s with
  | Some (gk, sk) =>
      rect hs ws (gdal_WQ_data gk) ∧ rect dx dy (gdalgeo_WQ_data gk) ∧
      for_each (λ i si, r ← masked !! i; consume i r si) (seq 0 k) s = Some sk ∧
      ∀ k' wq, k = S k' → stack !! k' = Some wq →
               gk = Gdal wq (ReprojectImage wq (all_nan dx dy))
  | None =>
      for_each (λ i si, r ← masked !! i; consume i r si) (seq 0 k) s = None
  end.
Proof.
  intros Hsrc Hdst Hstack Hmasked. induction k as [|k IH]; intros Hk.
  { simpl. split_and!; [done..|]. intros k' wq [=]. }
  rewrite date_loop_S, seq_S, for_each_snoc. simpl.
  destruct (date_loop ReprojectImage consume land dx dy stack k g s)
    as [[gk sk]|]; [|by rewrite IH by lia].
  destruct IH as (Hsrck & Hdstk & -> & _); [lia|]. simpl.
  destruct (lookup_lt_is_Some_2 stack k) as [wq Hwq]; [lia|].
  assert (rect hs ws wq) as Hrect.
  { rewrite Forall_lookup in Hstack. by apply (Hstack k). }
  destruct (reproject_and_mask_fresh wq gk)
    as (_ & WQ_array & Hmask & Hbody); [done..|].
  destruct (Forall2_lookup_l _ _ _ _ _ Hmasked Hwq) as (r & Hr & Hm).
  rewrite Hmask in Hm. injection Hm as <-.
  rewrite Hwq, Hr. simpl. rewrite Hbody. simpl.
  destruct (consume k WQ_array sk) as [s'|]; simpl; [|done].
  split_and!; [done| |done|].
  - apply ReprojectImage_shape, all_nan_rect.
  - intros k' wq' [= <-] Hwq'. rewrite Hwq in Hwq'. by injection Hwq' as <-.
Qed.

(** C8: the destination band is blank each time the resampler is
    called. Whatever the two datasets hold before the loop and
    whatever its earlier iterations wrote, running the loop over the
    first [k] dates is the same as handing the consumer, date after
    date, the masking of the resampling of that date over an
    all-missing destination; after each iteration the destination
    holds that resampling; and a pixel the resampler leaves as it
    found it is missing in the raster of the date. *)
Theorem destination_reset k g s :
  rect hs ws (gdal_WQ_data g) → rect dx dy (gdalgeo_WQ_data g) →
  Forall (rect hs ws) stack →
  k ≤ length stack →
  ∃ masked,
    Forall2 (λ wq r, mask_out land (ReprojectImage wq (all_nan dx dy)) = Some r)
            stack masked ∧
    snd <$> date_loop ReprojectImage consume land dx dy stack k g s
    = for_each (λ i si, r ← masked !! i; consume i r si) (seq 0 k) s ∧
    (∀ k' gk sk wq,
       k = S k' →
       date_loop ReprojectImage consume land dx dy stack k g s = Some (gk, sk) →
       stack !! k' = Some wq →
       gk = Gdal wq (ReprojectImage wq (all_nan dx dy))) ∧
    (∀ d wq r i j,
       stack !! d = Some wq → masked !! d = Some r →
       i < dx → j < dy →
       pix (ReprojectImage wq (all_nan dx dy)) i j = pix (all_nan dx dy) i j →
       pix r i j = Some None).
Proof.
  intros Hsrc Hdst Hstack Hk.
  destruct fresh_exists as [masked Hmasked]. exists masked.
  pose proof (date_loop_fresh masked k g s Hsrc Hdst Hstack Hmasked Hk) as Hloop.
  split_and!; [done| | |].
  - destruct (date_loop ReprojectImage consume land dx dy stack k g s)
      as [[gk sk]|]; simpl; [|done].
    by destruct Hloop as (_ & _ & -> & _).
  - intros k' gk sk wq Hk' Hrun Hwq. rewrite Hrun in Hloop.
    destruct Hloop as (_ & _ & _ & Hlast). by apply (Hlast k').
  - intros d wq r i j Hwq Hr Hi Hj Hsame.
    destruct (Forall2_lookup_l _ _ _ _ _ Hmasked Hwq) as (r' & Hr' & Hm).
    rewrite Hr in Hr'. injection Hr' as <-.
    rewrite (pix_mask_out _ _ _ _ _ Hm), Hsame.
    destruct (pix_is_Some dx dy land i j) as [b ->]; [done..|].
    unfold all_nan. rewrite pix_replicate, decide_True by done. simpl.
    by destruct b.
Qed.

End loop_facts.

Section consumer_facts.
Context {V : Type}.
Variables nanmin nanmax nanmean nanmedian : raster V → pixel V.

(** The consumers of the two notebooks do not raise on the dates of the
    stack, so the loop facts hold for the loop of 07b and of 07d. *)
Lemma consume_07b_total land thr save_basedir lake_str (dates : list string)
    i (a : raster V) o :
  i < length dates →
  is_Some (consume_07b nanmin nanmax nanmean nanmedian land thr
                       save_basedir lake_str dates i a o).
Proof.
  intros [date Hdate]%lookup_lt_is_Some_2. unfold consume_07b.
  destruct (keep_07b land a thr); [|done]. rewrite Hdate. done.
Qed.

Lemma consume_07d_total land thr i (a : raster V) e :
  is_Some (consume_07d nanmin nanmax nanmean nanmedian land thr i a e).
Proof. unfold consume_07d. by destruct (keep_07d land a thr). Qed.

(** 07b writes the two files of a date exactly when the date passes
    its test. *)
Lemma consume_07b_keep land thr save_basedir lake_str (dates : list string)
    i (a : raster V) o o' :
  consume_07b nanmin nanmax nanmean nanmedian land thr
              save_basedir lake_str dates i a o = Some o' →
  if keep_07b land a thr
  then length (files_07b o') = length (files_07b o) + 2 ∧
       length (contents_json_list o') = length (contents_json_list o) + 1
  else o' = o.
Proof.
  unfold consume_07b. destruct (keep_07b land a thr); [|by intros [= <-]].
  destruct (dates !! i) as [date|]; [|done]. simpl. intros [= <-]. simpl.
  rewrite !length_app. done.
Qed.
End consumer_facts.

Section per_date_facts.
Context {V : Type}.
Variable ReprojectImage : raster V → raster V → raster V.
Variables nanmin nanmax nanmean nanmedian : raster V → pixel V.
Variables (land : mask) (dx dy hs ws : nat).

Hypothesis ReprojectImage_shape :
  ∀ src dst, rect dx dy dst → rect dx dy (ReprojectImage src dst).
Hypothesis land_shape : rect dx dy land.

(** Per-date mode has no guard: the manifest is written even when no
    date was retained. *)
Lemma per_date_export_manifest (thr : Q) (save_basedir lake_str : string)
    (dates : list string) (stack : list (raster V)) g :
  rect hs ws (gdal_WQ_data g) → rect dx dy (gdalgeo_WQ_data g) →
  Forall (rect hs ws) stack →
  length stack = length dates →
  ∃ fs records,
    per_date_export ReprojectImage nanmin nanmax nanmean nanmedian land dx dy
                    thr save_basedir lake_str dates stack g
    = Some (fs ++ [((save_basedir +:+ lake_str +:+ "/contents.json")%string,
                    Contents records)]).
Proof.
  intros Hsrc Hdst Hstack Hlen.
  destruct (date_loop_shapes ReprojectImage
              (consume_07b nanmin nanmax nanmean nanmedian land thr
                           save_basedir lake_str dates)
              land dx dy hs ws stack ReprojectImage_shape) with
    (k := length dates) (g := g) (s := Out07b (V:=V) [] [])
    as (gk & sk & Hloop & _); [|done..|lia|].
  { intros i a o Hi. apply consume_07b_total. lia. }
  unfold per_date_export. rewrite Hloop. simpl. eauto.
Qed.
End per_date_facts.

Section export_facts.
Context {V : Type}.
Variable ReprojectImage : raster V → raster V → raster V.
Variables nanmin nanmax nanmean nanmedian : raster V → pixel V.
Variables (land : mask) (dx dy hs ws : nat).

Hypothesis ReprojectImage_shape :
  ∀ src dst, rect dx dy dst → rect dx dy (ReprojectImage src dst).
Hypothesis land_shape : rect dx dy land.




End export_facts.

Section threshold_facts.
Context {V : Type}.

Lemma pix_land_mask_init (WOFS_array : list (list Q)) (thr : Q) i j :
  pix (land_mask_init WOFS_array thr) i j
  = (λ v, Qle_bool v thr) <$> pix WOFS_array i j.
Proof.
  unfold pix, land_mask_init. rewrite list_lookup_fmap.
  destruct (WOFS_array !! i) as [row|]; [|done]. simpl.
  by rewrite list_lookup_fmap.
Qed.

(** C10: a pixel is initially land exactly when its water occurrence is
    at most the threshold, so an occurrence equal to the threshold is
    land; such a pixel stays land after the expansion by a buffer that
    is not negative, and is missing in every masked raster. *)
Theorem threshold_is_land (WOFS_array : list (list Q))
    (water_mask_thr water_mask_buffer : Q) i j (v : Q) :
  pix WOFS_array i j = Some v →
  (pix (land_mask_init WOFS_array water_mask_thr) i j = Some true ↔
   (v <= water_mask_thr)%Q) ∧
  ((v == water_mask_thr)%Q →
   pix (land_mask_init WOFS_array water_mask_thr) i j = Some true) ∧
  ((0 <= water_mask_buffer)%Q → (v <= water_mask_thr)%Q →
   ∃ lm,
     land_mask WOFS_array water_mask_thr water_mask_buffer = Some lm ∧
     pix lm i j = Some true ∧
     ∀ a r : raster V, mask_out lm a = Some r → pix r i j = Some None).
Proof.
  intros Hv.
  assert (pix (land_mask_init WOFS_array water_mask_thr) i j = Some true ↔
          (v <= water_mask_thr)%Q) as Hinit.
  { rewrite pix_land_mask_init, Hv. simpl. rewrite <-Qle_bool_iff.
    split; [by intros [=]|by intros ->]. }
  split_and!; [done| |].
  - intros Heq. apply Hinit. rewrite Heq. apply Qle_refl.
  - intros Hbuf Hle. unfold land_mask.
    destruct (expand_mask_spec (land_mask_init WOFS_array water_mask_thr)
                water_mask_buffer Hbuf) as (lm & Hlm & Hshape & Hspec).
    apply Hinit in Hle.
    assert (pix lm i j = Some true) as Hland.
    { apply Hspec. split; [by rewrite Hle|]. exists i, j. split; [done|].
      unfold dist2. simpl. rewrite !Z.sub_diag. simpl.
      apply Qle_trans with (y := 0%Q); [apply Qle_refl|]. nra. }
    exists lm. split_and!; [done..|].
    intros a r Hmask. rewrite (pix_mask_out _ _ _ _ _ Hmask), Hland. simpl.
    assert (is_Some (pix a i j)) as [p ->]; [|done].
    unfold mask_out in Hmask. case_decide as Hs; [|done].
    apply (same_shape_pix _ _ i j Hs). by rewrite Hland.
Qed.
End threshold_facts.

Lemma paste_rect {A} (f : nat → nat → A → A) h w (a : list (list A)) :
  rect h w a → rect h w (imap (λ i row, imap (f i) row) a).
Proof.
  intros [Hh Hw]. split; [by rewrite length_imap|].
  rewrite Forall_lookup in Hw. apply Forall_lookup. intros i row.
  rewrite list_lookup_imap. destruct (a !! i) as [row'|] eqn:Hrow; [|done].
  simpl. intros [= <-]. rewrite length_imap. eauto.
Qed.

Lemma destination_reset_witness :
  ∃ masked,
    Forall2 (λ (wq r : raster Z),
               mask_out [[false; false]] (set2 0 0 (pix wq 0 0 ≫= id) (all_nan 1 2))
               = Some r)
            [[[Some 1%Z; Some 2%Z]]; [[None; Some 4%Z]]] masked ∧
    snd <$> date_loop (λ src dst : raster Z, set2 0 0 (pix src 0 0 ≫= id) dst)
                      (λ _ a (s : list (raster Z)), Some (s ++ [a]))
                      [[false; false]] 1 2
                      [[[Some 1%Z; Some 2%Z]]; [[None; Some 4%Z]]] 2
                      (Gdal [[None; None]] [[Some 7%Z; Some 8%Z]]) []
    = Some masked.
Proof.
  destruct (destination_reset
              (λ src dst : raster Z, set2 0 0 (pix src 0 0 ≫= id) dst)
              (λ _ a (s : list (raster Z)), Some (s ++ [a]))
              [[false; false]] 1 2 1 2
              [[[Some 1%Z; Some 2%Z]]; [[None; Some 4%Z]]]
              (λ src dst H, set2_rect 1 2 dst 0 0 _ H)
              (conj eq_refl (Forall_cons_2 (λ row : list bool, length row = 2)
                               [false; false] [] eq_refl (Forall_nil_2 _)))
              2 (Gdal [[None; None]] [[Some 7%Z; Some 8%Z]]) [])
    as (masked & Hmasked & Hrun & _).
  - split; [reflexivity|]. repeat constructor.
  - split; [reflexivity|]. repeat constructor.
  - repeat constructor.
  - reflexivity.
  - exists masked. split; [exact Hmasked|]. rewrite Hrun.
    apply Forall2_cons_inv_l in Hmasked as (r0 & m1 & H0 & Hrest & ->).
    apply Forall2_cons_inv_l in Hrest as (r1 & m2 & H1 & Hnil & ->).
    apply Forall2_nil_inv_l in Hnil as ->.
    injection H0 as <-. injection H1 as <-. reflexivity.
Defined.


Lemma threshold_is_land_witness :
  pix (land_mask_init [[90%Q; 95%Q]; [99%Q; 100%Q]] 90) 0 0 = Some true ∧
  ∃ lm,
    land_mask [[90%Q; 95%Q]; [99%Q; 100%Q]] 90 0 = Some lm ∧
    pix lm 0 0 = Some true ∧
    ∀ a r : raster Z, mask_out lm a = Some r → pix r 0 0 = Some None.
Proof.
  destruct (threshold_is_land (V:=Z) [[90%Q; 95%Q]; [99%Q; 100%Q]] 90 0 0 0 90 eq_refl)
    as (_ & Heq & Hland).
  split.
  - apply Heq. reflexivity.
  - apply Hland; vm_compute; discriminate.
Defined.

(** Without a water pixel there is no fraction: the test of 07b fails
    (the quotient is NaN) and that of 07d holds (zero reaches a
    threshold of zero pixels). *)
Example keep_no_water :
  keep_07b [[true]] [[@None Z]] 10 = false ∧
  keep_07d [[true]] [[@None Z]] 10 = true.
Proof. split; reflexivity. Qed.

(** ** More on the duplicate-date removal *)

Import Dates.

Section more_raster_facts.
Context {V : Type}.
Implicit Types (r e l b o : raster V).

Lemma fill_nans_rect h w b o :
  rect h w b → rect h w o → rect h w (fill_nans b o).
Proof.
  intros [Hb Hrb] [Ho Hro]. unfold fill_nans. split.
  - rewrite length_zip_with. lia.
  - rewrite Forall_lookup in Hrb. rewrite Forall_lookup in Hro.
    apply Forall_lookup. intros i row.
    rewrite lookup_zip_with.
    destruct (b !! i) as [rb|] eqn:Hrb'; [|done].
    destruct (o !! i) as [ro|] eqn:Hro'; [|done]. simpl. intros [= <-].
    rewrite length_zip_with, (Hrb i rb), (Hro i ro) by done. lia.
Qed.

Lemma pix_fill_nans_inv b o i j x :
  pix (fill_nans b o) i j = Some x →
  ∃ pb po, pix b i j = Some pb ∧ pix o i j = Some po ∧
           x = if isnan pb then po else pb.
Proof.
  unfold pix, fill_nans. rewrite lookup_zip_with.
  destruct (b !! i) as [rb|]; [|done].
  destruct (o !! i) as [ro|]; [|done]. simpl.
  rewrite lookup_zip_with.
  destruct (rb !! j) as [pb|]; [|done].
  destruct (ro !! j) as [po|]; [|done]. simpl. intros [= <-]. eauto.
Qed.

Lemma nan_count_zip_row (rb ro : list (pixel V)) :
  length (filter (λ p, isnan p = true)
                 (zip_with (λ pb po, if isnan pb then po else pb) rb ro))
  ≤ length (filter (λ p, isnan p = true) rb) ∧
  length (filter (λ p, isnan p = true)
                 (zip_with (λ pb po, if isnan pb then po else pb) rb ro))
  ≤ length (filter (λ p, isnan p = true) ro).
Proof.
  revert ro. induction rb as [|pb rb IH]; intros [|po ro]; simpl;
    rewrite ?filter_nil; simpl; try lia.
  destruct (IH ro) as [IH1 IH2]. rewrite !filter_cons.
  destruct pb as [vb|], po as [vo|]; simpl;
    repeat (case_decide; try done); simpl; lia.
Qed.

Lemma n_nans_fill_le b o :
  n_nans (fill_nans b o) ≤ n_nans b ∧ n_nans (fill_nans b o) ≤ n_nans o.
Proof.
  unfold n_nans, fill_nans. revert o.
  induction b as [|rb b IH]; intros [|ro o]; simpl; try lia.
  destruct (IH o) as [IH1 IH2]. destruct (nan_count_zip_row rb ro). lia.
Qed.

Lemma n_nans_resolve_le e l :
  n_nans (resolve e l) ≤ n_nans e ∧ n_nans (resolve e l) ≤ n_nans l.
Proof.
  unfold resolve.
  destruct (n_nans l =? 0) eqn:Hl; [apply Nat.eqb_eq in Hl; lia|].
  destruct (n_nans e =? 0) eqn:He; [apply Nat.eqb_eq in He; lia|].
  destruct (n_nans l <=? n_nans e).
  - destruct (n_nans_fill_le l e). lia.
  - apply n_nans_fill_le.
Qed.

Lemma resolve_rect h w e l :
  rect h w e → rect h w l → rect h w (resolve e l).
Proof.
  intros He Hl. unfold resolve.
  repeat (match goal with |- context [if ?c then _ else _] => destruct c end);
    auto using fill_nans_rect.
Qed.

Lemma fully_valid_pix r i j p :
  fully_valid r → pix r i j = Some p → is_Some p.
Proof.
  unfold fully_valid, pix. intros Hr.
  destruct (r !! i) as [row|] eqn:Hrow; [|done]. simpl. intros Hp.
  rewrite Forall_lookup in Hr. specialize (Hr i row Hrow).
  rewrite Forall_lookup in Hr. by apply (Hr j).
Qed.

(** A pixel that holds a number in either raster holds one in the
    raster the rule keeps. *)
Lemma resolve_covers h w e l i j v :
  rect h w e → rect h w l →
  pix e i j = Some (Some v) ∨ pix l i j = Some (Some v) →
  ∃ v', pix (resolve e l) i j = Some (Some v').
Proof.
  intros He Hl Hv.
  assert (i < h ∧ j < w) as [Hi Hj].
  { destruct Hv as [Hv|Hv];
      [exact (pix_Some_lt h w e i j _ He Hv)|exact (pix_Some_lt h w l i j _ Hl Hv)]. }
  destruct (pix_is_Some h w e i j He Hi Hj) as [pe Hpe].
  destruct (pix_is_Some h w l i j Hl Hi Hj) as [pl Hpl].
  unfold resolve.
  destruct (n_nans l =? 0) eqn:Hzl.
  { apply Nat.eqb_eq, n_nans_0 in Hzl.
    destruct (fully_valid_pix l i j pl Hzl Hpl) as [v' ->]. eauto. }
  destruct (n_nans e =? 0) eqn:Hze.
  { apply Nat.eqb_eq, n_nans_0 in Hze.
    destruct (fully_valid_pix e i j pe Hze Hpe) as [v' ->]. eauto. }
  destruct (n_nans l <=? n_nans e).
  - rewrite (pix_fill_nans l e i j pl pe) by done.
    destruct pl as [vl|]; simpl; [eauto|].
    destruct Hv as [Hv|Hv]; [|congruence]. rewrite Hpe in Hv. eauto.
  - rewrite (pix_fill_nans e l i j pe pl) by done.
    destruct pe as [ve|]; simpl; [eauto|].
    destruct Hv as [Hv|Hv]; [congruence|]. rewrite Hpl in Hv. eauto.
Qed.

(** The rule invents no value. *)
Lemma resolve_from_inputs e l i j v :
  pix (resolve e l) i j = Some (Some v) →
  pix e i j = Some (Some v) ∨ pix l i j = Some (Some v).
Proof.
  unfold resolve.
  destruct (n_nans l =? 0); [by right|].
  destruct (n_nans e =? 0); [by left|].
  destruct (n_nans l <=? n_nans e);
    intros (pb & po & Hb & Ho & Hx)%pix_fill_nans_inv;
    destruct pb; simplify_eq/=; auto.
Qed.
End more_raster_facts.

Section scan_facts.
Context {V : Type}.
Implicit Types (dates : list string) (arr : list (raster V)).
Implicit Types (out : list (string * raster V)).

Lemma first_seen_snoc dates d :
  first_seen (dates ++ [d])
  = if decide (d ∈ first_seen dates) then first_seen dates
    else first_seen dates ++ [d].
Proof. unfold first_seen. by rewrite foldl_snoc. Qed.

Lemma dedup_spec_first_seen rule (l : list (string * raster V)) :
  (dedup_spec rule l).*1 = first_seen l.*1.
Proof.
  induction l as [|[d r] l IH] using rev_ind; [done|].
  rewrite dedup_spec_snoc, merge_into_fst, fmap_app. simpl.
  by rewrite first_seen_snoc, IH.
Qed.

Lemma first_seen_elem_of dates d : d ∈ first_seen dates ↔ d ∈ dates.
Proof.
  induction dates as [|d' dates IH] using rev_ind.
  - done.
  - rewrite first_seen_snoc, elem_of_app, list_elem_of_singleton.
    case_decide as Hd; rewrite ?elem_of_app, ?list_elem_of_singleton, IH.
    + split; [auto|]. intros [? | ->]; [done|]. by apply IH.
    + done.
Qed.

Lemma first_seen_sublist dates : first_seen dates `sublist_of` dates.
Proof.
  induction dates as [|d dates IH] using rev_ind.
  - constructor.
  - rewrite first_seen_snoc. case_decide.
    + by apply sublist_inserts_r.
    + by apply sublist_app.
Qed.

Lemma fst_elem_split out d :
  d ∈ out.*1 →
  ∃ out1 e out2, out = out1 ++ (d, e) :: out2 ∧ d ∉ out1.*1.
Proof.
  induction out as [|[d' r'] out IH]; simpl; [by intros ?%elem_of_nil|].
  destruct (decide (d' = d)) as [->|Hne].
  - intros _. exists [], r', out. split; [done|]. apply not_elem_of_nil.
  - intros [?|Hin]%elem_of_cons; [congruence|].
    destruct (IH Hin) as (out1 & e & out2 & -> & Hnin).
    exists ((d', r') :: out1), e, out2. split; [done|].
    simpl. rewrite not_elem_of_cons. auto.
Qed.

(** Every input raster is dominated by the output raster of its date,
    for any relation that the rule extends. *)
Lemma dedup_spec_covers (good : raster V → Prop)
    (P : raster V → raster V → Prop) (l : list (string * raster V)) :
  (∀ r, good r → P r r) →
  (∀ e x, good e → good x →
          good (resolve e x) ∧ P (resolve e x) x ∧
          ∀ r, P e r → P (resolve e x) r) →
  Forall (λ e, good e.2) l →
  Forall (λ e, good e.2) (dedup_spec resolve l) ∧
  ∀ d r, (d, r) ∈ l → ∃ r', (d, r') ∈ dedup_spec resolve l ∧ P r' r.
Proof.
  intros Hrefl Hres. induction l as [|[d0 r0] l IH] using rev_ind.
  - intros _. split; [constructor|]. by intros d r ?%elem_of_nil.
  - rewrite Forall_app, Forall_singleton. simpl. intros [Hl Hr0].
    destruct (IH Hl) as [Hgood Hcov]. clear IH.
    rewrite dedup_spec_snoc.
    destruct (decide (d0 ∈ (dedup_spec resolve l).*1)) as [Hin|Hnin].
    + destruct (fst_elem_split _ _ Hin) as (out1 & e & out2 & Hout & Hfresh).
      rewrite Hout, merge_into_seen by done.
      rewrite Hout in Hgood.
      apply Forall_app in Hgood as [Hg1 [He Hg2]%Forall_cons]. simpl in He.
      destruct (Hres e r0 He Hr0) as (Hge & Pnew & Pold).
      split.
      { apply Forall_app. split; [done|]. by apply Forall_cons. }
      intros d r [Hdr|Hdr%list_elem_of_singleton]%elem_of_app.
      * destruct (Hcov d r Hdr) as (r' & Hr' & HP). rewrite Hout in Hr'.
        apply elem_of_app in Hr' as [Hr'|[Hr'|Hr']%elem_of_cons].
        -- exists r'. split; [|done]. apply elem_of_app. by left.
        -- injection Hr' as -> ->. exists (resolve e r0). split; [|by apply Pold].
           apply elem_of_app. right. apply elem_of_cons. by left.
        -- exists r'. split; [|done]. apply elem_of_app. right.
           apply elem_of_cons. by right.
      * injection Hdr as -> ->. exists (resolve e r0). split; [|done].
        apply elem_of_app. right. apply elem_of_cons. by left.
    + rewrite merge_into_fresh by done. split.
      { apply Forall_app. split; [done|]. by apply Forall_singleton. }
      intros d r [Hdr|Hdr%list_elem_of_singleton]%elem_of_app.
      * destruct (Hcov d r Hdr) as (r' & Hr' & HP). exists r'.
        split; [|done]. apply elem_of_app. by left.
      * injection Hdr as -> ->. exists r0. split; [|by apply Hrefl].
        apply elem_of_app. right. by apply list_elem_of_singleton.
Qed.

(** Every value of an output raster is the value of an input raster
    of the same date at the same pixel. *)
Lemma dedup_spec_from_inputs (l : list (string * raster V)) d r' i j v :
  (d, r') ∈ dedup_spec resolve l →
  pix r' i j = Some (Some v) →
  ∃ r, (d, r) ∈ l ∧ pix r i j = Some (Some v).
Proof.
  revert r'. induction l as [|[d0 r0] l IH] using rev_ind; intros r'.
  - by intros ?%elem_of_nil.
  - rewrite dedup_spec_snoc.
    assert (∀ r, (d, r) ∈ dedup_spec resolve l →
                 pix r i j = Some (Some v) →
                 ∃ r1, (d, r1) ∈ l ++ [(d0, r0)] ∧ pix r1 i j = Some (Some v))
      as Hold.
    { intros r Hr Hv. destruct (IH r Hr Hv) as (r1 & Hr1 & Hv1).
      exists r1. split; [|done]. apply elem_of_app. by left. }
    assert ((d0, r0) ∈ l ++ [(d0, r0)]) as Hlast.
    { apply elem_of_app. right. by apply list_elem_of_singleton. }
    destruct (decide (d0 ∈ (dedup_spec resolve l).*1)) as [Hin|Hnin].
    + destruct (fst_elem_split _ _ Hin) as (out1 & e & out2 & Hout & Hfresh).
      rewrite Hout, merge_into_seen by done. rewrite Hout in Hold.
      intros [Hr'|[Hr'|Hr']%elem_of_cons]%elem_of_app Hv.
      * apply (Hold r'); [|done]. apply elem_of_app. by left.
      * injection Hr' as -> ->.
        destruct (resolve_from_inputs e r0 i j v Hv) as [He|H0].
        -- apply (Hold e); [|done]. apply elem_of_app. right.
           apply elem_of_cons. by left.
        -- by exists r0.
      * apply (Hold r'); [|done]. apply elem_of_app. right.
        apply elem_of_cons. by right.
    + rewrite merge_into_fresh by done.
      intros [Hr'|Hr'%list_elem_of_singleton]%elem_of_app Hv.
      * by apply (Hold r').
      * injection Hr' as -> ->. by exists r0.
Qed.

Lemma dedup_spec_same_date rule d (r : raster V) (rs : list (raster V)) :
  dedup_spec rule ((d, r) :: ((λ x, (d, x)) <$> rs)) = [(d, foldl rule r rs)].
Proof.
  unfold dedup_spec. simpl. revert r.
  induction rs as [|x rs IH]; intros r; simpl; [done|].
  rewrite decide_True by done. apply IH.
Qed.
End scan_facts.

Section dedup_extras.
Context {V : Type}.
Implicit Types (dates : list string) (arr : list (raster V)).

Lemma Forall_zip_snd {A B} (P : B → Prop) (l : list A) (k : list B) :
  Forall P k → Forall (λ e, P e.2) (zip l k).
Proof.
  intros Hk. apply Forall_forall. intros [x y] Hxy. simpl.
  rewrite Forall_forall in Hk. apply Hk. by eapply elem_of_zip_r.
Qed.

(** X1: the cell keeps one entry per distinct date, in the order in
    which the dates first occur. *)
Theorem dedup_first_seen dates arr :
  length arr = length dates →
  ∃ arr',
    dedup dates arr = Some (first_seen dates, arr') ∧
    length arr' = length (first_seen dates) ∧
    NoDup (first_seen dates) ∧
    (∀ d, d ∈ first_seen dates ↔ d ∈ dates) ∧
    first_seen dates `sublist_of` dates.
Proof.
  intros Hlen. rewrite dedup_refines by done.
  pose proof (dedup_spec_first_seen resolve (zip dates arr)) as Hfs.
  rewrite fst_zip in Hfs by lia.
  eexists. split; [by rewrite Hfs|].
  split_and!.
  - by rewrite <-Hfs, !length_fmap.
  - rewrite <-Hfs. apply dedup_spec_NoDup.
  - apply first_seen_elem_of.
  - apply first_seen_sublist.
Qed.

(** X2: on a stack without repeated dates the cell changes nothing. *)
Theorem dedup_no_duplicates_id dates arr :
  length arr = length dates →
  NoDup dates →
  dedup dates arr = Some (dates, arr).
Proof.
  intros Hlen Hnd. rewrite dedup_refines by done.
  rewrite dedup_spec_NoDup_id by (by rewrite fst_zip by lia).
  by rewrite fst_zip, snd_zip by lia.
Qed.

(** X3: the rasters the cell returns have the shape of the input
    rasters. *)
Theorem dedup_keeps_shape h w dates arr :
  length arr = length dates →
  Forall (rect h w) arr →
  ∃ dates' arr',
    dedup dates arr = Some (dates', arr') ∧ Forall (rect h w) arr'.
Proof.
  intros Hlen Hshape. rewrite dedup_refines by done.
  eexists _, _. split; [done|].
  destruct (dedup_spec_covers (rect h w) (λ _ _, True) (zip dates arr))
    as [Hgood _]; [done| |by apply Forall_zip_snd|].
  - intros e x He Hx. split_and!; [by apply resolve_rect|done..].
  - by apply Forall_fmap.
Qed.

(** X4: no observation is lost: a pixel that holds a number in some
    input raster of a date holds a number in the raster returned for
    that date. *)
Theorem dedup_keeps_coverage h w dates arr dates' arr' d r i j v :
  length arr = length dates →
  Forall (rect h w) arr →
  dedup dates arr = Some (dates', arr') →
  (d, r) ∈ zip dates arr →
  pix r i j = Some (Some v) →
  ∃ r' v', (d, r') ∈ zip dates' arr' ∧ pix r' i j = Some (Some v').
Proof.
  intros Hlen Hshape. rewrite dedup_refines by done. intros [= <- <-] Hin Hv.
  rewrite zip_fst_snd.
  destruct (dedup_spec_covers (rect h w)
              (λ r' r, ∀ v, pix r i j = Some (Some v) →
                            ∃ v', pix r' i j = Some (Some v'))
              (zip dates arr))
    as [_ Hcov]; [by eauto| |by apply Forall_zip_snd|].
  - intros e x He Hx. split_and!; [by apply resolve_rect|..].
    + intros v0 Hv0. apply (resolve_covers h w e x i j v0); auto.
    + intros r0 Hr0 v0 Hv0. destruct (Hr0 v0 Hv0) as [v1 Hv1].
      apply (resolve_covers h w e x i j v1); auto.
  - destruct (Hcov d r Hin) as (r' & Hr' & HP).
    destruct (HP v Hv) as [v' Hv']. eauto.
Qed.

(** X5: no value is invented: every number in a returned raster is the
    number some input raster of the same date holds at that pixel. *)
Theorem dedup_values_from_inputs dates arr dates' arr' d r' i j v :
  length arr = length dates →
  dedup dates arr = Some (dates', arr') →
  (d, r') ∈ zip dates' arr' →
  pix r' i j = Some (Some v) →
  ∃ r, (d, r) ∈ zip dates arr ∧ pix r i j = Some (Some v).
Proof.
  intros Hlen. rewrite dedup_refines by done. intros [= <- <-].
  rewrite zip_fst_snd. apply dedup_spec_from_inputs.
Qed.

(** X6: when every entry carries the same date, the single raster
    returned is the left fold of the four-way rule over the stack: each
    repeat is resolved against the running result at the first
    position, never against another repeat. *)
Theorem dedup_same_date_fold (d : string) (r : raster V) (rs : list (raster V)) :
  dedup (replicate (S (length rs)) d) (r :: rs)
  = Some ([d], [foldl resolve r rs]).
Proof.
  rewrite dedup_refines by (simpl; by rewrite length_replicate).
  assert (zip (replicate (S (length rs)) d) (r :: rs)
          = (d, r) :: ((λ x, (d, x)) <$> rs)) as ->.
  { simpl. f_equal. induction rs as [|x rs IH]; simpl; [done|]. by rewrite IH. }
  by rewrite dedup_spec_same_date.
Qed.

(** X7: the raster returned for a date has no more missing pixels than
    any input raster of that date. *)
Theorem dedup_fewest_missing dates arr dates' arr' d r :
  length arr = length dates →
  dedup dates arr = Some (dates', arr') →
  (d, r) ∈ zip dates arr →
  ∃ r', (d, r') ∈ zip dates' arr' ∧ n_nans r' ≤ n_nans r.
Proof.
  intros Hlen. rewrite dedup_refines by done. intros [= <- <-] Hin.
  rewrite zip_fst_snd.
  destruct (dedup_spec_covers (λ _, True) (λ r' r, n_nans r' ≤ n_nans r)
              (zip dates arr))
    as [_ Hcov]; [by auto| |by apply Forall_true|by apply Hcov].
  intros e x _ _. destruct (n_nans_resolve_le e x).
  split_and!; [done|done|]. intros r0 Hr0. lia.
Qed.
End dedup_extras.

Lemma dedup_first_seen_witness :
  ∃ arr',
    dedup ["2013-05-17"; "2013-05-01"; "2013-05-17"]%string
          [[[Some 1%Z; None]]; [[Some 7%Z; Some 8%Z]]; [[None; Some 2%Z]]]
    = Some (["2013-05-17"; "2013-05-01"]%string, arr') ∧
    length arr' = 2.
Proof.
  destruct (dedup_first_seen
              ["2013-05-17"; "2013-05-01"; "2013-05-17"]%string
              [[[Some 1%Z; None]]; [[Some 7%Z; Some 8%Z]]; [[None; Some 2%Z]]]
              eq_refl) as (arr' & Hd & Hlen & _).
  exists arr'. split; [exact Hd|exact Hlen].
Defined.

Lemma dedup_no_duplicates_id_witness :
  dedup ["2013-05-01"; "2013-05-17"]%string
        [[[Some 1%Z; None]]; [[None; None]]]
  = Some (["2013-05-01"; "2013-05-17"]%string,
          [[[Some 1%Z; None]]; [[None; None]]]).
Proof.
  apply (dedup_no_duplicates_id
           ["2013-05-01"; "2013-05-17"]%string
           [[[Some 1%Z; None]]; [[None; None]]] eq_refl).
  apply (bool_decide_unpack _). vm_compute. exact I.
Defined.

Lemma dedup_keeps_shape_witness :
  ∃ dates' arr',
    dedup ["2013-05-01"; "2013-05-01"]%string
          [[[Some 1%Z; None]]; [[None; Some 2%Z]]] = Some (dates', arr') ∧
    Forall (rect 1 2) arr'.
Proof.
  apply (dedup_keeps_shape 1 2 ["2013-05-01"; "2013-05-01"]%string
           [[[Some 1%Z; None]]; [[None; Some 2%Z]]] eq_refl).
  repeat constructor.
Defined.

Lemma dedup_keeps_coverage_witness :
  ∃ r' v',
    ("2013-05-01"%string, r')
      ∈ zip ["2013-05-01"%string] [[[Some 1%Z; Some 2%Z]]] ∧
    pix r' 0 1 = Some (Some v').
Proof.
  apply (dedup_keeps_coverage 1 2 ["2013-05-01"; "2013-05-01"]%string
           [[[Some 1%Z; None]]; [[None; Some 2%Z]]]
           ["2013-05-01"%string] [[[Some 1%Z; Some 2%Z]]]
           "2013-05-01"%string [[None; Some 2%Z]] 0 1 2%Z eq_refl).
  - repeat constructor.
  - vm_compute. reflexivity.
  - apply elem_of_cons. right. apply elem_of_cons. by left.
  - reflexivity.
Defined.

Lemma dedup_values_from_inputs_witness :
  ∃ r,
    ("2013-05-01"%string, r)
      ∈ zip ["2013-05-01"; "2013-05-01"]%string
            [[[Some 1%Z; None]]; [[None; Some 2%Z]]] ∧
    pix r 0 1 = Some (Some 2%Z).
Proof.
  apply (dedup_values_from_inputs ["2013-05-01"; "2013-05-01"]%string
           [[[Some 1%Z; None]]; [[None; Some 2%Z]]]
           ["2013-05-01"%string] [[[Some 1%Z; Some 2%Z]]]
           "2013-05-01"%string [[Some 1%Z; Some 2%Z]] 0 1 2%Z eq_refl).
  - vm_compute. reflexivity.
  - apply elem_of_cons. by left.
  - reflexivity.
Defined.

Lemma dedup_fewest_missing_witness :
  ∃ r',
    ("2013-05-01"%string, r')
      ∈ zip ["2013-05-01"%string] [[[Some 1%Z; Some 2%Z]]] ∧
    n_nans r' ≤ n_nans [[@None Z; Some 2%Z]].
Proof.
  apply (dedup_fewest_missing ["2013-05-01"; "2013-05-01"]%string
           [[[Some 1%Z; None]]; [[None; Some 2%Z]]]
           ["2013-05-01"%string] [[[Some 1%Z; Some 2%Z]]]
           "2013-05-01"%string [[None; Some 2%Z]] eq_refl).
  - vm_compute. reflexivity.
  - apply elem_of_cons. right. apply elem_of_cons. by left.
Defined.

(** ** More on the land mask and its expansion *)

Section mask_extras.

Lemma Qfloor_neg (x : Q) : (Qfloor x < 0)%Z ↔ (x < 0)%Q.
Proof.
  split.
  - intros Hf. eapply Qlt_le_trans; [apply (Qlt_floor x)|].
    change 0%Q with (inject_Z 0). rewrite <-Zle_Qle. lia.
  - intros Hx. apply Z.lt_nge. intros Hf.
    assert (inject_Z 0 <= inject_Z (Qfloor x))%Q as H0 by (by rewrite <-Zle_Qle).
    pose proof (Qfloor_le x) as Hle.
    apply (Qlt_irrefl 0). eapply Qle_lt_trans; [|exact Hx].
    eapply Qle_trans; [exact H0|exact Hle].
Qed.

(** Two boolean grids of one shape with the same set cells are equal. *)
Lemma mask_ext (a b : mask) :
  same_shape a b →
  (∀ i j, pix a i j = Some true ↔ pix b i j = Some true) →
  a = b.
Proof.
  intros Hs Hpix. apply list_eq. intros i.
  pose proof (Forall2_length _ _ _ Hs) as Hlen.
  destruct (a !! i) as [ra|] eqn:Ha.
  - destruct (Forall2_lookup_l _ _ _ _ _ Hs Ha) as (rb & Hb & Hrow).
    rewrite Hb. f_equal. apply list_eq. intros j.
    specialize (Hpix i j). unfold pix in Hpix. rewrite Ha, Hb in Hpix.
    simpl in Hpix.
    destruct (ra !! j) as [x|] eqn:Hx.
    + destruct (lookup_lt_is_Some_2 rb j) as [y Hy].
      { rewrite <-Hrow. by eapply lookup_lt_Some. }
      rewrite Hy in Hpix |- *. f_equal.
      destruct x, y; try done.
      * pose proof (proj1 Hpix eq_refl) as Hc. discriminate Hc.
      * pose proof (proj2 Hpix eq_refl) as Hc. discriminate Hc.
    + symmetry. apply lookup_ge_None. rewrite <-Hrow. by apply lookup_ge_None.
  - symmetry. apply lookup_ge_None. rewrite <-Hlen. by apply lookup_ge_None.
Qed.


(** X9: the expansion only adds land: every land pixel of the input is
    land in the output. *)
Theorem expand_mask_extensive (mask_arr : mask) (npix : Q) i j :
  (0 <= npix)%Q →
  pix mask_arr i j = Some true →
  ∃ out, expand_mask mask_arr npix = Some out ∧ pix out i j = Some true.
Proof.
  intros Hpos Hland.
  destruct (expand_mask_spec mask_arr npix Hpos) as (out & Hout & _ & Hspec).
  exists out. split; [done|]. apply Hspec. split; [by rewrite Hland|].
  exists i, j. split; [done|]. unfold dist2. simpl. rewrite !Z.sub_diag. simpl.
  apply Qle_trans with (y := 0%Q); [apply Qle_refl|]. nra.
Qed.

Lemma dist2_lt_1 (p q : Z * Z) (npix : Q) :
  (npix < 1)%Q → (0 <= npix)%Q →
  (inject_Z (dist2 p q) <= npix * npix)%Q → p = q.
Proof.
  intros H1 H0 Hd.
  assert (inject_Z (dist2 p q) < 1)%Q as Hlt.
  { apply Qle_lt_trans with (y := (npix * npix)%Q); [exact Hd|].
    clear Hd. nra. }
  change 1%Q with (inject_Z 1) in Hlt. rewrite <-Zlt_Qlt in Hlt. unfold dist2 in Hlt.
  destruct p as [p1 p2], q as [q1 q2]. simpl in Hlt.
  pose proof (Z.square_nonneg (p1 - q1)) as S1.
  pose proof (Z.square_nonneg (p2 - q2)) as S2.
  destruct (Z.eq_dec p1 q1) as [->|N1]; [|exfalso; nia].
  destruct (Z.eq_dec p2 q2) as [->|N2]; [done|exfalso; nia].
Qed.

(** X10: a buffer shorter than one pixel changes nothing. *)
Theorem expand_mask_below_one_pixel (mask_arr : mask) (npix : Q) :
  (0 <= npix)%Q → (npix < 1)%Q →
  expand_mask mask_arr npix = Some mask_arr.
Proof.
  intros Hpos Hlt.
  destruct (expand_mask_spec mask_arr npix Hpos) as (out & Hout & Hshape & Hspec).
  rewrite Hout. f_equal. symmetry. apply mask_ext; [done|].
  intros i j. rewrite Hspec. split.
  - intros Hland. split; [by rewrite Hland|]. exists i, j. split; [done|].
    unfold dist2. simpl. rewrite !Z.sub_diag. simpl.
    apply Qle_trans with (y := 0%Q); [apply Qle_refl|]. nra.
  - intros (_ & p & q & Hland & Hd).
    apply dist2_lt_1 in Hd; [|done..].
    injection Hd as Hi%Nat2Z.inj Hj%Nat2Z.inj. by subst.
Qed.

Lemma expand_mask_mono_mask (m m' out out' : mask) (npix : Q) :
  (0 <= npix)%Q →
  same_shape m m' →
  (∀ i j, pix m i j = Some true → pix m' i j = Some true) →
  expand_mask m npix = Some out →
  expand_mask m' npix = Some out' →
  ∀ i j, pix out i j = Some true → pix out' i j = Some true.
Proof.
  intros Hpos Hshape Hsub Hout Hout'.
  destruct (expand_mask_spec m npix Hpos) as (o & Ho & _ & Hspec).
  destruct (expand_mask_spec m' npix Hpos) as (o' & Ho' & _ & Hspec').
  rewrite Hout in Ho. injection Ho as <-.
  rewrite Hout' in Ho'. injection Ho' as <-.
  intros i j (Hin & p & q & Hland & Hd)%Hspec. apply Hspec'. split.
  - by apply (same_shape_pix m m' i j Hshape).
  - exists p, q. auto.
Qed.

(** X11: the expansion is monotonic in the mask: with more land in the
    input (same shape, same buffer) no output pixel turns from land to
    water. *)
Theorem expand_mask_monotonic_in_mask (m m' : mask) (npix : Q) :
  (0 <= npix)%Q →
  same_shape m m' →
  (∀ i j, pix m i j = Some true → pix m' i j = Some true) →
  ∃ out out',
    expand_mask m npix = Some out ∧
    expand_mask m' npix = Some out' ∧
    ∀ i j, pix out i j = Some true → pix out' i j = Some true.
Proof.
  intros Hpos Hshape Hsub.
  destruct (expand_mask_spec m npix Hpos) as (out & Hout & _).
  destruct (expand_mask_spec m' npix Hpos) as (out' & Hout' & _).
  exists out, out'. split_and!; [done..|].
  by apply (expand_mask_mono_mask m m' out out' npix).
Qed.

(** X12: the expansion creates no land from nothing: a mask without a
    land pixel is returned as it is, whatever the buffer. *)
Theorem expand_mask_all_water (mask_arr : mask) (npix : Q) :
  (0 <= npix)%Q →
  (∀ i j, pix mask_arr i j ≠ Some true) →
  expand_mask mask_arr npix = Some mask_arr.
Proof.
  intros Hpos Hwater.
  destruct (expand_mask_spec mask_arr npix Hpos) as (out & Hout & Hshape & Hspec).
  rewrite Hout. f_equal. symmetry. apply mask_ext; [done|].
  intros i j. rewrite Hspec. split.
  - intros Hland. by destruct (Hwater i j).
  - intros (_ & p & q & Hland & _). by destruct (Hwater p q).
Qed.

Lemma same_shape_land_mask_init (WOFS_array : list (list Q)) (thr thr' : Q) :
  same_shape (land_mask_init WOFS_array thr) (land_mask_init WOFS_array thr').
Proof.
  unfold same_shape, land_mask_init.
  apply Forall2_fmap, Forall_Forall2_diag, Forall_forall.
  intros row _. by rewrite !length_map.
Qed.

(** X13: raising the water threshold never turns land into water, before
    or after the expansion. *)
Theorem land_mask_monotonic_in_threshold (WOFS_array : list (list Q))
    (thr thr' buffer : Q) :
  (thr <= thr')%Q → (0 <= buffer)%Q →
  (∀ i j, pix (land_mask_init WOFS_array thr) i j = Some true →
          pix (land_mask_init WOFS_array thr') i j = Some true) ∧
  ∃ lm lm',
    land_mask WOFS_array thr buffer = Some lm ∧
    land_mask WOFS_array thr' buffer = Some lm' ∧
    ∀ i j, pix lm i j = Some true → pix lm' i j = Some true.
Proof.
  intros Hthr Hbuf.
  assert (∀ i j, pix (land_mask_init WOFS_array thr) i j = Some true →
                 pix (land_mask_init WOFS_array thr') i j = Some true) as Hinit.
  { intros i j. rewrite !pix_land_mask_init.
    destruct (pix WOFS_array i j) as [v|]; [|done]. simpl.
    intros [= Hle%Qle_bool_iff]. f_equal. apply Qle_bool_iff.
    by eapply Qle_trans. }
  split; [done|]. unfold land_mask.
  destruct (expand_mask_spec (land_mask_init WOFS_array thr) buffer Hbuf)
    as (lm & Hlm & _).
  destruct (expand_mask_spec (land_mask_init WOFS_array thr') buffer Hbuf)
    as (lm' & Hlm' & _).
  exists lm, lm'. split_and!; [done..|].
  eapply expand_mask_mono_mask; eauto using same_shape_land_mask_init.
Qed.

End mask_extras.

Lemma expand_mask_extensive_witness :
  ∃ out,
    expand_mask [[false; false]; [false; true]] (3 # 2) = Some out ∧
    pix out 1 1 = Some true.
Proof.
  apply (expand_mask_extensive [[false; false]; [false; true]] (3 # 2) 1 1).
  - vm_compute. discriminate.
  - reflexivity.
Defined.

Lemma expand_mask_below_one_pixel_witness :
  expand_mask [[false; false]; [false; true]] (1 # 2)
  = Some [[false; false]; [false; true]].
Proof.
  apply (expand_mask_below_one_pixel [[false; false]; [false; true]] (1 # 2)).
  - vm_compute. discriminate.
  - vm_compute. reflexivity.
Defined.

Lemma expand_mask_monotonic_in_mask_witness :
  ∃ out out',
    expand_mask [[false; false]; [false; true]] 1 = Some out ∧
    expand_mask [[true; false]; [false; true]] 1 = Some out' ∧
    ∀ i j, pix out i j = Some true → pix out' i j = Some true.
Proof.
  apply (expand_mask_monotonic_in_mask
           [[false; false]; [false; true]] [[true; false]; [false; true]] 1).
  - vm_compute. discriminate.
  - repeat constructor.
  - intros [|[|i]] [|[|j]]; vm_compute; congruence.
Defined.

Lemma expand_mask_all_water_witness :
  expand_mask [[false; false]; [false; false]] (5 # 2)
  = Some [[false; false]; [false; false]].
Proof.
  apply (expand_mask_all_water [[false; false]; [false; false]] (5 # 2)).
  - vm_compute. discriminate.
  - intros [|[|i]] [|[|j]]; vm_compute; congruence.
Defined.

Lemma land_mask_monotonic_in_threshold_witness :
  (∀ i j, pix (land_mask_init [[80%Q; 95%Q]] 90) i j = Some true →
          pix (land_mask_init [[80%Q; 95%Q]] 96) i j = Some true) ∧
  ∃ lm lm',
    land_mask [[80%Q; 95%Q]] 90 0 = Some lm ∧
    land_mask [[80%Q; 95%Q]] 96 0 = Some lm' ∧
    ∀ i j, pix lm i j = Some true → pix lm' i j = Some true.
Proof.
  apply (land_mask_monotonic_in_threshold [[80%Q; 95%Q]] 90 96 0);
    vm_compute; discriminate.
Defined.

(** ** More on the validity filter *)

Section filter_extras.
Context {V : Type}.
Implicit Types (land : mask) (a r WQ_array : raster V).

Lemma row_valid_le_water (lrow : list bool) (arow : list (pixel V)) :
  count_true (zip_with (λ (b : bool) p, negb b && negb (isnan p)) lrow arow)
  ≤ count_true (map negb lrow).
Proof.
  revert arow. induction lrow as [|b lrow IH]; intros [|p arow]; simpl;
    rewrite ?count_true_cons; try (unfold count_true; simpl; lia).
  specialize (IH arow). destruct b, p; simpl; lia.
Qed.

Lemma valid_water_count_le land a : valid_water_count land a ≤ n_water_pix land.
Proof.
  unfold valid_water_count, n_water_pix. revert a.
  induction land as [|lrow land IH]; intros [|arow a]; simpl; try lia.
  specialize (IH a). pose proof (row_valid_le_water lrow arow). lia.
Qed.

Lemma n_valid_le_water land a r :
  mask_out land a = Some r → n_valid_pix r ≤ n_water_pix land.
Proof.
  intros Hmask. rewrite (n_valid_masked land a r Hmask).
  apply valid_water_count_le.
Qed.

Lemma Qnat_le n m : n ≤ m → (Qnat n <= Qnat m)%Q.
Proof. intros Hnm. unfold Qnat. rewrite <-Zle_Qle. lia. Qed.

Lemma valid_percent_bounds land a r :
  mask_out land a = Some r →
  0 < n_water_pix land →
  (0 <= 100 * Qnat (n_valid_pix r) / Qnat (n_water_pix land))%Q ∧
  (100 * Qnat (n_valid_pix r) / Qnat (n_water_pix land) <= 100)%Q.
Proof.
  intros Hmask Hw. pose proof (n_valid_le_water land a r Hmask) as Hle.
  pose proof (Qnat_pos _ Hw) as Hpos. split.
  - apply Qle_shift_div_l; [done|]. rewrite Qmult_0_l.
    apply Qmult_le_0_compat; [done|].
    unfold Qnat. change 0%Q with (inject_Z 0). rewrite <-Zle_Qle. lia.
  - apply Qle_shift_div_r; [done|].
    apply Qmult_le_l; [done|]. by apply Qnat_le.
Qed.

(** X15: after masking, the valid pixels are at most the water pixels
    of the mask, so the valid fraction is at most 100 percent. *)
Theorem valid_fraction_at_most_100 land a r :
  mask_out land a = Some r →
  n_valid_pix r ≤ n_water_pix land ∧
  (0 < n_water_pix land →
   (100 * Qnat (n_valid_pix r) / Qnat (n_water_pix land) <= 100)%Q).
Proof.
  intros Hmask. split; [by eapply n_valid_le_water|].
  intros Hw. by apply (valid_percent_bounds land a r).
Qed.

(** X17: when the mask has no water pixel, the two notebooks part: 07b
    never retains the date (the quotient is NaN), 07d always does (no
    valid pixel reaches a threshold of zero pixels). *)
Theorem keep_tests_differ_without_water land a r (thr : Q) :
  n_water_pix land = 0 →
  mask_out land a = Some r →
  keep_07b land r thr = false ∧ keep_07d land r thr = true.
Proof.
  intros Hw Hmask. pose proof (n_valid_le_water land a r Hmask) as Hle.
  assert (n_valid_pix r = 0) as Hv by lia.
  unfold keep_07b, keep_07d, pix_thr. rewrite Hw, Hv. simpl.
  split; [done|]. apply Qle_bool_iff. unfold Qnat. simpl.
  assert (0 * thr / 100 == 0)%Q as -> by field. apply Qle_refl.
Qed.

(** X18: with a water pixel in the mask, a threshold above 100 percent
    retains no date and a threshold of zero or less retains every date,
    in both notebooks. *)
Theorem keep_threshold_extremes land a r (thr : Q) :
  0 < n_water_pix land →
  mask_out land a = Some r →
  ((100 < thr)%Q →
   keep_07b land r thr = false ∧ keep_07d land r thr = false) ∧
  ((thr <= 0)%Q →
   keep_07b land r thr = true ∧ keep_07d land r thr = true).
Proof.
  intros Hw Hmask.
  pose proof (keep_07b_iff land r thr Hw) as Hb.
  pose proof (keep_07d_iff land r thr Hw) as Hd.
  destruct (valid_percent_bounds land a r Hmask Hw) as [H0 H100].
  split.
  - intros Hthr. split; apply not_true_is_false.
    + intros Hk%Hb. lra.
    + intros Hk%Hd. lra.
  - intros Hthr. split; [apply Hb|apply Hd]; lra.
Qed.

(** X19: the filter is monotonic in the threshold: a date retained at a
    threshold is retained at every lower threshold. *)
Theorem keep_monotonic_in_threshold land WQ_array (thr thr' : Q) :
  (thr <= thr')%Q →
  (keep_07b land WQ_array thr' = true → keep_07b land WQ_array thr = true) ∧
  (keep_07d land WQ_array thr' = true → keep_07d land WQ_array thr = true).
Proof.
  intros Hthr. split.
  - unfold keep_07b. destruct (n_water_pix land =? 0); [done|].
    rewrite !Qle_bool_iff. intros H. by eapply Qle_trans.
  - unfold keep_07d, pix_thr. rewrite !Qle_bool_iff. intros H.
    eapply Qle_trans; [|exact H].
    unfold Qdiv. apply Qmult_le_compat_r; [|done].
    rewrite !(Qmult_comm (Qnat (n_water_pix land))).
    apply Qmult_le_compat_r; [done|].
    unfold Qnat. change 0%Q with (inject_Z 0). rewrite <-Zle_Qle. lia.
Qed.
End filter_extras.

Lemma valid_fraction_at_most_100_witness :
  n_valid_pix [[Some 1%Z; None]] ≤ n_water_pix [[false; true]] ∧
  (100 * Qnat (n_valid_pix [[Some 1%Z; None]])
   / Qnat (n_water_pix [[false; true]]) <= 100)%Q.
Proof.
  destruct (valid_fraction_at_most_100 [[false; true]]
              [[Some 1%Z; Some 2%Z]] [[Some 1%Z; None]] eq_refl)
    as [Hle Hpct].
  split; [exact Hle|]. apply Hpct. vm_compute. lia.
Defined.

Lemma keep_tests_differ_without_water_witness :
  keep_07b [[true; true]] [[@None Z; None]] 50 = false ∧
  keep_07d [[true; true]] [[@None Z; None]] 50 = true.
Proof.
  apply (keep_tests_differ_without_water [[true; true]]
           [[Some 1%Z; Some 2%Z]] [[None; None]] 50); reflexivity.
Defined.

Lemma keep_threshold_extremes_witness :
  keep_07b [[false; true]] [[Some 1%Z; None]] 150 = false ∧
  keep_07d [[false; true]] [[Some 1%Z; None]] 150 = false.
Proof.
  destruct (keep_threshold_extremes [[false; true]]
              [[Some 1%Z; Some 2%Z]] [[Some 1%Z; None]] 150
              (Nat.lt_0_succ 0) eq_refl) as [Habove _].
  apply Habove. reflexivity.
Defined.

Lemma keep_monotonic_in_threshold_witness :
  (keep_07b [[false; false]] [[Some 1%Z; None]] 50 = true →
   keep_07b [[false; false]] [[Some 1%Z; None]] 20 = true) ∧
  (keep_07d [[false; false]] [[Some 1%Z; None]] 50 = true →
   keep_07d [[false; false]] [[Some 1%Z; None]] 20 = true).
Proof.
  apply (keep_monotonic_in_threshold [[false; false]] [[Some 1%Z; None]] 20 50).
  vm_compute. discriminate.
Defined.

(** ** Contents of the exports *)

Import Datasets.

Section index_facts.
Context {A B : Type}.



End index_facts.

Section retained_facts.
Context {V : Type}.
Variable ReprojectImage : raster V → raster V → raster V.
Variables nanmin nanmax nanmean nanmedian : raster V → pixel V.
Variables (land : mask) (dx dy hs ws : nat).

Hypothesis ReprojectImage_shape :
  ∀ src dst, rect dx dy dst → rect dx dy (ReprojectImage src dst).
Hypothesis land_shape : rect dx dy land.

(** The test of a loop, whatever arithmetic decides it. *)
Variable keep : raster V → bool.

(** A consumer of the shape of 07d's: a date that passes the test
    fills its slot of every array, another date changes nothing. *)
Variable consume_d : nat → raster V → @export V → option (@export V).
Hypothesis consume_d_eq :
  ∀ dateind WQ_array e,
    consume_d dateind WQ_array e
    = if keep WQ_array then
        Some (Export (<[dateind := WQ_array]> (WQ_res e))
                     (<[dateind := true]> (valid_dates e))
                     (<[dateind := nanmin WQ_array]> (min_vals e))
                     (<[dateind := nanmax WQ_array]> (max_vals e))
                     (<[dateind := nanmean WQ_array]> (mean_vals e))
                     (<[dateind := nanmedian WQ_array]> (med_vals e))
                     (<[dateind := Some "undefined"%string]> (flags_list e))
                     (LS_dates e) (files e))
      else Some e.


(** A consumer of the shape of 07b's: a date that passes the test
    adds its two files and its record, another date changes nothing. *)
Variables (save_basedir lake_str : string) (dates : list string).
Variable consume_b : nat → raster V → @out07b V → option (@out07b V).
Hypothesis consume_b_eq :
  ∀ dateind WQ_array o,
    consume_b dateind WQ_array o
    = if keep WQ_array then
        date ← dates !! dateind;
        Some (Out07b
                (files_07b o ++
                   files_of_date nanmin nanmax nanmean nanmedian
                                 save_basedir lake_str (date, WQ_array))
                (contents_json_list o ++
                   [record_of_date save_basedir lake_str (date, WQ_array)]))
      else Some o.

Lemma file_loop_contents (stack masked : list (raster V)) g :
  rect hs ws (gdal_WQ_data g) → rect dx dy (gdalgeo_WQ_data g) →
  Forall (rect hs ws) stack →
  length stack = length dates →
  Forall2 (λ wq r, mask_out land (ReprojectImage wq (all_nan dx dy)) = Some r)
          stack masked →
  let retained := filter (λ e, keep e.2 = true) (zip dates masked) in
  ∃ gn o,
    date_loop ReprojectImage consume_b land dx dy stack (length dates) g
              (Out07b [] [])
    = Some (gn, o) ∧
    files_07b o
    = retained ≫= files_of_date nanmin nanmax nanmean nanmedian
                                save_basedir lake_str ∧
    contents_json_list o = record_of_date save_basedir lake_str <$> retained.
Proof.
  intros Hsrc Hdst Hstack Hlen Hmasked retained.
  pose proof (Forall2_length _ _ _ Hmasked) as Hlenm.
  destruct (date_loop_inv ReprojectImage consume_b
              land dx dy hs ws stack ReprojectImage_shape land_shape
              (λ k o,
                 files_07b o
                 = filter (λ e, keep e.2 = true)
                          (zip (take k dates) (take k masked))
                     ≫= files_of_date nanmin nanmax nanmean nanmedian
                                      save_basedir lake_str ∧
                 contents_json_list o
                 = record_of_date save_basedir lake_str
                     <$> filter (λ e, keep e.2 = true)
                                (zip (take k dates) (take k masked)))
              (length dates) g (Out07b [] []))
    as (gn & o & Hloop & _ & _ & Hfiles & Hcontents); [done..| | |lia|].
  - done.
  - intros i wq r o [Hfiles Hcontents] Hwq Hmask.
    assert (masked !! i = Some r) as Hri.
    { destruct (Forall2_lookup_l _ _ _ _ _ Hmasked Hwq) as (r' & Hr' & Hm').
      rewrite Hmask in Hm'. by injection Hm' as ->. }
    destruct (lookup_lt_is_Some_2 dates i) as [date Hdate].
    { rewrite <-Hlen. by eapply lookup_lt_Some. }
    rewrite (take_S_r dates i date), (take_S_r masked i r) by done.
    rewrite zip_with_app by (rewrite !length_take; lia).
    change (zip [date] [r]) with [(date, r)].
    rewrite filter_app, bind_app, fmap_app.
    assert (filter (λ e : string * raster V, keep e.2 = true) [(date, r)]
            = if keep r then [(date, r)] else []) as ->.
    { rewrite filter_cons, filter_nil. case_decide as Hd; simpl in Hd;
        destruct (keep r); done. }
    rewrite consume_b_eq. destruct (keep r) eqn:Hkeep.
    + rewrite Hdate. simpl. eexists. split; [done|]. simpl.
      by rewrite Hfiles, Hcontents.
    + eexists. split; [done|]. simpl. by rewrite !app_nil_r.
  - exists gn, o. rewrite Hloop. split; [done|].
    rewrite Hfiles, Hcontents. rewrite !take_ge by lia. done.
Qed.
End retained_facts.

Section archive_extras.
Context {V : Type}.
Variable ReprojectImage : raster V → raster V → raster V.
Variables nanmin nanmax nanmean nanmedian : raster V → pixel V.
Variables (land : mask) (dx dy hs ws : nat).

Hypothesis ReprojectImage_shape :
  ∀ src dst, rect dx dy dst → rect dx dy (ReprojectImage src dst).
Hypothesis land_shape : rect dx dy land.


End archive_extras.

Section per_date_extras.
Context {V : Type}.
Variable ReprojectImage : raster V → raster V → raster V.
Variables nanmin nanmax nanmean nanmedian : raster V → pixel V.
Variables (land : mask) (dx dy hs ws : nat).

Hypothesis ReprojectImage_shape :
  ∀ src dst, rect dx dy dst → rect dx dy (ReprojectImage src dst).
Hypothesis land_shape : rect dx dy land.

(** The output of 07b as a function of the masked rasters: the two
    files of each retained date, in the order of the dates, then the
    manifest with one record per retained date. *)
Lemma per_date_export_spec (thr : Q) (save_basedir lake_str : string)
    (dates : list string) (stack : list (raster V)) g :
  rect hs ws (gdal_WQ_data g) → rect dx dy (gdalgeo_WQ_data g) →
  Forall (rect hs ws) stack →
  length stack = length dates →
  ∃ masked,
    Forall2 (λ wq r, mask_out land (ReprojectImage wq (all_nan dx dy)) = Some r)
            stack masked ∧
    let retained :=
      filter (λ e, keep_07b land e.2 thr = true) (zip dates masked) in
    per_date_export ReprojectImage nanmin nanmax nanmean nanmedian land dx dy
                    thr save_basedir lake_str dates stack g
    = Some ((retained ≫= files_of_date nanmin nanmax nanmean nanmedian
                                       save_basedir lake_str) ++
            [((save_basedir +:+ lake_str +:+ "/contents.json")%string,
              Contents (record_of_date save_basedir lake_str <$> retained))]).
Proof.
  intros Hsrc Hdst Hstack Hlen.
  destruct (fresh_exists ReprojectImage land dx dy stack
              ReprojectImage_shape land_shape) as [masked Hmasked].
  exists masked. split; [done|]. intros retained.
  destruct (file_loop_contents ReprojectImage nanmin nanmax nanmean nanmedian
              land dx dy hs ws ReprojectImage_shape land_shape
              (λ r, keep_07b land r thr) save_basedir lake_str dates
              (consume_07b nanmin nanmax nanmean nanmedian land thr
                           save_basedir lake_str dates)
              (λ _ _ _, eq_refl) stack masked g)
    as (gn & o & Hloop & Hfiles & Hcontents); [done..|].
  unfold per_date_export. rewrite Hloop. simpl.
  by rewrite Hfiles, Hcontents.
Qed.

End per_date_extras.

(** ** The validity filter in binary64 *)


Section binary64_filter.
Context {V : Type}.
Variable ReprojectImage : raster V → raster V → raster V.
Variables nanmin nanmax nanmean nanmedian : raster V → pixel V.
Variables (land : mask) (dx dy hs ws : nat).

Hypothesis ReprojectImage_shape :
  ∀ src dst, rect dx dy dst → rect dx dy (ReprojectImage src dst).
Hypothesis land_shape : rect dx dy land.

End binary64_filter.



(** The two notebooks can part on one raster: with 161 of 250 water
    pixels valid and the threshold [fl(64.4)], the quotient of 07b is
    rounded to the threshold and the date passes, while the pixel
    threshold of 07d is rounded to just above 161 and the date
    fails. *)
Example binary64_notebooks_differ :
  let land := [replicate 250 false] in
  let WQ_array := [replicate 161 (Some 0%Z) ++ replicate 89 None] in
  Binary64.keep_07b land WQ_array 0x1.019999999999ap+6 = true ∧
  Binary64.keep_07d land WQ_array 0x1.019999999999ap+6 = false.
Proof. vm_compute. done. Qed.

Section string_facts.
Lemma list_ascii_app (a b : string) :
  String.list_ascii_of_string (a +:+ b)
  = String.list_ascii_of_string a ++ String.list_ascii_of_string b.
Proof. induction a as [|c a IH]; simpl; [done|]. by rewrite IH. Qed.

Lemma list_ascii_inj (a b : string) :
  String.list_ascii_of_string a = String.list_ascii_of_string b → a = b.
Proof.
  intros H. rewrite <-(String.string_of_list_ascii_of_string a),
    <-(String.string_of_list_ascii_of_string b). by rewrite H.
Qed.

Lemma string_app_inv_tail (a b t : string) : a +:+ t = b +:+ t → a = b.
Proof.
  intros H. apply list_ascii_inj.
  apply (f_equal String.list_ascii_of_string) in H.
  rewrite !list_ascii_app in H. by apply app_inv_tail in H.
Qed.

Lemma f_basename_inj (save_basedir lake_str d d' : string) :
  f_basename save_basedir lake_str d = f_basename save_basedir lake_str d' →
  d = d'.
Proof.
  unfold f_basename. intros H.
  by repeat (apply String.app_inj in H).
Qed.

Lemma png_fname_inj (save_basedir lake_str d d' : string) :
  png_fname save_basedir lake_str d = png_fname save_basedir lake_str d' →
  d = d'.
Proof.
  unfold png_fname. intros H%string_app_inv_tail. by eapply f_basename_inj.
Qed.

Lemma json_fname_inj (save_basedir lake_str d d' : string) :
  json_fname save_basedir lake_str d = json_fname save_basedir lake_str d' →
  d = d'.
Proof.
  unfold json_fname. intros H%string_app_inv_tail. by eapply f_basename_inj.
Qed.

Lemma png_json_differ (save_basedir lake_str d d' : string) :
  png_fname save_basedir lake_str d ≠ json_fname save_basedir lake_str d'.
Proof.
  unfold png_fname, json_fname. intros H.
  apply (f_equal String.list_ascii_of_string) in H. rewrite !list_ascii_app in H.
  change (String.list_ascii_of_string ".png")
    with (String.list_ascii_of_string ".pn" ++ String.list_ascii_of_string "g") in H.
  change (String.list_ascii_of_string ".json")
    with (String.list_ascii_of_string ".jso" ++ String.list_ascii_of_string "n") in H.
  rewrite !app_assoc in H. apply app_inj_2 in H as [_ H]; [|done].
  discriminate H.
Qed.

Lemma contents_differs (save_basedir lake_str d ext : string) :
  (save_basedir +:+ lake_str +:+ "/contents.json")%string
  ≠ (f_basename save_basedir lake_str d +:+ ext)%string.
Proof.
  unfold f_basename. intros H.
  apply (f_equal String.list_ascii_of_string) in H. rewrite !list_ascii_app in H.
  rewrite <-!app_assoc in H. do 2 apply app_inv_head in H. discriminate H.
Qed.
End string_facts.

Section overwrite_extras.
Context {V : Type}.
Variable ReprojectImage : raster V → raster V → raster V.
Variables nanmin nanmax nanmean nanmedian : raster V → pixel V.
Variables (land : mask) (dx dy hs ws : nat).

Hypothesis ReprojectImage_shape :
  ∀ src dst, rect dx dy dst → rect dx dy (ReprojectImage src dst).
Hypothesis land_shape : rect dx dy land.

Lemma files_of_date_names (save_basedir lake_str : string)
    (l : list (string * raster V)) :
  (l ≫= files_of_date nanmin nanmax nanmean nanmedian save_basedir lake_str).*1
  = l.*1 ≫= λ d, [png_fname save_basedir lake_str d;
                  json_fname save_basedir lake_str d].
Proof.
  induction l as [|[d r] l IH]; [done|].
  rewrite bind_cons, fmap_app, IH, fmap_cons, bind_cons. done.
Qed.

Lemma date_names_NoDup (save_basedir lake_str : string) (ds : list string) :
  NoDup ds →
  NoDup (ds ≫= λ d, [png_fname save_basedir lake_str d;
                     json_fname save_basedir lake_str d]).
Proof.
  induction 1 as [|d ds Hd Hnd IH]; simpl; [constructor|].
  apply NoDup_cons. split.
  - rewrite elem_of_cons. intros [H|H].
    + by apply png_json_differ in H.
    + apply list_elem_of_bind in H as (d' & [H|[H|[]%elem_of_nil]%elem_of_cons]%elem_of_cons & Hd').
      * apply png_fname_inj in H. by subst.
      * by apply png_json_differ in H.
  - apply NoDup_cons. split; [|done].
    intros H. apply list_elem_of_bind in H
      as (d' & [H|[H|[]%elem_of_nil]%elem_of_cons]%elem_of_cons & Hd').
    + symmetry in H. by apply png_json_differ in H.
    + apply json_fname_inj in H. by subst.
Qed.

(** X22: 07b overwrites nothing: when the dates are distinct, as they
    are after the duplicate-date removal, no two files it writes share
    a path. *)
Theorem per_date_export_no_overwrite (thr : Q) (save_basedir lake_str : string)
    (dates : list string) (stack : list (raster V)) g :
  rect hs ws (gdal_WQ_data g) → rect dx dy (gdalgeo_WQ_data g) →
  Forall (rect hs ws) stack →
  length stack = length dates →
  NoDup dates →
  ∃ fs,
    per_date_export ReprojectImage nanmin nanmax nanmean nanmedian land dx dy
                    thr save_basedir lake_str dates stack g = Some fs ∧
    NoDup fs.*1.
Proof.
  intros Hsrc Hdst Hstack Hlen Hnd.
  destruct (per_date_export_spec ReprojectImage nanmin nanmax nanmean nanmedian
              land dx dy hs ws ReprojectImage_shape land_shape thr
              save_basedir lake_str dates stack g)
    as (masked & Hmasked & Hfs); [done..|].
  pose proof (Forall2_length _ _ _ Hmasked) as Hlenm.
  eexists. split; [exact Hfs|].
  rewrite fmap_app, files_of_date_names. simpl.
  apply NoDup_app. split_and!.
  - apply date_names_NoDup.
    apply (sublist_NoDup _ (zip dates masked).*1).
    + by rewrite fst_zip by lia.
    + apply fmap_sublist, sublist_filter.
  - intros x Hx ->%list_elem_of_singleton.
    apply list_elem_of_bind in Hx
      as (d & [H|[H|[]%elem_of_nil]%elem_of_cons]%elem_of_cons & _).
    + by apply contents_differs in H.
    + by apply contents_differs in H.
  - apply NoDup_singleton.
Qed.
End overwrite_extras.



Lemma per_date_export_no_overwrite_witness :
  ∃ fs,
    per_date_export
      (λ src dst : raster Z,
         imap (λ i row, imap (λ j old, default old (pix src i j)) row) dst)
      (λ _, None) (λ _, None) (λ _, None) (λ _, None)
      [[false; false]] 1 2 50 "/data/" "Lake"
      ["2013-05-01"; "2013-05-17"]%string
      [[[Some 1%Z; None]]; [[None; None]]]
      (Gdal [[None; None]] [[Some 7%Z; Some 8%Z]]) = Some fs ∧
    NoDup fs.*1.
Proof.
  apply (per_date_export_no_overwrite
           (λ src dst : raster Z,
              imap (λ i row, imap (λ j old, default old (pix src i j)) row) dst)
           (λ _, None) (λ _, None) (λ _, None) (λ _, None)
           [[false; false]] 1 2 1 2
           (λ src dst H, paste_rect (λ i j old, default old (pix src i j)) 1 2 dst H)
           (conj eq_refl (Forall_cons_2 (λ row : list bool, length row = 2)
                            [false; false] [] eq_refl (Forall_nil_2 _)))
           50 "/data/" "Lake"
           ["2013-05-01"; "2013-05-17"]%string
           [[[Some 1%Z; None]]; [[None; None]]]
           (Gdal [[None; None]] [[Some 7%Z; Some 8%Z]])).
  - split; [reflexivity|]. repeat constructor.
  - split; [reflexivity|]. repeat constructor.
  - repeat constructor.
  - reflexivity.
  - apply (bool_decide_unpack _). vm_compute. exact I.
Defined.

(** ** The whole run of 07d *)

Section partial_facts.
Context {V St : Type}.
Variable ReprojectImage : raster V → raster V → raster V.
Variable consume : nat → raster V → St → option St.
Variables (land : mask) (dx dy : nat).
Variable stack : list (raster V).

(** What every step of the consumer keeps, the loop keeps, when it
    returns. *)
Lemma date_loop_preserves (P : St → Prop) k g s gk sk :
  (∀ i a si s', consume i a si = Some s' → P si → P s') →
  P s →
  date_loop ReprojectImage consume land dx dy stack k g s = Some (gk, sk) →
  P sk.
Proof.
  intros Hstep H0. revert gk sk. induction k as [|k IH]; intros gk sk.
  { unfold date_loop. simpl. by intros [= <- <-]. }
  rewrite date_loop_S.
  destruct (date_loop ReprojectImage consume land dx dy stack k g s)
    as [[gk' sk']|]; simpl; [|done].
  destruct (stack !! k) as [wq|]; simpl; [|done].
  destruct (reproject_and_mask ReprojectImage land dx dy wq gk')
    as [[g2 r]|]; simpl; [|done].
  destruct (consume k r sk') as [s'|] eqn:Hc; simpl; [|done].
  intros [= <- <-]. eapply Hstep; [exact Hc|]. by eapply IH.
Qed.
End partial_facts.

Section run_extras.
Context {V : Type}.
Variable ReprojectImage : raster V → raster V → raster V.
Variables nanmin nanmax nanmean nanmedian : raster V → pixel V.
Variable zero : V.

Lemma Create_None (xsize ysize : nat) :
  xsize = 0 ∨ ysize = 0 → Create (V:=V) zero xsize ysize = None.
Proof. unfold Create. by intros [-> | ->]; rewrite ?orb_true_r. Qed.

Lemma make_datasets_None (stack : list (raster V)) (WOFS_array : list (list Q)) :
  stack = [] ∨
  (∃ first, stack !! 0 = Some first ∧
            ((shape first).1 = 0 ∨ (shape first).2 = 0)) ∨
  (shape WOFS_array).1 = 0 ∨ (shape WOFS_array).2 = 0 →
  make_datasets zero stack WOFS_array = None.
Proof.
  unfold make_datasets. intros [-> |[(first & -> & Hz)|Hz]]; [reflexivity| |].
  - cbn [mbind option_bind].
    by rewrite (Create_None (shape first).2 (shape first).1) by tauto.
  - destruct (stack !! 0) as [first|]; [|done]. cbn [mbind option_bind].
    destruct (Create zero (shape first).2 (shape first).1); [|done].
    cbn [mbind option_bind].
    by rewrite (Create_None (shape WOFS_array).2 (shape WOFS_array).1) by tauto.
Qed.

(** X23: the run of 07d raises on a negative buffer distance, on an
    empty stack of rasters, and on a raster or a water-occurrence
    array with a dimension of zero; and when it returns, it returns
    one flag per date. *)
Theorem run_07d_errors (water_mask_thr water_mask_buffer thr : Q)
    (save_basedir lake_str now : string) (dates : list string)
    (stack : list (raster V)) (WOFS_array : list (list Q)) :
  ((water_mask_buffer < 0)%Q ∨ stack = [] ∨
   (∃ first, stack !! 0 = Some first ∧
             ((shape first).1 = 0 ∨ (shape first).2 = 0)) ∨
   (shape WOFS_array).1 = 0 ∨ (shape WOFS_array).2 = 0 →
   run_07d ReprojectImage nanmin nanmax nanmean nanmedian zero
           water_mask_thr water_mask_buffer thr save_basedir lake_str now
           dates stack WOFS_array = None) ∧
  (∀ e,
     run_07d ReprojectImage nanmin nanmax nanmean nanmedian zero
             water_mask_thr water_mask_buffer thr save_basedir lake_str now
             dates stack WOFS_array = Some e →
     length (valid_dates e) = length dates).
Proof.
  unfold run_07d, land_mask. split.
  - intros [Hneg|Hdata].
    + assert (expand_mask (land_mask_init WOFS_array water_mask_thr)
                          water_mask_buffer = None) as ->; [|done].
      unfold expand_mask, build_struc. apply Qfloor_neg in Hneg.
      assert ((Qfloor water_mask_buffer * 2 + 1 <? 0)%Z = true) as ->
        by (apply Z.ltb_lt; lia).
      done.
    + destruct (expand_mask _ _) as [land|]; [|done]. cbn [mbind option_bind].
      by rewrite make_datasets_None.
  - intros e Hrun.
    destruct (expand_mask (land_mask_init WOFS_array water_mask_thr)
                          water_mask_buffer) as [land|]; [|done].
    cbn [mbind option_bind] in Hrun.
    destruct (make_datasets zero stack WOFS_array) as [g|]; [|done].
    cbn [mbind option_bind] in Hrun. unfold archive_export in Hrun.
    destruct (date_loop _ _ _ _ _ _ _ _ _) as [[gn st]|] eqn:Hloop; [|done].
    cbn [mbind option_bind snd] in Hrun.
    assert (length (valid_dates st) = length dates) as Hlen.
    { eapply (date_loop_preserves _ _ _ _ _ _
                (λ e, length (valid_dates e) = length dates)); [| |exact Hloop].
      - intros i a si s'. unfold consume_07d.
        destruct (keep_07d land a thr); intros [= <-] Hsi; [|done].
        simpl. by rewrite length_insert.
      - simpl. by rewrite length_replicate. }
    revert Hrun. unfold save_results.
    destruct (0 <? count_true (valid_dates st)); [|by intros [= <-]].
    intros Hrun.
    repeat (match type of Hrun with
            | context [bool_index ?a ?m] =>
                destruct (bool_index a m); cbn [mbind option_bind] in Hrun;
                [|done]
            end).
    injection Hrun as <-. done.
Qed.
End run_extras.

Lemma run_07d_errors_witness :
  run_07d (λ src dst : raster Z,
             imap (λ i row, imap (λ j old, default old (pix src i j)) row) dst)
          (λ _, None) (λ _, None) (λ _, None) (λ _, None) 0%Z
          10 0 50 "/data/" "Lake" "2016/05/25 10:00:00"
          ["2013-05-01"; "2013-05-17"]%string
          [[[Some 1%Z; None]]; [[None; None]]] [[]] = None ∧
  ∃ e,
    run_07d (λ src dst : raster Z,
               imap (λ i row, imap (λ j old, default old (pix src i j)) row) dst)
            (λ _, None) (λ _, None) (λ _, None) (λ _, None) 0%Z
            10 0 50 "/data/" "Lake" "2016/05/25 10:00:00"
            ["2013-05-01"; "2013-05-17"]%string
            [[[Some 1%Z; None]]; [[None; None]]] [[90%Q; 5%Q]] = Some e ∧
    length (valid_dates e) = 2.
Proof.
  split.
  - apply (run_07d_errors
             (λ src dst : raster Z,
                imap (λ i row, imap (λ j old, default old (pix src i j)) row) dst)
             (λ _, None) (λ _, None) (λ _, None) (λ _, None) 0%Z
             10 0 50 "/data/" "Lake" "2016/05/25 10:00:00"
             ["2013-05-01"; "2013-05-17"]%string
             [[[Some 1%Z; None]]; [[None; None]]] [[]]).
    right. right. right. right. reflexivity.
  - eexists. split; [vm_compute; reflexivity|].
    apply (run_07d_errors
             (λ src dst : raster Z,
                imap (λ i row, imap (λ j old, default old (pix src i j)) row) dst)
             (λ _, None) (λ _, None) (λ _, None) (λ _, None) 0%Z
             10 0 50 "/data/" "Lake" "2016/05/25 10:00:00"
             ["2013-05-01"; "2013-05-17"]%string
             [[[Some 1%Z; None]]; [[None; None]]] [[90%Q; 5%Q]]).
    vm_compute. reflexivity.
Defined.

(** ** Cropping the WOFS tile *)

Import Tile.

Section where_facts.
Variable P : Q → bool.

Lemma where_shift (f : nat → nat) (v : list Q) :
  (filter (λ e, P e.2 = true) (imap (λ i x, (f i, x)) v)).*1
  = f <$> (filter (λ e, P e.2 = true) (imap (λ i x, (i, x)) v)).*1.
Proof.
  revert f. induction v as [|x v IH]; intros f; [done|].
  rewrite !imap_cons, !filter_cons.
  change (imap ((λ i x, (f i, x)) ∘ S) v)
    with (imap (λ i x, ((f ∘ S) i, x)) v).
  change (imap ((λ i x, (i, x)) ∘ S) v) with (imap (λ i x, (S i, x)) v).
  pose proof (IH (f ∘ S)) as Hf. pose proof (IH S) as HS.
  cbn [snd].
  destruct (decide (P x = true)).
  - rewrite !fmap_cons, Hf, HS, (list_fmap_compose S f). done.
  - rewrite Hf, HS, (list_fmap_compose S f). done.
Qed.

Lemma where_cons (x : Q) (v : list Q) :
  where_ P (x :: v)
  = (if P x then [0] else []) ++ (S <$> where_ P v).
Proof.
  unfold where_.
  change (imap pair (x :: v)) with (imap (λ i x, (i, x)) (x :: v)).
  change (imap pair v) with (imap (λ i x, (i, x)) v).
  rewrite imap_cons, filter_cons.
  change (imap ((λ i x, (i, x)) ∘ S) v) with (imap (λ i x, (S i, x)) v).
  pose proof (where_shift S v) as HS. cbn [snd].
  destruct (decide (P x = true)) as [Hx|Hx].
  - rewrite Hx, fmap_cons, HS. done.
  - apply not_true_is_false in Hx. rewrite Hx, HS. done.
Qed.

Lemma elem_of_where (v : list Q) (i : nat) :
  i ∈ where_ P v ↔ ∃ x, v !! i = Some x ∧ P x = true.
Proof.
  revert i. induction v as [|x v IH]; intros i.
  - split; [by intros ?%elem_of_nil|by intros (? & ? & _)].
  - rewrite where_cons, elem_of_app, list_elem_of_fmap. split.
    + intros [Hi|(j & -> & Hj)].
      * destruct (P x) eqn:Hx; [|by apply elem_of_nil in Hi].
        apply list_elem_of_singleton in Hi as ->. by exists x.
      * by apply IH in Hj.
    + intros (y & Hy & HP). destruct i as [|i]; simpl in Hy.
      * injection Hy as ->. left. rewrite HP. by apply list_elem_of_singleton.
      * right. exists i. split; [done|]. apply IH. by exists y.
Qed.

Lemma where_sorted (v : list Q) : StronglySorted lt (where_ P v).
Proof.
  induction v as [|x v IH]; [constructor|].
  rewrite where_cons.
  assert (StronglySorted lt (S <$> where_ P v)) as HS.
  { eapply StronglySorted_fmap with (R1 := lt); [|done]. intros ???. lia. }
  destruct (P x); [|done]. simpl. constructor; [done|].
  apply Forall_fmap, Forall_forall. intros ??. simpl. lia.
Qed.

Lemma where_head (v : list Q) (i : nat) :
  head (where_ P v) = Some i →
  (∃ x, v !! i = Some x ∧ P x = true) ∧
  ∀ j y, v !! j = Some y → P y = true → i ≤ j.
Proof.
  intros Hh. split.
  { apply elem_of_where. by apply head_Some_elem_of. }
  intros j y Hj Hy.
  assert (j ∈ where_ P v) as Hin by (apply elem_of_where; eauto).
  pose proof (where_sorted v) as Hs.
  apply head_Some in Hh as [l' Hl]. rewrite Hl in *.
  apply StronglySorted_inv in Hs as [_ Hall].
  apply elem_of_cons in Hin as [->|Hin]; [done|].
  rewrite Forall_forall in Hall. specialize (Hall j Hin). lia.
Qed.

Lemma where_last (v : list Q) (i : nat) :
  last (where_ P v) = Some i →
  (∃ x, v !! i = Some x ∧ P x = true) ∧
  ∀ j y, v !! j = Some y → P y = true → j ≤ i.
Proof.
  intros Hh. split.
  { apply elem_of_where. by apply last_Some_elem_of. }
  intros j y Hj Hy.
  assert (j ∈ where_ P v) as Hin by (apply elem_of_where; eauto).
  pose proof (where_sorted v) as Hs.
  apply last_Some in Hh as [l' Hl]. rewrite Hl in *.
  apply elem_of_app in Hin as [Hin|Hin];
    [|apply list_elem_of_singleton in Hin; by subst].
  pose proof (StronglySorted_app_1_elem_of lt l' [i] j i Hs Hin) as Hlt.
  assert (j < i); [|lia]. apply Hlt. by apply list_elem_of_singleton.
Qed.
End where_facts.

Lemma length_coord_vec (n : nat) (step origin : Q) :
  length (coord_vec n step origin) = n.
Proof. unfold coord_vec. by rewrite length_fmap, length_seq. Qed.

Lemma lookup_slice {A} (lo hi : nat) (l : list A) (i : nat) :
  slice lo hi l !! i = if decide (lo + i < hi) then l !! (lo + i) else None.
Proof.
  unfold slice. destruct (decide (lo + i < hi)).
  - rewrite lookup_take_lt by lia. apply lookup_drop.
  - apply lookup_take_ge. lia.
Qed.

Lemma elem_of_slice {A} (lo hi : nat) (l : list A) (x : A) :
  x ∈ slice lo hi l ↔ ∃ k, lo ≤ k < hi ∧ l !! k = Some x.
Proof.
  rewrite list_elem_of_lookup. split.
  - intros [i Hi]. rewrite lookup_slice in Hi.
    destruct (decide (lo + i < hi)); [|done]. exists (lo + i). split; [lia|done].
  - intros (k & Hk & Hx). exists (k - lo). rewrite lookup_slice.
    rewrite decide_True by lia. by replace (lo + (k - lo)) with k by lia.
Qed.

Lemma length_slice {A} (lo hi : nat) (l : list A) :
  length (slice lo hi l) = min (hi - lo) (length l - lo).
Proof. unfold slice. by rewrite length_take, length_drop. Qed.

(** What [crop] computes, with the four indices named. *)
Lemma crop_inv lonvec latvec arr geotx lon_range lat_range w :
  crop lonvec latvec arr geotx lon_range lat_range = Some w →
  ∃ g0 g1 g3 g5 yind_min yind_max xind_min xind_max,
    geotx !! 0 = Some g0 ∧ geotx !! 1 = Some g1 ∧
    geotx !! 3 = Some g3 ∧ geotx !! 5 = Some g5 ∧
    head (where_ (λ x, Qle_bool lon_range.1 x) lonvec) = Some yind_min ∧
    last (where_ (λ x, Qle_bool x lon_range.2) lonvec) = Some yind_max ∧
    last (where_ (λ x, Qle_bool lat_range.2 x) latvec) = Some xind_min ∧
    head (where_ (λ x, Qle_bool x lat_range.1) latvec) = Some xind_max ∧
    w = Window (slice yind_min (yind_max + 1) lonvec)
               (slice xind_min (xind_max + 1) latvec)
               (slice yind_min (yind_max + 1)
                  <$> slice xind_min (xind_max + 1) arr)
               (<[3 := (g3 + Qnat xind_min * g5)%Q]>
                  (<[0 := (g0 + Qnat yind_min * g1)%Q]> geotx)).
Proof.
  unfold crop. intros H.
  destruct (head (where_ (λ x, Qle_bool lon_range.1 x) lonvec))
    as [yind_min|]; [|by cbn in H].
  cbn [mbind option_bind] in H.
  destruct (last (where_ (λ x, Qle_bool x lon_range.2) lonvec))
    as [yind_max|]; [|by cbn in H].
  cbn [mbind option_bind] in H.
  destruct (last (where_ (λ x, Qle_bool lat_range.2 x) latvec))
    as [xind_min|]; [|by cbn in H].
  cbn [mbind option_bind] in H.
  destruct (head (where_ (λ x, Qle_bool x lat_range.1) latvec))
    as [xind_max|]; [|by cbn in H].
  cbn [mbind option_bind] in H.
  destruct (geotx !! 0) as [g0|]; [|done].
  destruct (geotx !! 1) as [g1|]; [|done].
  destruct (geotx !! 3) as [g3|]; [|done].
  destruct (geotx !! 5) as [g5|]; [|done].
  cbn [mbind option_bind] in H. injection H as <-.
  exists g0, g1, g3, g5, yind_min, yind_max, xind_min, xind_max.
  by split_and!.
Qed.

(** What [extract] computes, with the four indices named. *)
Lemma extract_inv arr geotx lon_range lat_range w :
  extract arr geotx lon_range lat_range = Some w →
  ∃ g0 g1 g3 g5 yind_min yind_max xind_min xind_max,
    let lonvec := coord_vec (length arr) g1 g0 in
    let latvec := coord_vec (length (default [] (head arr))) g5 g3 in
    geotx !! 0 = Some g0 ∧ geotx !! 1 = Some g1 ∧
    geotx !! 3 = Some g3 ∧ geotx !! 5 = Some g5 ∧
    head (where_ (λ x, Qle_bool lon_range.1 x) lonvec) = Some yind_min ∧
    last (where_ (λ x, Qle_bool x lon_range.2) lonvec) = Some yind_max ∧
    last (where_ (λ x, Qle_bool lat_range.2 x) latvec) = Some xind_min ∧
    head (where_ (λ x, Qle_bool x lat_range.1) latvec) = Some xind_max ∧
    w = Window (slice yind_min (yind_max + 1) lonvec)
               (slice xind_min (xind_max + 1) latvec)
               (slice yind_min (yind_max + 1)
                  <$> slice xind_min (xind_max + 1) arr)
               (<[3 := (g3 + Qnat xind_min * g5)%Q]>
                  (<[0 := (g0 + Qnat yind_min * g1)%Q]> geotx)).
Proof.
  unfold extract, coordinate_vectors. intros H.
  destruct (geotx !! 0) as [g0|] eqn:H0; [|done].
  destruct (geotx !! 1) as [g1|] eqn:H1; [|done].
  destruct (geotx !! 3) as [g3|] eqn:H3; [|done].
  destruct (geotx !! 5) as [g5|] eqn:H5; [|done].
  cbn [mbind option_bind fst snd] in H.
  apply crop_inv in H
    as (g0' & g1' & g3' & g5' & ylo & yhi & xlo & xhi & G0 & G1 & G3 & G5 & Hw).
  rewrite H0 in G0. rewrite H1 in G1. rewrite H3 in G3. rewrite H5 in G5.
  injection G0 as <-. injection G1 as <-. injection G3 as <-. injection G5 as <-.
  by exists g0, g1, g3, g5, ylo, yhi, xlo, xhi.
Qed.

(** X25: when the longitudes of the tile do not decrease along the
    vector (as for a positive step), the retained longitudes are
    exactly those of the tile that lie inside the requested range,
    bounds included. *)
Theorem crop_longitudes_inside lonvec latvec arr geotx lon_range lat_range w :
  crop lonvec latvec arr geotx lon_range lat_range = Some w →
  (∀ i j x y, i ≤ j → lonvec !! i = Some x → lonvec !! j = Some y →
              (x <= y)%Q) →
  ∀ x, x ∈ WOFS_lonvec w ↔
       x ∈ lonvec ∧ (lon_range.1 <= x)%Q ∧ (x <= lon_range.2)%Q.
Proof.
  intros (g0 & g1 & g3 & g5 & ylo & yhi & xlo & xhi & _ & _ & _ & _ &
          Hlo & Hhi & _ & _ & ->)%crop_inv Hmono x.
  cbn [WOFS_lonvec].
  apply where_head in Hlo as [(a & Ha & Pa) Hmin].
  apply where_last in Hhi as [(b & Hb & Pb) Hmax].
  apply Qle_bool_iff in Pa, Pb.
  rewrite elem_of_slice. split.
  - intros (k & Hk & Hx). split; [by eapply list_elem_of_lookup_2|]. split.
    + eapply Qle_trans; [exact Pa|]. apply (Hmono ylo k); [lia|done..].
    + eapply Qle_trans; [|exact Pb]. apply (Hmono k yhi); [lia|done..].
  - intros ((k & Hk)%list_elem_of_lookup_1 & Hge & Hle).
    exists k. split; [|done]. split.
    + apply (Hmin k x Hk). by apply Qle_bool_iff.
    + assert (k ≤ yhi); [|lia]. apply (Hmax k x Hk). by apply Qle_bool_iff.
Qed.

(** X26: when the latitudes of the tile decrease along the vector (as
    for a negative step), the latitude window is cut outward: every
    latitude of the tile inside the requested range is retained, the
    first retained latitude is at or above the upper bound and the
    last one at or below the lower bound, and only these two can lie
    outside the range. *)
Theorem crop_latitudes_cover lonvec latvec arr geotx lon_range lat_range w :
  crop lonvec latvec arr geotx lon_range lat_range = Some w →
  (∀ i j x y, i < j → latvec !! i = Some x → latvec !! j = Some y →
              (y < x)%Q) →
  (lat_range.1 <= lat_range.2)%Q →
  (∀ x, x ∈ latvec →
        (lat_range.1 <= x)%Q → (x <= lat_range.2)%Q → x ∈ WOFS_latvec w) ∧
  (∃ top bottom,
     head (WOFS_latvec w) = Some top ∧ last (WOFS_latvec w) = Some bottom ∧
     (lat_range.2 <= top)%Q ∧ (bottom <= lat_range.1)%Q) ∧
  (∀ k x, WOFS_latvec w !! k = Some x →
          (0 < k → (x < lat_range.2)%Q) ∧
          (S k < length (WOFS_latvec w) → (lat_range.1 < x)%Q)).
Proof.
  intros (g0 & g1 & g3 & g5 & ylo & yhi & xlo & xhi & _ & _ & _ & _ &
          _ & _ & Hlo & Hhi & ->)%crop_inv Hmono Hrange.
  cbn [WOFS_latvec].
  apply where_last in Hlo as [(a & Ha & Pa) Hmax].
  apply where_head in Hhi as [(b & Hb & Pb) Hmin].
  apply Qle_bool_iff in Pa, Pb.
  pose proof (lookup_lt_Some _ _ _ Ha) as Hxlo.
  pose proof (lookup_lt_Some _ _ _ Hb) as Hxhi.
  assert (xlo ≤ xhi) as Hle.
  { destruct (decide (xlo ≤ xhi)); [done|]. exfalso.
    pose proof (Hmono xhi xlo b a ltac:(lia) Hb Ha). lra. }
  assert (length (slice xlo (xhi + 1) latvec) = xhi + 1 - xlo) as Hlen.
  { rewrite length_slice. lia. }
  split_and!.
  - intros x (k & Hk)%list_elem_of_lookup_1 Hge Hle'.
    apply elem_of_slice. exists k. split; [|done]. split.
    + destruct (decide (xlo ≤ k)); [done|]. exfalso.
      pose proof (Hmono k xlo x a ltac:(lia) Hk Ha). lra.
    + assert (k ≤ xhi); [|lia].
      destruct (decide (k ≤ xhi)); [done|]. exfalso.
      pose proof (Hmono xhi k b x ltac:(lia) Hb Hk). lra.
  - exists a, b. split_and!.
    + rewrite head_lookup, lookup_slice, decide_True by lia.
      by rewrite Nat.add_0_r.
    + rewrite last_lookup, Hlen, lookup_slice, decide_True by lia.
      by replace (xlo + pred (xhi + 1 - xlo)) with xhi by lia.
    + done.
    + done.
  - intros k x Hk. rewrite Hlen. rewrite lookup_slice in Hk.
    destruct (decide (xlo + k < xhi + 1)); [|done]. split.
    + intros Hpos. apply Qnot_le_lt. intros Hc%Qle_bool_iff.
      pose proof (Hmax (xlo + k) x Hk Hc). lia.
    + intros Hlast. apply Qnot_le_lt. intros Hc%Qle_bool_iff.
      pose proof (Hmin (xlo + k) x Hk Hc). lia.
Qed.

(** X27: on a square tile the cropped array has one row per retained
    latitude and one column per retained longitude. *)
Theorem crop_shape (n : nat) arr geotx lon_range lat_range w :
  rect n n arr →
  extract arr geotx lon_range lat_range = Some w →
  rect (length (WOFS_latvec w)) (length (WOFS_lonvec w)) (WOFS_array w).
Proof.
  intros [Hn Hrows]
    (g0 & g1 & g3 & g5 & ylo & yhi & xlo & xhi & _ & _ & _ & _ &
     _ & _ & _ & _ & ->)%extract_inv.
  cbn [WOFS_array WOFS_lonvec WOFS_latvec].
  assert (length (default [] (head arr)) = n) as Hhead.
  { destruct arr as [|r arr]; [done|]. by apply Forall_cons in Hrows as [? _]. }
  split.
  - rewrite length_fmap, !length_slice, length_coord_vec. lia.
  - apply Forall_fmap, Forall_forall. intros r (k & _ & Hr)%elem_of_slice.
    simpl. rewrite !length_slice, length_coord_vec.
    rewrite Forall_lookup in Hrows. rewrite (Hrows k r Hr). lia.
Qed.

Lemma crop_longitudes_inside_witness :
  141%Q ∈ [141; 142]%Q ↔
  141%Q ∈ [140; 141; 142]%Q ∧ (141 <= 141)%Q ∧ (141 <= 142)%Q.
Proof.
  apply (crop_longitudes_inside
           [140; 141; 142]%Q [-30; -31; -32]%Q
           [[1; 2; 3]; [4; 5; 6]; [7; 8; 9]]%Q [140; 1; 0; -30; 0; -1]%Q
           (141, 142)%Q (-32, -31)%Q
           (Window [141; 142]%Q [-31; -32]%Q [[5; 6]; [8; 9]]%Q
                   [141; 1; 0; -31; 0; -1]%Q)).
  - vm_compute. reflexivity.
  - intros i j x y Hij Hi Hj.
    destruct i as [|[|[|i]]], j as [|[|[|j]]]; try discriminate Hi;
      try discriminate Hj; try lia;
      injection Hi as <-; injection Hj as <-; vm_compute; discriminate.
Defined.

Lemma crop_latitudes_cover_witness :
  ∃ top bottom,
    head [-31; -32]%Q = Some top ∧ last [-31; -32]%Q = Some bottom ∧
    (-31 <= top)%Q ∧ (bottom <= -32)%Q.
Proof.
  destruct (crop_latitudes_cover
              [140; 141; 142]%Q [-30; -31; -32]%Q
              [[1; 2; 3]; [4; 5; 6]; [7; 8; 9]]%Q [140; 1; 0; -30; 0; -1]%Q
              (141, 142)%Q (-32, -31)%Q
              (Window [141; 142]%Q [-31; -32]%Q [[5; 6]; [8; 9]]%Q
                      [141; 1; 0; -31; 0; -1]%Q))
    as (_ & Hends & _).
  - vm_compute. reflexivity.
  - intros i j x y Hij Hi Hj.
    destruct i as [|[|[|i]]], j as [|[|[|j]]]; try discriminate Hi;
      try discriminate Hj; try lia;
      injection Hi as <-; injection Hj as <-; reflexivity.
  - vm_compute. discriminate.
  - exact Hends.
Defined.

Lemma crop_shape_witness :
  rect 2 2 [[5; 6]; [8; 9]]%Q.
Proof.
  apply (crop_shape 3
           [[1; 2; 3]; [4; 5; 6]; [7; 8; 9]]%Q [140; 1; 0; -30; 0; -1]%Q
           (141, 142)%Q (-32, -31)%Q
           (Window [141; 142]%Q [-31; -32]%Q [[5; 6]; [8; 9]]%Q
                   [141; 1; 0; -31; 0; -1]%Q)).
  - split; [reflexivity|]. repeat constructor.
  - vm_compute. reflexivity.
Defined.

(** ** The listing of lake extents (08a) *)

Import Lakes.

Lemma Qle_bool_false (x y : Q) : Qle_bool x y = false → (y < x)%Q.
Proof.
  intros H. apply Qnot_le_lt. intros Hle%Qle_bool_iff. congruence.
Qed.

Lemma foldl_min_spec (x : Q) (l : list Q) :
  let m := foldl (λ m y, if Qle_bool m y then m else y) x l in
  m ∈ x :: l ∧ ∀ y, y ∈ x :: l → (m <= y)%Q.
Proof.
  revert x. induction l as [|z l IH]; intros x; simpl.
  - split; [by apply list_elem_of_singleton|].
    intros y ->%list_elem_of_singleton. apply Qle_refl.
  - destruct (Qle_bool x z) eqn:Hxz.
    + destruct (IH x) as [Hin Hmin]. split.
      * apply elem_of_cons in Hin as [->|Hin]; [by left|by do 2 right].
      * intros y [->|[->|Hy]%elem_of_cons]%elem_of_cons.
        -- apply Hmin. by left.
        -- apply Qle_bool_iff in Hxz. eapply Qle_trans; [|exact Hxz].
           apply Hmin. by left.
        -- apply Hmin. by right.
    + destruct (IH z) as [Hin Hmin]. split.
      * by right.
      * intros y [->|Hy]%elem_of_cons; [|by apply Hmin].
        apply Qle_bool_false in Hxz. apply Qlt_le_weak.
        eapply Qle_lt_trans; [|exact Hxz]. apply Hmin. by left.
Qed.

Lemma foldl_max_spec (x : Q) (l : list Q) :
  let m := foldl (λ m y, if Qle_bool y m then m else y) x l in
  m ∈ x :: l ∧ ∀ y, y ∈ x :: l → (y <= m)%Q.
Proof.
  revert x. induction l as [|z l IH]; intros x; simpl.
  - split; [by apply list_elem_of_singleton|].
    intros y ->%list_elem_of_singleton. apply Qle_refl.
  - destruct (Qle_bool z x) eqn:Hxz.
    + destruct (IH x) as [Hin Hmax]. split.
      * apply elem_of_cons in Hin as [->|Hin]; [by left|by do 2 right].
      * intros y [->|[->|Hy]%elem_of_cons]%elem_of_cons.
        -- apply Hmax. by left.
        -- apply Qle_bool_iff in Hxz. eapply Qle_trans; [exact Hxz|].
           apply Hmax. by left.
        -- apply Hmax. by right.
    + destruct (IH z) as [Hin Hmax]. split.
      * by right.
      * intros y [->|Hy]%elem_of_cons; [|by apply Hmax].
        apply Qle_bool_false in Hxz. apply Qlt_le_weak.
        eapply Qlt_le_trans; [exact Hxz|]. apply Hmax. by left.
Qed.

Lemma py_min_spec (l : list Q) (m : Q) :
  py_min l = Some m → m ∈ l ∧ ∀ y, y ∈ l → (m <= y)%Q.
Proof.
  destruct l as [|x l]; [done|]. intros [= <-]. apply foldl_min_spec.
Qed.

Lemma py_max_spec (l : list Q) (m : Q) :
  py_max l = Some m → m ∈ l ∧ ∀ y, y ∈ l → (y <= m)%Q.
Proof.
  destruct l as [|x l]; [done|]. intros [= <-]. apply foldl_max_spec.
Qed.

Lemma extent_line_inv (kk : nat) (ftr : feature) (ln : line) :
  extent_line kk ftr = Some ln →
  ∃ ring min_lat max_lat min_lon max_lon,
    coordinates ftr !! 0 = Some ring ∧
    py_min ring.*2 = Some min_lat ∧ py_max ring.*2 = Some max_lat ∧
    py_min ring.*1 = Some min_lon ∧ py_max ring.*1 = Some max_lon ∧
    ln = Extent kk (HYDRONAMET ftr) (HYDRONAME ftr) (HYDRONAMEO ftr)
                min_lat max_lat min_lon max_lon.
Proof.
  unfold extent_line. intros H.
  destruct (coordinates ftr !! 0) as [ring|]; [|done].
  cbn [mbind option_bind] in H.
  destruct (py_min ring.*2) as [a|] eqn:Ha; [|done]. cbn [mbind option_bind] in H.
  destruct (py_max ring.*2) as [b|] eqn:Hb; [|done]. cbn [mbind option_bind] in H.
  destruct (py_min ring.*1) as [c|] eqn:Hc; [|done]. cbn [mbind option_bind] in H.
  destruct (py_max ring.*1) as [d|] eqn:Hd; [|done]. cbn [mbind option_bind] in H.
  injection H as <-. by exists ring, a, b, c, d.
Qed.

Lemma extent_line_is_Some (kk : nat) (ftr : feature) c cs rest :
  coordinates ftr = (c :: cs) :: rest → is_Some (extent_line kk ftr).
Proof. unfold extent_line. intros ->. by eexists. Qed.

(** X28: the extent printed for a feature is the tight bounding box of
    the first ring of its geometry: every vertex of the ring lies
    within the four bounds, and each bound is the coordinate of some
    vertex. *)
Theorem extent_is_bounding_box (kk kk' : nat) (ftr : feature)
    (lake_type lake_name lake_nr : string) (min_lat max_lat min_lon max_lon : Q) :
  extent_line kk ftr
  = Some (Extent kk' lake_type lake_name lake_nr
                 min_lat max_lat min_lon max_lon) →
  ∃ ring,
    coordinates ftr !! 0 = Some ring ∧
    (∀ lon lat, (lon, lat) ∈ ring →
                (min_lat <= lat)%Q ∧ (lat <= max_lat)%Q ∧
                (min_lon <= lon)%Q ∧ (lon <= max_lon)%Q) ∧
    min_lat ∈ ring.*2 ∧ max_lat ∈ ring.*2 ∧
    min_lon ∈ ring.*1 ∧ max_lon ∈ ring.*1.
Proof.
  intros (ring & a & b & c & d & Hring & Ha & Hb & Hc & Hd & Heq)%extent_line_inv.
  injection Heq as _ _ _ _ -> -> -> ->.
  apply py_min_spec in Ha as [Ha Ha'], Hc as [Hc Hc'].
  apply py_max_spec in Hb as [Hb Hb'], Hd as [Hd Hd'].
  exists ring. split_and!; [done| |done..].
  intros lon lat Hin.
  assert (lat ∈ ring.*2) as Hlat.
  { apply list_elem_of_fmap. by exists (lon, lat). }
  assert (lon ∈ ring.*1) as Hlon.
  { apply list_elem_of_fmap. by exists (lon, lat). }
  split_and!; auto.
Qed.

Ltac ltb_cases :=
  repeat match goal with
         | |- context [?a <? ?b] =>
             let H := fresh in
             destruct (a <? b) eqn:H;
             [apply Nat.ltb_lt in H|apply Nat.ltb_ge in H]
         end.

Section listing_facts.
Variables (features : list feature) (kk_lim : nat).

Hypothesis rings :
  Forall (λ f, ∃ c cs rest, coordinates f = (c :: cs) :: rest) features.

Lemma listing_prefix (k : nat) :
  k ≤ length features →
  ∃ lines,
    for_each (listing_body features kk_lim) (seq 0 k) [] = Some lines ∧
    (Ellipsis ∈ lines ↔ kk_lim < k) ∧
    (∀ ln, ln ≠ Ellipsis →
           (ln ∈ lines ↔
            ∃ kk ftr, kk < k ∧ features !! kk = Some ftr ∧
                      extent_line kk ftr = Some ln ∧ kk ≠ kk_lim ∧
                      (kk < kk_lim ∨ length features < kk + kk_lim))) ∧
    length lines
    = min k kk_lim + (if kk_lim <? k then 1 else 0)
      + (k - 1 - max kk_lim (length features - kk_lim)).
Proof.
  induction k as [|k IH]; intros Hk.
  { exists []. split_and!.
    - done.
    - split; [by intros ?%elem_of_nil|lia].
    - intros ln _. split; [by intros ?%elem_of_nil|].
      intros (kk & _ & ? & _). lia.
    - simpl. destruct kk_lim; simpl; lia. }
  destruct IH as (lines & Hrun & Hell & Hshown & Hlen); [lia|].
  rewrite seq_S, for_each_snoc, Hrun. cbn [mbind option_bind plus].
  unfold listing_body.
  destruct (k =? kk_lim) eqn:Hlim.
  { apply Nat.eqb_eq in Hlim. subst k.
    exists (lines ++ [Ellipsis]). split_and!.
    - done.
    - rewrite elem_of_app, list_elem_of_singleton. split; [lia|by right].
    - intros ln Hln. rewrite elem_of_app, list_elem_of_singleton, (Hshown ln Hln).
      split.
      + intros [(kk & ftr & ? & ?)|?]; [|done]. exists kk, ftr. split; [lia|done].
      + intros (kk & ftr & ? & ? & ? & ? & ?). left. exists kk, ftr.
        split; [lia|done].
    - rewrite length_app, Hlen. cbn [length]. ltb_cases; lia. }
  apply Nat.eqb_neq in Hlim.
  destruct ((k <? kk_lim)
            || (Z.of_nat (length features) - Z.of_nat kk_lim <? Z.of_nat k)%Z)
    eqn:Hcond.
  - assert (k < kk_lim ∨ length features < k + kk_lim) as Hc.
    { apply orb_true_iff in Hcond as [?%Nat.ltb_lt|?%Z.ltb_lt]; lia. }
    destruct (lookup_lt_is_Some_2 features k) as [ftr Hftr]; [lia|].
    rewrite Hftr. cbn [mbind option_bind].
    rewrite Forall_lookup in rings.
    destruct (rings k ftr Hftr) as (c & cs & rest & Hring).
    destruct (extent_line_is_Some k ftr c cs rest Hring) as [ln Hln].
    rewrite Hln. cbn [mbind option_bind].
    assert (ln ≠ Ellipsis) as Hne.
    { apply extent_line_inv in Hln as (? & ? & ? & ? & ? & _ & _ & _ & _ & _ & ->).
      done. }
    exists (lines ++ [ln]). split_and!.
    + done.
    + rewrite elem_of_app, list_elem_of_singleton, Hell. split.
      * intros [?|?]; [lia|done].
      * intros ?. left. lia.
    + intros ln' Hln'.
      rewrite elem_of_app, list_elem_of_singleton, (Hshown ln' Hln'). split.
      * intros [(kk & f & ? & ?)| ->].
        -- exists kk, f. split; [lia|done].
        -- exists k, ftr. split_and!; [lia|done..].
      * intros (kk & f & Hlt & Hf & He & Hne' & Hor).
        destruct (decide (kk = k)) as [->|].
        -- right. congruence.
        -- left. exists kk, f. split_and!; [lia|done..].
    + rewrite length_app, Hlen. cbn [length]. ltb_cases; lia.
  - assert (¬ (k < kk_lim ∨ length features < k + kk_lim)) as Hc.
    { apply orb_false_iff in Hcond as [?%Nat.ltb_ge ?%Z.ltb_ge]. lia. }
    exists lines. split_and!.
    + done.
    + rewrite Hell. lia.
    + intros ln Hln. rewrite (Hshown ln Hln). split.
      * intros (kk & f & ? & ?). exists kk, f. split; [lia|done].
      * intros (kk & f & Hlt & Hf & He & Hne & Hrest).
        destruct (decide (kk = k)) as [->|]; [done|].
        exists kk, f. split_and!; [lia|done..].
    + rewrite Hlen. ltb_cases; lia.
Qed.

(** X29: what the listing of 08a shows. Features below [kk_lim] and
    features above [n_ftr - kk_lim] are listed, except feature
    [kk_lim] itself, whose place is always taken by the ellipsis; the
    ellipsis appears as soon as there are more than [kk_lim]
    features, and with a positive [kk_lim] the listing has
    [min n_ftr (2 * kk_lim)] lines. *)
Theorem listing_shows :
  ∃ lines,
    listing features kk_lim = Some lines ∧
    (Ellipsis ∈ lines ↔ kk_lim < length features) ∧
    (∀ ln, ln ≠ Ellipsis →
           (ln ∈ lines ↔
            ∃ kk ftr, features !! kk = Some ftr ∧
                      extent_line kk ftr = Some ln ∧ kk ≠ kk_lim ∧
                      (kk < kk_lim ∨ length features < kk + kk_lim))) ∧
    (0 < kk_lim → length lines = min (length features) (2 * kk_lim)).
Proof.
  destruct (listing_prefix (length features)) as (lines & Hrun & Hell & Hshown & Hlen);
    [done|].
  exists lines. split_and!; [done|done| |].
  - intros ln Hln. rewrite (Hshown ln Hln). split.
    + intros (kk & f & _ & ?). by exists kk, f.
    + intros (kk & f & Hf & ?). exists kk, f. split; [|done].
      by eapply lookup_lt_Some.
  - intros Hpos. rewrite Hlen. ltb_cases; lia.
Qed.
End listing_facts.

Lemma extent_is_bounding_box_witness :
  ∃ ring,
    [[(150, -33); (151, -34); (150, -34)]]%Q !! 0 = Some ring ∧
    (∀ lon lat, (lon, lat) ∈ ring →
                (-34 <= lat)%Q ∧ (lat <= -33)%Q ∧
                (150 <= lon)%Q ∧ (lon <= 151)%Q) ∧
    (-34)%Q ∈ ring.*2 ∧ (-33)%Q ∈ ring.*2 ∧
    150%Q ∈ ring.*1 ∧ 151%Q ∈ ring.*1.
Proof.
  apply (extent_is_bounding_box 0 0
           (Feature "IRONBARK" "LAKE" "21297"
                    [[(150, -33); (151, -34); (150, -34)]]%Q)
           "LAKE" "IRONBARK" "21297" (-34) (-33) 150 151).
  vm_compute. reflexivity.
Defined.

Lemma listing_shows_witness :
  ∃ lines,
    listing [Feature "IRONBARK" "LAKE" "21297" [[(150, -33); (151, -34)]]%Q;
             Feature "DOUJON" "LAKE" "21298" [[(150, -33); (151, -34)]]%Q;
             Feature "GREEN" "LAKE" "4427" [[(149, -37); (149, -38)]]%Q] 1
    = Some lines ∧
    (Ellipsis ∈ lines ↔ 1 < 3) ∧
    (∀ ln, ln ≠ Ellipsis →
           (ln ∈ lines ↔
            ∃ kk ftr,
              [Feature "IRONBARK" "LAKE" "21297" [[(150, -33); (151, -34)]]%Q;
               Feature "DOUJON" "LAKE" "21298" [[(150, -33); (151, -34)]]%Q;
               Feature "GREEN" "LAKE" "4427" [[(149, -37); (149, -38)]]%Q]
                !! kk = Some ftr ∧
              extent_line kk ftr = Some ln ∧ kk ≠ 1 ∧ (kk < 1 ∨ 3 < kk + 1))) ∧
    (0 < 1 → length lines = min 3 (2 * 1)).
Proof.
  apply (listing_shows
           [Feature "IRONBARK" "LAKE" "21297" [[(150, -33); (151, -34)]]%Q;
            Feature "DOUJON" "LAKE" "21298" [[(150, -33); (151, -34)]]%Q;
            Feature "GREEN" "LAKE" "4427" [[(149, -37); (149, -38)]]%Q] 1).
  repeat constructor; simpl; eauto.
Defined.
